(** * LockManager: a resource-scoped reader/writer lock coordinator

    Shallow embedding of [server/concurrency/LockManager.ts] (the class
    [LockManager]) and of the lock routes that serve it, and the proofs of
    its scheduling, timeout, release, force-unlock, audit and snapshot
    properties.

    The manager is a JavaScript object living on a single-threaded event
    loop.  Its [async] methods run synchronously up to their first [await];
    what follows an [await] runs later, as a task of its own, and other
    calls can run in between.  The embedding keeps that structure: every
    synchronous segment of the source is one function on [World], timers
    and suspended continuations are data in the [World], and the event loop
    is the relation [step]. *)

From Stdlib Require Import ZArith QArith Qround Sorted.
From stdpp Require Import base option list strings gmap.

(** ** [Map<string, V>]: a JavaScript [Map] keeps its keys in insertion order *)

Module JsMap.
Section ops.
Context {V : Type}.

Fixpoint get (k : string) (m : list (string * V)) : option V :=
    match m with
    | [] => None
    | (k', v) :: m' => if decide (k' = k) then Some v else get k m'
    end.

  (** [set] on a key that is present replaces the value in place; a new key
      goes to the end. *)
Fixpoint set (k : string) (v : V) (m : list (string * V)) : list (string * V) :=
    match m with
    | [] => [(k, v)]
    | (k', v') :: m' =>
        if decide (k' = k) then (k, v) :: m' else (k', v') :: set k v m'
    end.

Definition delete (k : string) (m : list (string * V)) : list (string * V) :=
    filter (λ kv, kv.1 ≠ k) m.

Definition has (k : string) (m : list (string * V)) : bool :=
    bool_decide (is_Some (get k m)).

Definition size (m : list (string * V)) : nat := length m.

Definition keys (m : list (string * V)) : list string := m.*1.

Definition clear : list (string * V) := [].
End ops.
End JsMap.

(** ** JavaScript numbers, as far as timers look at them

    A [number] is a double: a rational, an infinity or [NaN].  [ms z] is
    the whole number [z]. *)
Global Instance Q_eq_dec : EqDecision Q.
Proof. solve_decision. Defined.

Inductive JsNumber :=
  | Finite (x : Q)
  | Infinity (negative : bool)
  | NaN.

Global Instance JsNumber_eq_dec : EqDecision JsNumber.
Proof. solve_decision. Defined.

Definition ms (z : Z) : JsNumber := Finite (inject_Z z).

(** The delay a Node.js timer gets from the number given to [setTimeout]:
    a number from 1 to [TIMEOUT_MAX] is kept, and counted in whole
    milliseconds; anything else, [NaN] included, becomes 1. *)
Definition TIMEOUT_MAX : Z := 2147483647.

Definition timerDelay (after : JsNumber) : Z :=
  match after with
  | Finite x =>
      if Qle_bool 1 x && Qle_bool x (inject_Z TIMEOUT_MAX) then Qfloor x else 1%Z
  | Infinity _ | NaN => 1%Z
  end.

(** ** [Date.prototype.toISOString]

    A time stamp is a time value, the milliseconds since the epoch that
    [Date.now()] returns.  [padStart width n] is the last [width] decimal
    digits of [n]; [dateFromDay] is the civil date (year, month, day) of a
    day number; years from 0 to 9999 are written with four digits, the
    others with a sign and six. *)
Fixpoint padStart (width : nat) (n : Z) : string :=
  match width with
  | 0 => ""
  | S width' =>
      padStart width' (n / 10)
      +:+ String (Ascii.ascii_of_nat (48 + Z.to_nat (n mod 10))) ""
  end.

Definition dateFromDay (day : Z) : Z * Z * Z :=
  let z := (day + 719468)%Z in
  let era := (z / 146097)%Z in
  let doe := (z - era * 146097)%Z in
  let yoe := ((doe - doe / 1460 + doe / 36524 - doe / 146096) / 365)%Z in
  let doy := (doe - (365 * yoe + yoe / 4 - yoe / 100))%Z in
  let mp := ((5 * doy + 2) / 153)%Z in
  let d := (doy - (153 * mp + 2) / 5 + 1)%Z in
  let m := (if decide (mp < 10) then mp + 3 else mp - 9)%Z in
  ((yoe + era * 400 + (if decide (m ≤ 2) then 1 else 0))%Z, m, d).

Definition yearString (y : Z) : string :=
  if decide (0 ≤ y ≤ 9999)%Z then padStart 4 y
  else (if decide (y < 0)%Z then "-" else "+") +:+ padStart 6 (Z.abs y).

Definition msPerDay : Z := 86400000.

Definition toISOString (t : Z) : string :=
  let '(y, m, d) := dateFromDay (t / msPerDay) in
  let time := (t mod msPerDay)%Z in
  yearString y +:+ "-" +:+ padStart 2 m +:+ "-" +:+ padStart 2 d
  +:+ "T" +:+ padStart 2 (time / 3600000) +:+ ":" +:+ padStart 2 (time / 60000 mod 60)
  +:+ ":" +:+ padStart 2 (time / 1000 mod 60) +:+ "." +:+ padStart 3 (time mod 1000)
  +:+ "Z".

(** ** Data model *)

Inductive LockType := read | write.

Global Instance LockType_eq_dec : EqDecision LockType.
Proof. solve_decision. Defined.

Definition LockType_to_string (t : LockType) : string :=
  match t with read => "read" | write => "write" end.

(** The promise returned by [enqueue] is awaited by [acquireReadLock] or
    [acquireWriteLock], which is called either from outside or by
    [simulateReadLock]/[simulateWriteLock] (which then awaits it with its
    [holdMs]). *)
Inductive Awaiter :=
  | ByCaller
  | BySimulate (holdMs : JsNumber).

Global Instance Awaiter_eq_dec : EqDecision Awaiter.
Proof. solve_decision. Defined.

(** [interface LockRequest].  The closures [resolve] and [reject] are the
    functions [resolve] and [reject] below; [timer] is the handle returned
    by [setTimeout]. *)
Record LockRequest := {
  type : LockType;
  sessionId : string;
  timer : nat;
  requestedAt : Z;
  awaiter : Awaiter;
}.

Global Instance LockRequest_eq_dec : EqDecision LockRequest.
Proof. solve_decision. Defined.

(** [interface LockRecord] *)
Record LockRecord := {
  readers : list (string * Z);
  writer : option (string * Z);
  queue : list LockRequest;
}.

Global Instance LockRecord_eq_dec : EqDecision LockRecord.
Proof. solve_decision. Defined.

Definition emptyRecord : LockRecord :=
  {| readers := JsMap.clear; writer := None; queue := [] |}.

(** How a promise ends. *)
Inductive Outcome :=
  | Fulfilled
  | Rejected (message : string).

Global Instance Outcome_eq_dec : EqDecision Outcome.
Proof. solve_decision. Defined.

(** Who awaits a [forceUnlock] call: a caller from outside, or the loop of
    [clearAll] with the resource ids it still has to visit. *)
Inductive ForceCaller :=
  | FromOutside
  | FromClearAll (rest : list string).

(** What awaits a [log] call. *)
Inductive LogAwaiter :=
  | NotAwaited
  | InReleaseLock (resourceId sessionId : string)
  | InForceUnlock (resourceId : string) (caller : ForceCaller)
  | InClearAll.

(** A line of the audit log: the time of the call (rendered by
    [toISOString] in the source) and the message. *)
Definition LogLine : Type := Z * string.

(** Work suspended at an [await]. *)
Inductive Task :=
  | TLog (line : LogLine) (dir : Outcome) (k : LogAwaiter)
  | TClearAllNext (rest : list string)
  | TSimulate (t : LockType) (resourceId sessionId : string) (holdMs : JsNumber).

(** The callbacks given to [setTimeout]. *)
Inductive Callback :=
  | RequestTimeout (record : nat) (resourceId : string) (request : LockRequest)
  | SimulatedRelease (resourceId sessionId : string).

Record Timer := {
  callback : Callback;
  armedAt : Z;
  delay : Z;
}.

(** The promises the manager settles, as seen by their callers. *)
Inductive Call :=
  | Acquire (resourceId : string) (request : LockRequest)
  | Simulate (t : LockType) (resourceId sessionId : string)
  | Release (resourceId sessionId : string)
  | ForceUnlock (resourceId : string)
  | ClearAll
  | Unawaited.

Inductive Event :=
  | Settled (c : Call) (o : Outcome).

(** [process.env] as read when the module is loaded: each variable, when
    it is set, as the number that [Number] makes of its text. *)
Record ProcessEnv := {
  env_LOCK_TIMEOUT_MS : option JsNumber;
  env_LOCK_SIM_HOLD_MS : option JsNumber;
}.

Definition LOCK_TIMEOUT_MS (e : ProcessEnv) : JsNumber :=
  default (ms 5000) (env_LOCK_TIMEOUT_MS e).
Definition SIMULATED_HOLD_MS (e : ProcessEnv) : JsNumber :=
  default (ms 15000) (env_LOCK_SIM_HOLD_MS e).
Definition MAX_LOG_ENTRIES : nat := 200.

(** The manager and the part of the runtime it lives in.  Records and
    arrays are objects: [heap] and [arrays] map references to their current
    contents, [locks] maps a resource id to the reference of its record and
    [recentLogs] is the reference of the log buffer. *)
Record World := {
  processEnv : ProcessEnv;
  locks : list (string * nat);
  heap : gmap nat LockRecord;
  recentLogs : nat;
  arrays : gmap nat (list LogLine);
  ensureLogDirPromise : option Outcome;
  timers : gmap nat Timer;
  tasks : list Task;
  fresh : nat;
  outbox : list Event;
}.

Definition set_locks (f : list (string * nat) → list (string * nat)) (w : World) : World :=
  {| processEnv := processEnv w; locks := f (locks w); heap := heap w;
     recentLogs := recentLogs w; arrays := arrays w;
     ensureLogDirPromise := ensureLogDirPromise w; timers := timers w;
     tasks := tasks w; fresh := fresh w; outbox := outbox w |}.

Definition set_heap (f : gmap nat LockRecord → gmap nat LockRecord) (w : World) : World :=
  {| processEnv := processEnv w; locks := locks w; heap := f (heap w);
     recentLogs := recentLogs w; arrays := arrays w;
     ensureLogDirPromise := ensureLogDirPromise w; timers := timers w;
     tasks := tasks w; fresh := fresh w; outbox := outbox w |}.

Definition set_arrays (f : gmap nat (list LogLine) → gmap nat (list LogLine)) (w : World) : World :=
  {| processEnv := processEnv w; locks := locks w; heap := heap w;
     recentLogs := recentLogs w; arrays := f (arrays w);
     ensureLogDirPromise := ensureLogDirPromise w; timers := timers w;
     tasks := tasks w; fresh := fresh w; outbox := outbox w |}.

Definition set_ensureLogDirPromise (p : option Outcome) (w : World) : World :=
  {| processEnv := processEnv w; locks := locks w; heap := heap w;
     recentLogs := recentLogs w; arrays := arrays w;
     ensureLogDirPromise := p; timers := timers w;
     tasks := tasks w; fresh := fresh w; outbox := outbox w |}.

Definition set_timers (f : gmap nat Timer → gmap nat Timer) (w : World) : World :=
  {| processEnv := processEnv w; locks := locks w; heap := heap w;
     recentLogs := recentLogs w; arrays := arrays w;
     ensureLogDirPromise := ensureLogDirPromise w; timers := f (timers w);
     tasks := tasks w; fresh := fresh w; outbox := outbox w |}.

Definition set_tasks (f : list Task → list Task) (w : World) : World :=
  {| processEnv := processEnv w; locks := locks w; heap := heap w;
     recentLogs := recentLogs w; arrays := arrays w;
     ensureLogDirPromise := ensureLogDirPromise w; timers := timers w;
     tasks := f (tasks w); fresh := fresh w; outbox := outbox w |}.

Definition set_fresh (n : nat) (w : World) : World :=
  {| processEnv := processEnv w; locks := locks w; heap := heap w;
     recentLogs := recentLogs w; arrays := arrays w;
     ensureLogDirPromise := ensureLogDirPromise w; timers := timers w;
     tasks := tasks w; fresh := n; outbox := outbox w |}.

Definition emit (e : Event) (w : World) : World :=
  {| processEnv := processEnv w; locks := locks w; heap := heap w;
     recentLogs := recentLogs w; arrays := arrays w;
     ensureLogDirPromise := ensureLogDirPromise w; timers := timers w;
     tasks := tasks w; fresh := fresh w; outbox := outbox w ++ [e] |}.

(** [new LockManager()] in a fresh process. *)
Definition newLockManager (e : ProcessEnv) : World :=
  {| processEnv := e; locks := JsMap.clear; heap := ∅;
     recentLogs := 0; arrays := {[ 0 := [] ]};
     ensureLogDirPromise := None; timers := ∅;
     tasks := []; fresh := 1; outbox := [] |}.

(** ** The environment of one synchronous segment

    [now] is what [Date.now()] returns, a time value; [mkdir] how
    [fs.mkdir] ends if this segment is the one that calls it, [appendFile]
    how [fs.appendFile] ends for the log call that resumes in this segment. *)
Record Input := {
  now : Z;
  mkdir : Outcome;
  appendFile : Outcome;
}.

(** ** Timers and promises *)

Definition setTimeout (cb : Callback) (after : JsNumber) (i : Input) (w : World) :
    nat * World :=
  let h := fresh w in
  (h, set_fresh (S h)
        (set_timers <[h := {| callback := cb; armedAt := now i;
                              delay := timerDelay after |}]> w)).

Definition clearTimeout (h : nat) (w : World) : World :=
  set_timers (delete h) w.

Definition settle (c : Call) (o : Outcome) (w : World) : World :=
  emit (Settled c o) w.

(** ** The audit log *)

(** [ensureLogDir]: the promise of [fs.mkdir] is created by the first call
    and returned by every later one, however it ends. *)
Definition ensureLogDir (i : Input) (w : World) : Outcome * World :=
  match ensureLogDirPromise w with
  | Some p => (p, w)
  | None => (mkdir i, set_ensureLogDirPromise (Some (mkdir i)) w)
  end.

(** [log], up to its first [await]: the line is built, [ensureLogDir] is
    called, and the rest of [log] waits for that promise. *)
Definition log (i : Input) (message : string) (k : LogAwaiter) (w : World) : World :=
  let line := (now i, message) in
  let '(dir, w1) := ensureLogDir i w in
  set_tasks (λ ts, ts ++ [TLog line dir k]) w1.

(** [.catch(() => { })] *)
Definition catch_ignore (o : Outcome) : Outcome :=
  match o with
  | Fulfilled => Fulfilled
  | Rejected _ => Fulfilled
  end.

(** [this.recentLogs.push(line)] and the [shift] that bounds the buffer. *)
Definition pushRecentLog (line : LogLine) (w : World) : World :=
  let buf := default [] (arrays w !! recentLogs w) ++ [line] in
  set_arrays <[recentLogs w := if decide (MAX_LOG_ENTRIES < length buf) then tail buf else buf]> w.

(** The rest of [log] after [await this.ensureLogDir()]: when the awaited
    promise is rejected [log] throws and nothing is pushed; otherwise the
    line is appended to the file, a failure of which the [catch] swallows,
    and pushed to the buffer. *)
Definition logResume (i : Input) (line : LogLine) (dir : Outcome) (w : World) : Outcome * World :=
  match dir with
  | Rejected e => (Rejected e, w)
  | Fulfilled =>
      match catch_ignore (appendFile i) with
      | Rejected e => (Rejected e, w)
      | Fulfilled => (Fulfilled, pushRecentLog line w)
      end
  end.

(** The messages of the audit lines. *)
Definition queuedMessage (t : LockType) (resourceId sid : string) : string :=
  "QUEUED type=" +:+ LockType_to_string t +:+ " resource=" +:+ resourceId
  +:+ " session=" +:+ sid.

Definition acquiredMessage (t : LockType) (resourceId sid : string) : string :=
  "ACQUIRED type=" +:+ LockType_to_string t +:+ " resource=" +:+ resourceId
  +:+ " session=" +:+ sid.

Definition timeoutMessage (t : LockType) (resourceId sid : string) : string :=
  "TIMEOUT type=" +:+ LockType_to_string t +:+ " resource=" +:+ resourceId
  +:+ " session=" +:+ sid.

Definition releasedMessage (resourceId sid : string) : string :=
  "RELEASED resource=" +:+ resourceId +:+ " session=" +:+ sid.

Definition forceUnlockMessage (resourceId : string) (affectedSessions : list string) : string :=
  "FORCE_UNLOCK resource=" +:+ resourceId +:+ " sessions="
  +:+ String.concat "," affectedSessions.

(** ** The lock table *)

(** [this.locks.get(resourceId)]: the reference and what it points to. *)
Definition lookupRecord (resourceId : string) (w : World) : option (nat * LockRecord) :=
  match JsMap.get resourceId (locks w) with
  | Some l =>
      match heap w !! l with
      | Some record => Some (l, record)
      | None => None
      end
  | None => None
  end.

Definition getRecord (resourceId : string) (w : World) : nat * World :=
  match JsMap.get resourceId (locks w) with
  | Some l => (l, w)
  | None =>
      let l := fresh w in
      (l, set_fresh (S l)
            (set_locks (JsMap.set resourceId l)
               (set_heap <[l := emptyRecord]> w)))
  end.

Definition isIdle (record : LockRecord) : bool :=
  bool_decide (JsMap.size (readers record) = 0)
  && bool_decide (writer record = None)
  && bool_decide (length (queue record) = 0).

Definition cleanup (resourceId : string) (w : World) : World :=
  match lookupRecord resourceId w with
  | None => w
  | Some (_, record) =>
      if isIdle record then set_locks (JsMap.delete resourceId) w else w
  end.

(** The promise of [enqueue] is what [acquireReadLock]/[acquireWriteLock]
    await; when [simulateReadLock]/[simulateWriteLock] awaits that in turn,
    a fulfilment resumes it later and a rejection rejects it. *)
Definition settleAcquire (resourceId : string) (request : LockRequest) (o : Outcome)
    (w : World) : World :=
  let w1 := settle (Acquire resourceId request) o w in
  match awaiter request, o with
  | ByCaller, _ => w1
  | BySimulate holdMs, Fulfilled =>
      set_tasks (λ ts, ts ++ [TSimulate (type request) resourceId (sessionId request) holdMs]) w1
  | BySimulate _, Rejected e =>
      settle (Simulate (type request) resourceId (sessionId request)) (Rejected e) w1
  end.

(** [request.resolve] *)
Definition resolve (i : Input) (resourceId : string) (request : LockRequest) (w : World) : World :=
  let w1 := clearTimeout (timer request) w in
  let w2 := log i (acquiredMessage (type request) resourceId (sessionId request))
              NotAwaited w1 in
  settleAcquire resourceId request Fulfilled w2.

(** [request.reject] *)
Definition reject (resourceId : string) (request : LockRequest) (error : string) (w : World) : World :=
  let w1 := clearTimeout (timer request) w in
  settleAcquire resourceId request (Rejected error) w1.

(** ** The scheduler *)

(** The [while] loop of [processQueue]; [fuel] is the length of the queue
    when the loop starts, and every turn shortens the queue by one. *)
Fixpoint grantReaders (i : Input) (resourceId : string) (l : nat) (fuel : nat) (w : World) : World :=
  match fuel with
  | 0 => w
  | S fuel' =>
      match heap w !! l with
      | Some record =>
          match queue record, writer record with
          | readerReq :: rest, None =>
              match type readerReq with
              | read =>
                  let w1 :=
                    set_heap <[l := {| readers := JsMap.set (sessionId readerReq) (now i) (readers record);
                                       writer := None;
                                       queue := rest |}]> w in
                  grantReaders i resourceId l fuel' (resolve i resourceId readerReq w1)
              | write => w
              end
          | _, _ => w
          end
      | None => w
      end
  end.

Definition processQueue (i : Input) (resourceId : string) (w : World) : World :=
  match lookupRecord resourceId w with
  | None => w
  | Some (l, record) =>
      match queue record with
      | [] => cleanup resourceId w
      | next :: rest =>
          match writer record with
          | Some _ => w
          | None =>
              match type next with
              | write =>
                  if decide (JsMap.size (readers record) = 0) then
                    resolve i resourceId next
                      (set_heap <[l := {| readers := readers record;
                                          writer := Some (sessionId next, now i);
                                          queue := rest |}]> w)
                  else w
              | read => grantReaders i resourceId l (length (queue record)) w
              end
          end
      end
  end.

(** ** Acquiring *)

(** The timer's callback and the request refer to each other; the handle
    that [setTimeout] is about to return is [fresh w1]. *)
Definition enqueue (i : Input) (resourceId sid : string) (t : LockType)
    (timeout : JsNumber) (a : Awaiter) (w : World) : World :=
  let '(l, w1) := getRecord resourceId w in
  let request :=
    {| type := t; sessionId := sid; timer := fresh w1;
       requestedAt := now i; awaiter := a |} in
  let '(_, w2) := setTimeout (RequestTimeout l resourceId request) timeout i w1 in
  let w3 :=
    set_heap (alter (λ record, {| readers := readers record; writer := writer record;
                                  queue := queue record ++ [request] |}) l) w2 in
  let w4 := log i (queuedMessage t resourceId sid) NotAwaited w3 in
  processQueue i resourceId w4.

Definition acquireReadLock (i : Input) (resourceId sid : string) (w : World) : World :=
  enqueue i resourceId sid read (LOCK_TIMEOUT_MS (processEnv w)) ByCaller w.

Definition acquireWriteLock (i : Input) (resourceId sid : string) (w : World) : World :=
  enqueue i resourceId sid write (LOCK_TIMEOUT_MS (processEnv w)) ByCaller w.

Definition timeoutError (t : LockType) (resourceId : string) : string :=
  "Lock acquisition timeout for " +:+ LockType_to_string t +:+ " lock on " +:+ resourceId.

(** The callback of the timer armed by [enqueue].  It works on the record
    it captured, [l], and looks the resource up again for [cleanup] and
    [processQueue].  [req !== request] compares objects: two requests are
    different objects exactly when they differ as records, since each has
    the handle of its own timer. *)
Definition onTimeout (i : Input) (l : nat) (resourceId : string) (request : LockRequest)
    (w : World) : World :=
  let w1 :=
    set_heap (alter (λ record, {| readers := readers record; writer := writer record;
                                  queue := filter (λ req, req ≠ request) (queue record) |}) l) w in
  let w2 := settleAcquire resourceId request
              (Rejected (timeoutError (type request) resourceId)) w1 in
  let w3 := log i (timeoutMessage (type request) resourceId (sessionId request))
              NotAwaited w2 in
  processQueue i resourceId (cleanup resourceId w3).

(** ** Releasing *)

Definition cancelError (sid : string) : string :=
  "Lock request cancelled for session " +:+ sid.

Definition flushError (request : LockRequest) : string :=
  "Force unlock flushed session " +:+ sessionId request.

(** Calling [req.reject(new Error(...))] on a run of requests, in order. *)
Definition rejectAll (resourceId : string) (error : LockRequest → string)
    (reqs : list LockRequest) (w : World) : World :=
  foldl (λ w' req, reject resourceId req (error req) w') w reqs.

(** [releaseLock] from [this.processQueue(resourceId)] to its end. *)
Definition releaseLockResume (i : Input) (resourceId sid : string) (w : World) : World :=
  settle (Release resourceId sid) Fulfilled
    (cleanup resourceId (processQueue i resourceId w)).

(** [releaseLock] up to [await this.log(...)], and to its end when nothing
    was released (no [await] is reached then). *)
Definition releaseLock (i : Input) (resourceId sid : string) (w : World) : World :=
  match lookupRecord resourceId w with
  | None => settle (Release resourceId sid) Fulfilled w
  | Some (l, record) =>
      let isWriter := bool_decide (fst <$> writer record = Some sid) in
      let wasReader := JsMap.has sid (readers record) in
      let released := isWriter || wasReader in
      let w1 :=
        set_heap <[l := {| readers := JsMap.delete sid (readers record);
                           writer := if isWriter then None else writer record;
                           queue := filter (λ req, sessionId req ≠ sid) (queue record) |}]> w in
      let w2 := rejectAll resourceId (λ _, cancelError sid)
                  (filter (λ req, sessionId req = sid) (queue record)) w1 in
      if released then
        log i (releasedMessage resourceId sid) (InReleaseLock resourceId sid) w2
      else releaseLockResume i resourceId sid w2
  end.

(** ** Force-unlock and clear-all *)

(** A [forceUnlock] call ends: its caller from outside sees the outcome;
    [clearAll] goes on with its loop, or is rejected with it. *)
Definition forceUnlockReturn (resourceId : string) (caller : ForceCaller) (o : Outcome)
    (w : World) : World :=
  match caller with
  | FromOutside => settle (ForceUnlock resourceId) o w
  | FromClearAll rest =>
      match o with
      | Fulfilled => set_tasks (λ ts, ts ++ [TClearAllNext rest]) w
      | Rejected e => settle ClearAll (Rejected e) w
      end
  end.

(** [forceUnlock] up to [await this.log(...)]. *)
Definition forceUnlock (i : Input) (resourceId : string) (caller : ForceCaller) (w : World) : World :=
  match lookupRecord resourceId w with
  | None => forceUnlockReturn resourceId caller Fulfilled w
  | Some (l, record) =>
      let readerSessions := JsMap.keys (readers record) in
      let affectedSessions :=
        filter (λ s, s ≠ "") (option_list (fst <$> writer record) ++ readerSessions) in
      let w1 := set_heap <[l := {| readers := JsMap.clear; writer := None;
                                   queue := queue record |}]> w in
      let w2 := rejectAll resourceId flushError (queue record) w1 in
      let w3 := set_heap (alter (λ r, {| readers := readers r; writer := writer r;
                                         queue := [] |}) l) w2 in
      log i (forceUnlockMessage resourceId affectedSessions)
        (InForceUnlock resourceId caller) w3
  end.

(** [forceUnlock] after its [await]. *)
Definition forceUnlockResume (resourceId : string) (caller : ForceCaller) (w : World) : World :=
  forceUnlockReturn resourceId caller Fulfilled (cleanup resourceId w).

(** The loop of [clearAll] from its next resource id to its next [await]. *)
Definition clearAllLoop (i : Input) (ids : list string) (w : World) : World :=
  match ids with
  | [] => log i "CLEAR_ALL invoked" InClearAll w
  | resourceId :: rest => forceUnlock i resourceId (FromClearAll rest) w
  end.

Definition clearAll (i : Input) (w : World) : World :=
  clearAllLoop i (JsMap.keys (locks w)) w.

(** ** Simulated locks *)

(** [simulateReadLock]/[simulateWriteLock] up to their [await]; [uuid] is
    what [randomUUID()] returns.  [holdMs] is [None] for [undefined], which
    the default replaces, and otherwise the number that [setTimeout] makes
    of the argument. *)
Definition simulateSession (t : LockType) (uuid : string) : string :=
  "sim-" +:+ LockType_to_string t +:+ "-" +:+ uuid.

Definition simulateLock (t : LockType) (i : Input) (uuid : string) (resourceId : string)
    (holdMs : option JsNumber) (w : World) : World :=
  let sid := simulateSession t uuid in
  enqueue i resourceId sid t (LOCK_TIMEOUT_MS (processEnv w))
    (BySimulate (default (SIMULATED_HOLD_MS (processEnv w)) holdMs)) w.

Definition simulateReadLock := simulateLock read.
Definition simulateWriteLock := simulateLock write.

(** ... and after it: the release timer is armed and the session id
    returned. *)
Definition simulateResume (i : Input) (t : LockType) (resourceId sid : string)
    (holdMs : JsNumber) (w : World) : World :=
  let '(_, w1) := setTimeout (SimulatedRelease resourceId sid) holdMs i w in
  settle (Simulate t resourceId sid) Fulfilled w1.

(** ** The event loop *)

(** What resumes after a [log] call, by how that call ended. *)
Definition logAwaiterResume (i : Input) (k : LogAwaiter) (o : Outcome) (w : World) : World :=
  match k, o with
  | NotAwaited, Fulfilled => w
  | NotAwaited, Rejected e => settle Unawaited (Rejected e) w
  | InReleaseLock r s, Fulfilled => releaseLockResume i r s w
  | InReleaseLock r s, Rejected e => settle (Release r s) (Rejected e) w
  | InForceUnlock r caller, Fulfilled => forceUnlockResume r caller w
  | InForceUnlock r caller, Rejected e => forceUnlockReturn r caller (Rejected e) w
  | InClearAll, _ => settle ClearAll o w
  end.

Definition runTask (i : Input) (t : Task) (w : World) : World :=
  match t with
  | TLog line dir k =>
      let '(o, w1) := logResume i line dir w in
      logAwaiterResume i k o w1
  | TClearAllNext rest => clearAllLoop i rest w
  | TSimulate t r s holdMs => simulateResume i t r s holdMs w
  end.

Definition fireTimer (i : Input) (h : nat) (t : Timer) (w : World) : World :=
  let w1 := clearTimeout h w in
  match callback t with
  | RequestTimeout l resourceId request => onTimeout i l resourceId request w1
  | SimulatedRelease resourceId sid => releaseLock i resourceId sid w1
  end.

(** ** Snapshot queries *)

Module ActiveLockSnapshot.
Record t := {
    resourceId : string;
    type : LockType;
    sessionId : string;
    heldSince : string;
  }.
End ActiveLockSnapshot.

Module QueueSnapshot.
Record t := {
    resourceId : string;
    type : LockType;
    sessionId : string;
    waitingSince : string;
  }.
End QueueSnapshot.

(** [Array.prototype.sort] with a comparator: a stable sort. *)
Section sort.
Context {A : Type} (cmp : A → A → Z).

Fixpoint insertSorted (x : A) (l : list A) : list A :=
    match l with
    | [] => [x]
    | y :: l' => if decide (cmp x y ≤ 0)%Z then x :: l else y :: insertSorted x l'
    end.

Definition sort (l : list A) : list A := foldr insertSorted [] l.
End sort.

(** [a || b] on numbers *)
Definition orElse (a b : Z) : Z := if decide (a = 0%Z) then b else a.

Section snapshots.
  (** [String.prototype.localeCompare], which compares the time stamps, as
      the strings [toISOString] makes of them, and the resource ids. *)
Variable localeCompare : string → string → Z.

Definition recordLocks (entry : string * nat) (w : World) : list ActiveLockSnapshot.t :=
    match heap w !! entry.2 with
    | None => []
    | Some record =>
        match writer record with
        | Some (sid, acquiredAt) =>
            [ {| ActiveLockSnapshot.resourceId := entry.1;
                 ActiveLockSnapshot.type := write;
                 ActiveLockSnapshot.sessionId := sid;
                 ActiveLockSnapshot.heldSince := toISOString acquiredAt |} ]
        | None => []
        end
        ++ map (λ r : string * Z,
                  {| ActiveLockSnapshot.resourceId := entry.1;
                     ActiveLockSnapshot.type := read;
                     ActiveLockSnapshot.sessionId := r.1;
                     ActiveLockSnapshot.heldSince := toISOString r.2 |})
               (readers record)
    end.

Definition getActiveLocks (w : World) : list ActiveLockSnapshot.t * World :=
    let snapshots := locks w ≫= λ entry, recordLocks entry w in
    (sort (λ a b, orElse (localeCompare (ActiveLockSnapshot.heldSince a)
                                        (ActiveLockSnapshot.heldSince b))
                    (localeCompare (ActiveLockSnapshot.resourceId a)
                                   (ActiveLockSnapshot.resourceId b)))
          snapshots,
     w).

Definition recordQueue (entry : string * nat) (w : World) : list QueueSnapshot.t :=
  match heap w !! entry.2 with
  | None => []
  | Some record =>
      map (λ req : LockRequest,
             {| QueueSnapshot.resourceId := entry.1;
                QueueSnapshot.type := type req;
                QueueSnapshot.sessionId := sessionId req;
                QueueSnapshot.waitingSince := toISOString (requestedAt req) |})
          (queue record)
  end.

Definition getLockQueue (w : World) : list QueueSnapshot.t * World :=
  let snapshots := locks w ≫= λ entry, recordQueue entry w in
  (sort (λ a b, localeCompare (QueueSnapshot.waitingSince a) (QueueSnapshot.waitingSince b))
        snapshots,
   w).
End snapshots.

(** [[...this.recentLogs].reverse()]: the spread makes a new array,
    [reverse] reverses its receiver in place and returns it. *)
Definition getRecentLogs (w : World) : nat * World :=
  let copy := fresh w in
  let w1 := set_fresh (S copy)
              (set_arrays <[copy := default [] (arrays w !! recentLogs w)]> w) in
  (copy, set_arrays (alter reverse copy) w1).

(** ** One turn of the event loop *)

Inductive step : World → World → Prop :=
  | step_acquireReadLock i r s w :
      step w (acquireReadLock i r s w)
  | step_acquireWriteLock i r s w :
      step w (acquireWriteLock i r s w)
  | step_releaseLock i r s w :
      step w (releaseLock i r s w)
  | step_forceUnlock i r w :
      step w (forceUnlock i r FromOutside w)
  | step_clearAll i w :
      step w (clearAll i w)
  | step_simulateReadLock i uuid r holdMs w :
      step w (simulateReadLock i uuid r holdMs w)
  | step_simulateWriteLock i uuid r holdMs w :
      step w (simulateWriteLock i uuid r holdMs w)
  | step_getRecentLogs w :
      step w (getRecentLogs w).2
  | step_timer i h t w :
      timers w !! h = Some t →
      (armedAt t + delay t ≤ now i)%Z →
      step w (fireTimer i h t w)
  | step_task i n t w :
      tasks w !! n = Some t →
      step w (runTask i t (set_tasks (delete n) w)).

Inductive reachable (e : ProcessEnv) : World → Prop :=
  | reachable_new : reachable e (newLockManager e)
  | reachable_step w w' : reachable e w → step w w' → reachable e w'.

(** ** Vocabulary of the proofs *)

(** How the promise of [ensureLogDir] ends for a [log] call made with input [i]. *)
Definition dirOutcome (i : Input) (w : World) : Outcome :=
  default (mkdir i) (ensureLogDirPromise w).

(** The tasks and events a settled [enqueue] promise gives rise to. *)
Definition simulateTasks (resourceId : string) (request : LockRequest) : list Task :=
  match awaiter request with
  | ByCaller => []
  | BySimulate holdMs => [TSimulate (type request) resourceId (sessionId request) holdMs]
  end.

Definition acquireEvents (resourceId : string) (request : LockRequest) (o : Outcome) : list Event :=
  Settled (Acquire resourceId request) o ::
  match awaiter request, o with
  | BySimulate _, Rejected e =>
      [Settled (Simulate (type request) resourceId (sessionId request)) (Rejected e)]
  | _, _ => []
  end.

Definition rejectEvents (resourceId : string) (error : LockRequest → string)
    (reqs : list LockRequest) : list Event :=
  reqs ≫= λ req, acquireEvents resourceId req (Rejected (error req)).


(** ** The invariant of the lock table *)

(** Never a writer together with readers. *)
Definition mutexOk (record : LockRecord) : Prop :=
  writer record = None ∨ readers record = [].

(** What holds of every world the event loop can reach: the table has one
    entry per resource id and one record per entry; a request is queued
    exactly as long as its timer is armed, in the record that its timer's
    callback captured, and that record is the one the table has for its
    resource; no request is queued twice; a record outside the table is
    empty. *)
Record Inv (w : World) : Prop := {
  inv_keys : NoDup (locks w).*1;
  inv_refs : NoDup (locks w).*2;
  inv_alloc : ∀ r l, (r, l) ∈ locks w → is_Some (heap w !! l);
  inv_heap_fresh : ∀ l, is_Some (heap w !! l) → l < fresh w;
  inv_timers_fresh : ∀ h, is_Some (timers w !! h) → h < fresh w;
  inv_recentLogs : recentLogs w < fresh w;
  inv_queued : ∀ l record req,
    heap w !! l = Some record → req ∈ queue record →
    ∃ r t, (r, l) ∈ locks w ∧ timers w !! timer req = Some t
           ∧ callback t = RequestTimeout l r req;
  inv_armed : ∀ h t l r req,
    timers w !! h = Some t → callback t = RequestTimeout l r req →
    timer req = h ∧ (r, l) ∈ locks w
    ∧ (∃ record, heap w !! l = Some record ∧ req ∈ queue record)
    ∧ armedAt t = requestedAt req ∧ delay t = timerDelay (LOCK_TIMEOUT_MS (processEnv w));
  inv_queue_nodup : ∀ l record, heap w !! l = Some record → NoDup (queue record);
  inv_mutex : ∀ l record, heap w !! l = Some record → mutexOk record;
  inv_readers : ∀ l record, heap w !! l = Some record → NoDup (readers record).*1;
  inv_detached : ∀ l record,
    heap w !! l = Some record → (∃ r, (r, l) ∈ locks w) ∨ record = emptyRecord;
}.

(** ** The scheduler's decision, as a function of the record

    [readPrefix] is the run of read requests at the front of a queue and
    [afterReads] what follows it; [admitReaders] enters granted readers in
    the reader map; [resolveAll] calls [resolve] on a run of requests. *)
Fixpoint readPrefix (q : list LockRequest) : list LockRequest :=
  match q with
  | [] => []
  | req :: q' =>
      match type req with
      | read => req :: readPrefix q'
      | write => []
      end
  end.

Fixpoint afterReads (q : list LockRequest) : list LockRequest :=
  match q with
  | [] => []
  | req :: q' =>
      match type req with
      | read => afterReads q'
      | write => q
      end
  end.

Definition admitReaders (t : Z) (granted : list LockRequest) (rd : list (string * Z)) :
    list (string * Z) :=
  foldl (λ rd' req, JsMap.set (sessionId req) t rd') rd granted.

Definition resolveAll (i : Input) (resourceId : string) (reqs : list LockRequest)
    (w : World) : World :=
  foldl (λ w' req, resolve i resourceId req w') w reqs.

(** The requests one scheduler pass grants, and the record it leaves. *)
Definition schedule (t : Z) (record : LockRecord) : list LockRequest * LockRecord :=
  match queue record, writer record with
  | [], _ => ([], record)
  | _ :: _, Some _ => ([], record)
  | next :: rest, None =>
      match type next with
      | write =>
          if decide (readers record = []) then
            ([next], {| readers := readers record;
                        writer := Some (sessionId next, t);
                        queue := rest |})
          else ([], record)
      | read =>
          (readPrefix (queue record),
           {| readers := admitReaders t (readPrefix (queue record)) (readers record);
              writer := None;
              queue := afterReads (queue record) |})
      end
  end.

(** The events and tasks that granting a run of requests gives rise to. *)
Definition grantedEvents (resourceId : string) (reqs : list LockRequest) : list Event :=
  map (λ req, Settled (Acquire resourceId req) Fulfilled) reqs.

Definition grantedTasks (i : Input) (resourceId : string) (dir : Outcome)
    (reqs : list LockRequest) : list Task :=
  reqs ≫= λ req,
    TLog (now i, acquiredMessage (type req) resourceId (sessionId req)) dir NotAwaited
    :: simulateTasks resourceId req.

(** ** Scheduling work that is still to come

    A record is settled when a scheduler pass would change nothing: it is
    not idle (so [cleanup] keeps it) and [schedule] grants nothing.  A
    [releaseLock] or a [forceUnlock] that has changed a record and is
    suspended at [await this.log(...)] has its rescheduling or clean-up
    still to come: it is a [TLog] task with that awaiter. *)
Definition settledRecord (record : LockRecord) : Prop :=
  isIdle record = false ∧ (schedule 0 record).1 = [].

Definition releasePending (resourceId : string) (w : World) : Prop :=
  ∃ line dir sid, TLog line dir (InReleaseLock resourceId sid) ∈ tasks w.

Definition forcePending (resourceId : string) (w : World) : Prop :=
  ∃ line dir caller, TLog line dir (InForceUnlock resourceId caller) ∈ tasks w.

Definition coveredAt (r : string) (w : World) : Prop :=
  ∀ l record, lookupRecord r w = Some (l, record) →
    settledRecord record ∨ releasePending r w
    ∨ (record = emptyRecord ∧ forcePending r w).

Definition Covered (w : World) : Prop := ∀ r, coveredAt r w.

(** Every [log] call in flight awaits the one promise of [ensureLogDir]. *)
Definition LogInv (w : World) : Prop :=
  ∀ line dir k, TLog line dir k ∈ tasks w → ensureLogDirPromise w = Some dir.

(** The log directory could be created, or nobody has tried yet. *)
Definition dirAvailable (w : World) : Prop :=
  ∀ e, ensureLogDirPromise w ≠ Some (Rejected e).

(** What a synchronous segment working on resource [r] may do to the rest:
    other resources keep their records, tasks are only added, the promise
    of [ensureLogDir] is kept once made. *)
Definition othersSame (r : string) (w w' : World) : Prop :=
  ∀ r', r' ≠ r → lookupRecord r' w' = lookupRecord r' w.

Definition extends (w w' : World) : Prop :=
  (∃ ts, tasks w' = tasks w ++ ts)
  ∧ (∀ p, ensureLogDirPromise w = Some p → ensureLogDirPromise w' = Some p)
  ∧ (LogInv w → LogInv w').

(** ** Example runs

    One process with the default configuration; every file-system call
    succeeds.  [ex_reader_then_writer]: a reader holds [R] and a writer and a
    reader wait behind it.  [ex_release_suspended]: a writer held [R] with
    two readers and a writer queued, and has called [releaseLock], which is
    suspended at its [await this.log(...)]. *)
Definition env0 : ProcessEnv :=
  {| env_LOCK_TIMEOUT_MS := None; env_LOCK_SIM_HOLD_MS := None |}.

Definition at_ (t : Z) : Input :=
  {| now := t; mkdir := Fulfilled; appendFile := Fulfilled |}.

Definition ex_reader : World := acquireReadLock (at_ 1) "R" "s1" (newLockManager env0).
Definition ex_reader_writer : World := acquireWriteLock (at_ 2) "R" "s2" ex_reader.
Definition ex_reader_then_writer : World := acquireReadLock (at_ 3) "R" "s3" ex_reader_writer.

Definition ex_writer : World := acquireWriteLock (at_ 1) "R" "s1" (newLockManager env0).
Definition ex_writer_r : World := acquireReadLock (at_ 2) "R" "s2" ex_writer.
Definition ex_writer_rr : World := acquireReadLock (at_ 3) "R" "s3" ex_writer_r.
Definition ex_writer_rrw : World := acquireWriteLock (at_ 4) "R" "s4" ex_writer_rr.
Definition ex_release_suspended : World := releaseLock (at_ 5) "R" "s1" ex_writer_rrw.

(** A simulated read on [R] while the writer [s1] holds it. *)
Definition ex_simulate_queued : World := simulateReadLock (at_ 2) "u1" "R" None ex_writer.

Definition ex_simulate_request : LockRequest :=
  {| type := read; sessionId := "sim-read-u1"; timer := 3;
     requestedAt := 2; awaiter := BySimulate (ms 15000) |}.

Definition ex_simulate_timer : Timer :=
  {| callback := RequestTimeout 1 "R" ex_simulate_request; armedAt := 2; delay := 5000 |}.

Definition request_of (t : LockType) (sid : string) (h : nat) (at_time : Z) : LockRequest :=
  {| type := t; sessionId := sid; timer := h; requestedAt := at_time; awaiter := ByCaller |}.

(** ** Statements *)

(** The contents of the in-memory log buffer. *)
Definition logBuffer (w : World) : list LogLine :=
  default [] (arrays w !! recentLogs w).

(** What the timer [h] of a queued request does when it fires in [w]: the
    request is in the queue of the record [l] that its resource [r] has in
    the table, once; the timer was armed when the request was made, with
    the delay that [setTimeout] makes of the configured one (5000 ms unless
    the environment says otherwise); the request is taken out and nothing
    else changes in that queue or in any other resource; the pending
    acquire is rejected with the time-out error naming mode and resource;
    the [TIMEOUT] line is handed to [log]; then [cleanup] and the scheduler
    run on the resource.  The [log] call is not awaited: when it resumes,
    with input [i'], in a process whose log directory is available, the
    line becomes the newest of the in-memory buffer. *)
Definition timeoutOutcome (e : ProcessEnv) (i i' : Input) (h : nat) (t : Timer) (l : nat)
    (r : string) (request : LockRequest) (w : World) : Prop :=
  let line := (now i, timeoutMessage (type request) r (sessionId request)) in
  let task := TLog line (dirOutcome i w) NotAwaited in
  let w' := fireTimer i h t w in
  let w2 := runTask i' task (set_tasks (delete (length (tasks w))) w') in
  ∃ record q1 q2 w1,
    lookupRecord r w = Some (l, record)
    ∧ queue record = q1 ++ request :: q2
    ∧ (request ∉ q1 ++ q2)
    ∧ delay t = timerDelay (LOCK_TIMEOUT_MS e)
    ∧ (env_LOCK_TIMEOUT_MS e = None → delay t = 5000%Z)
    ∧ armedAt t = requestedAt request
    ∧ lookupRecord r w1 =
        Some (l, {| readers := readers record; writer := writer record;
                    queue := q1 ++ q2 |})
    ∧ othersSame r w w1
    ∧ timers w1 = delete h (timers w)
    ∧ outbox w1 =
        outbox w ++ acquireEvents r request (Rejected (timeoutError (type request) r))
    ∧ tasks w1 = tasks w ++ [task]
    ∧ w' = processQueue i r (cleanup r w1)
    ∧ step w' w2
    ∧ (dirOutcome i w = Fulfilled → last (logBuffer w2) = Some line).

(** No active-lock or queue snapshot mentions the resource. *)
Definition absentFromSnapshots (localeCompare : string → string → Z) (r : string)
    (w : World) : Prop :=
  (∀ s, s ∈ (getActiveLocks localeCompare w).1 → ActiveLockSnapshot.resourceId s ≠ r)
  ∧ (∀ s, s ∈ (getLockQueue localeCompare w).1 → QueueSnapshot.resourceId s ≠ r).


(** A comparison of strings by code units, used where an example needs
    a [localeCompare]. *)
Definition codeUnitCompare (a b : string) : Z :=
  match String.compare a b with
  | Lt => (-1)%Z
  | Eq => 0%Z
  | Gt => 1%Z
  end.

(** The session has no reader entry, is not the writer and has no request
    queued on the resource. *)
Definition holdsNothing (r sid : string) (w : World) : Prop :=
  ∀ l record, lookupRecord r w = Some (l, record) →
    JsMap.get sid (readers record) = None
    ∧ fst <$> writer record ≠ Some sid
    ∧ ∀ req, req ∈ queue record → sessionId req ≠ sid.

(** Readers, writer and queue of every resource of the table. *)
Definition lockTable (w : World) : list (string * option LockRecord) :=
  (λ entry : string * nat, (entry.1, heap w !! entry.2)) <$> locks w.

(** What [releaseLock] does.  For a session that holds and queues nothing
    on the resource it ends in the same turn, without error, after a
    scheduler pass and a [cleanup] on the table as it is; these change
    nothing, so that the whole manager is as before, when the log directory
    is available and no [releaseLock] or [forceUnlock] of the resource is
    suspended at its audit write.  In general it takes the session out of
    the reader set and the writer slot and its requests out of the queue,
    rejecting them, and then, at once when nothing was released and after
    the audit write otherwise, runs the scheduler and [cleanup] and ends
    without error. *)
Definition releaseOutcome (i : Input) (r sid : string) (w : World) : Prop :=
  (holdsNothing r sid w →
   releaseLock i r sid w
   = settle (Release r sid) Fulfilled (cleanup r (processQueue i r w)))
  ∧ (holdsNothing r sid w →
     dirAvailable w → ¬ releasePending r w → ¬ forcePending r w →
     releaseLock i r sid w = settle (Release r sid) Fulfilled w)
  ∧ (∀ l record, lookupRecord r w = Some (l, record) →
     ∃ w1,
       lookupRecord r w1 =
         Some (l, {| readers := JsMap.delete sid (readers record);
                     writer := if bool_decide (fst <$> writer record = Some sid)
                               then None else writer record;
                     queue := filter (λ req, sessionId req ≠ sid) (queue record) |})
       ∧ othersSame r w w1
       ∧ outbox w1 =
           outbox w ++ rejectEvents r (λ _, cancelError sid)
                         (filter (λ req, sessionId req = sid) (queue record))
       ∧ releaseLock i r sid w =
           (if bool_decide (fst <$> writer record = Some sid)
               || JsMap.has sid (readers record)
            then log i (releasedMessage r sid) (InReleaseLock r sid) w1
            else settle (Release r sid) Fulfilled (cleanup r (processQueue i r w1)))
       ∧ ∀ i' w', logAwaiterResume i' (InReleaseLock r sid) Fulfilled w' =
                  settle (Release r sid) Fulfilled (cleanup r (processQueue i' r w'))).

(** ** Simulated locks: the order of grant and return

    [simulatedGrant t r sid holdMs evs]: among the events [evs] is the
    grant of a request of session [sid] for resource [r] in mode [t] that
    a simulate call awaits with hold time [holdMs].  [SimInv]: every
    simulate continuation waiting to run, and every session id already
    returned by a simulate call, has its grant before it.  [ResumeInv]:
    every request granted to a simulate call has the continuation of that
    call waiting to run, unless the call has returned. *)
Definition simulatedGrant (t : LockType) (r sid : string) (holdMs : JsNumber)
    (evs : list Event) : Prop :=
  ∃ req, Settled (Acquire r req) Fulfilled ∈ evs
         ∧ type req = t ∧ sessionId req = sid ∧ awaiter req = BySimulate holdMs.

Definition returnsAfterGrant (evs : list Event) : Prop :=
  ∀ pre post t r sid,
    evs = pre ++ Settled (Simulate t r sid) Fulfilled :: post →
    ∃ holdMs, simulatedGrant t r sid holdMs pre.

Definition SimInv (w : World) : Prop :=
  (∀ t r sid holdMs, TSimulate t r sid holdMs ∈ tasks w →
     simulatedGrant t r sid holdMs (outbox w))
  ∧ returnsAfterGrant (outbox w).

Definition ResumeInv (w : World) : Prop :=
  ∀ r req holdMs,
    Settled (Acquire r req) Fulfilled ∈ outbox w → awaiter req = BySimulate holdMs →
    TSimulate (type req) r (sessionId req) holdMs ∈ tasks w
    ∨ Settled (Simulate (type req) r (sessionId req)) Fulfilled ∈ outbox w.

(** A segment that returns no session id of a simulate call, and leaves a
    simulate continuation only for a request it has granted. *)
Definition simStep (w w' : World) : Prop :=
  ∃ evs ts,
    outbox w' = outbox w ++ evs ∧ tasks w' = tasks w ++ ts
    ∧ (∀ t r sid, Settled (Simulate t r sid) Fulfilled ∉ evs)
    ∧ (∀ t r sid holdMs, TSimulate t r sid holdMs ∈ ts →
         simulatedGrant t r sid holdMs (outbox w')).

(** A segment that leaves the continuation of the simulate call for every
    request it grants to one. *)
Definition resumeStep (w w' : World) : Prop :=
  ∃ evs ts,
    outbox w' = outbox w ++ evs ∧ tasks w' = tasks w ++ ts
    ∧ ∀ r req holdMs,
        Settled (Acquire r req) Fulfilled ∈ evs → awaiter req = BySimulate holdMs →
        TSimulate (type req) r (sessionId req) holdMs ∈ ts.

(** What a simulate call does.  Up to its [await] it is the acquire of a
    new session, queued and timed like any other, and no session id is
    returned.  Granting a request that a simulate call awaits leaves the
    continuation of the call to run, behind the [ACQUIRED] audit line.  The
    continuation, when the event loop runs it, arms the release timer with
    the delay that [setTimeout] makes of the hold time, which is the hold
    time when that is a whole number from 1 to [TIMEOUT_MAX], and returns
    the session id.  A rejected request rejects the call, which then
    returns no id and arms no timer.  In the world after the call, as in
    every reachable world, each session id returned so far was returned
    after its grant, and each granted simulate request has its continuation
    waiting unless the call has returned. *)
Definition simulateOutcome (e : ProcessEnv) (t : LockType) (i : Input) (uuid r : string)
    (holdMs : option JsNumber) (w : World) : Prop :=
  let sid := simulateSession t uuid in
  let hold := default (SIMULATED_HOLD_MS e) holdMs in
  let w' := simulateLock t i uuid r holdMs w in
  w' = enqueue i r sid t (LOCK_TIMEOUT_MS e) (BySimulate hold) w
  ∧ (∃ granted, outbox w' = outbox w ++ grantedEvents r granted)
  ∧ SimInv w'
  ∧ ResumeInv w'
  ∧ (∀ i' req w1, awaiter req = BySimulate hold →
       outbox (resolve i' r req w1) = outbox w1 ++ [Settled (Acquire r req) Fulfilled]
       ∧ tasks (resolve i' r req w1) =
           tasks w1
           ++ [TLog (now i', acquiredMessage (type req) r (sessionId req))
                 (dirOutcome i' w1) NotAwaited;
               TSimulate (type req) r (sessionId req) hold])
  ∧ (∀ i' n w1, tasks w1 !! n = Some (TSimulate t r sid hold) →
       let w2 := runTask i' (TSimulate t r sid hold) (set_tasks (delete n) w1) in
       step w1 w2
       ∧ timers w2 =
           <[fresh w1 := {| callback := SimulatedRelease r sid; armedAt := now i';
                            delay := timerDelay hold |}]> (timers w1)
       ∧ outbox w2 = outbox w1 ++ [Settled (Simulate t r sid) Fulfilled]
       ∧ tasks w2 = delete n (tasks w1))
  ∧ (∀ z, hold = ms z → (1 ≤ z ≤ TIMEOUT_MAX)%Z → timerDelay hold = z)
  ∧ (∀ req err w1, awaiter req = BySimulate hold →
       outbox (settleAcquire r req (Rejected err) w1) =
         outbox w1 ++ [Settled (Acquire r req) (Rejected err);
                       Settled (Simulate (type req) r (sessionId req)) (Rejected err)]
       ∧ tasks (settleAcquire r req (Rejected err) w1) = tasks w1
       ∧ timers (settleAcquire r req (Rejected err) w1) = timers w1).

(** ** A process that cannot create its log directory

    [fs.mkdir] fails (the working directory is read-only, say).  The writer
    [s1] takes [R], the reader [s2] queues behind it, [s1] releases, and the
    [log] call that [releaseLock] awaits ends. *)
Definition mkdirError : string := "EACCES: permission denied, mkdir 'logs'".

Definition failing_ (t : Z) : Input :=
  {| now := t; mkdir := Rejected mkdirError; appendFile := Fulfilled |}.

Definition ex_nodir_writer : World :=
  acquireWriteLock (failing_ 1) "R" "s1" (newLockManager env0).
Definition ex_nodir_queued : World := acquireReadLock (failing_ 2) "R" "s2" ex_nodir_writer.
Definition ex_nodir_release : World := releaseLock (failing_ 3) "R" "s1" ex_nodir_queued.
Definition ex_nodir_released : World :=
  runTask (failing_ 4)
    (TLog (3%Z, releasedMessage "R" "s1") (Rejected mkdirError) (InReleaseLock "R" "s1"))
    (set_tasks (delete 3) ex_nodir_release).

(** In the same process the request of [s2] times out instead, and the
    [log] call of the time-out callback ends. *)
Definition ex_nodir_timer : Timer :=
  {| callback := RequestTimeout 1 "R" (request_of read "s2" 3 2);
     armedAt := 2; delay := 5000 |}.

Definition ex_nodir_timeout : World := fireTimer (failing_ 5002) 3 ex_nodir_timer ex_nodir_queued.

Definition ex_nodir_timed_out : World :=
  runTask (failing_ 5003)
    (TLog (5002%Z, timeoutMessage read "R" "s2") (Rejected mkdirError) NotAwaited)
    (set_tasks (delete 3) ex_nodir_timeout).

(** ... or [R] is force-unlocked, and the [log] call that [forceUnlock]
    awaits ends. *)
Definition ex_nodir_force : World := forceUnlock (failing_ 3) "R" FromOutside ex_nodir_queued.

Definition ex_nodir_forced : World :=
  runTask (failing_ 4)
    (TLog (3%Z, forceUnlockMessage "R" ["s1"]) (Rejected mkdirError)
       (InForceUnlock "R" FromOutside))
    (set_tasks (delete 3) ex_nodir_force).

(** The same runs in a process that can create the directory. *)
Definition ex_dir_timed_out : World :=
  runTask (at_ 5003)
    (TLog (5002%Z, timeoutMessage read "R" "s2") Fulfilled NotAwaited)
    (set_tasks (delete 3) (fireTimer (at_ 5002) 3 ex_nodir_timer ex_writer_r)).

Definition ex_dir_forced : World :=
  runTask (at_ 4)
    (TLog (3%Z, forceUnlockMessage "R" ["s1"]) Fulfilled (InForceUnlock "R" FromOutside))
    (set_tasks (delete 3) (forceUnlock (at_ 3) "R" FromOutside ex_writer_r)).

Definition ex_dir_released : World :=
  runTask (at_ 4)
    (TLog (3%Z, releasedMessage "R" "s1") Fulfilled (InReleaseLock "R" "s1"))
    (set_tasks (delete 3) (releaseLock (at_ 3) "R" "s1" ex_writer_r)).

(** The only holder of [R] has called [releaseLock], which is suspended at
    its audit write. *)
Definition ex_sole_release : World := releaseLock (at_ 2) "R" "s1" ex_writer.

(** What holds of the table entries of a world: a record that has a
    reader, a writer or a queued request is in the table; and, when the log
    directory is available, a table entry has a record, and the record has
    a reader, a writer or a queued request unless a [releaseLock] or
    [forceUnlock] of its resource is suspended at its audit write; so when
    none is suspended, a resource has an entry exactly when it has a reader,
    a writer or a queued request. *)
Definition entriesOutcome (w : World) : Prop :=
  (∀ l record, heap w !! l = Some record → isIdle record = false →
     ∃ r, JsMap.get r (locks w) = Some l)
  ∧ (dirAvailable w →
     (∀ r l, JsMap.get r (locks w) = Some l →
        ∃ record, heap w !! l = Some record
                  ∧ (isIdle record = false ∨ releasePending r w ∨ forcePending r w))
     ∧ ((∀ r, ¬ releasePending r w ∧ ¬ forcePending r w) →
        ∀ r, is_Some (JsMap.get r (locks w))
             ↔ ∃ l record, lookupRecord r w = Some (l, record) ∧ isIdle record = false)).

(** ** Snapshot queries in any number and order *)
Inductive Query :=
  | QActiveLocks (localeCompare : string → string → Z)
  | QLockQueue (localeCompare : string → string → Z)
  | QRecentLogs.

Definition runQuery (w : World) (q : Query) : World :=
  match q with
  | QActiveLocks localeCompare => (getActiveLocks localeCompare w).2
  | QLockQueue localeCompare => (getLockQueue localeCompare w).2
  | QRecentLogs => (getRecentLogs w).2
  end.

(** The manager is the same in both worlds: table, records, timers,
    suspended work, settled promises, and the log buffer with its contents;
    arrays that existed are untouched. *)
Definition sameManager (w w' : World) : Prop :=
  processEnv w' = processEnv w ∧ locks w' = locks w ∧ heap w' = heap w
  ∧ recentLogs w' = recentLogs w ∧ logBuffer w' = logBuffer w
  ∧ ensureLogDirPromise w' = ensureLogDirPromise w ∧ timers w' = timers w
  ∧ tasks w' = tasks w ∧ outbox w' = outbox w
  ∧ ∀ a, a < fresh w → arrays w' !! a = arrays w !! a.

Definition queriesOutcome (w : World) : Prop :=
  (∀ qs, sameManager w (foldl runQuery w qs))
  ∧ (∀ localeCompare, (getActiveLocks localeCompare w).2 = w)
  ∧ (∀ localeCompare, (getLockQueue localeCompare w).2 = w)
  ∧ (getRecentLogs w).1 ≠ recentLogs w
  ∧ arrays (getRecentLogs w).2 !! (getRecentLogs w).1 = Some (reverse (logBuffer w))
  ∧ ∀ contents,
      logBuffer (set_arrays <[(getRecentLogs w).1 := contents]> (getRecentLogs w).2)
      = logBuffer w.

(** * Further properties: definitions *)

(** ** The ledger of acquire promises

    Every call of [enqueue] makes one request and one promise.  The
    requests still waiting are those in the queues of the table; the
    promises already settled are those with an event in the outbox. *)
Definition recordRequests (entry : string * nat) (w : World) : list (string * LockRequest) :=
  match heap w !! entry.2 with
  | Some record => (λ req, (entry.1, req)) <$> queue record
  | None => []
  end.

Definition queuedRequests (w : World) : list (string * LockRequest) :=
  locks w ≫= λ entry, recordRequests entry w.

Definition settledRequests (evs : list Event) : list (string * LockRequest) :=
  evs ≫= λ ev,
    match ev with
    | Settled (Acquire r req) _ => [(r, req)]
    | Settled _ _ => []
    end.

Definition ledger (w : World) : list (string * LockRequest) :=
  queuedRequests w ++ settledRequests (outbox w).

(** What one segment does to the ledger: the requests it makes are new,
    with timer handles the world had not handed out, and nothing else comes
    or goes. *)
Definition ledgerStep (w w' : World) : Prop :=
  fresh w ≤ fresh w'
  ∧ ∃ new, ledger w' ≡ₚ new ++ ledger w
           ∧ NoDup new
           ∧ ∀ p, p ∈ new → fresh w ≤ timer p.2 < fresh w'.

Definition LedgerInv (w : World) : Prop :=
  NoDup (ledger w) ∧ ∀ p, p ∈ ledger w → timer p.2 < fresh w.

(** ** An acquire, in closed form

    [pushRequest] is [record.queue.push(request)]; [requestTimer] is the
    timer that [enqueue] arms for a request. *)
Definition pushRequest (request : LockRequest) (record : LockRecord) : LockRecord :=
  {| readers := readers record; writer := writer record;
     queue := queue record ++ [request] |}.

Definition requestTimer (e : ProcessEnv) (l : nat) (resourceId : string)
    (request : LockRequest) : Timer :=
  {| callback := RequestTimeout l resourceId request;
     armedAt := requestedAt request; delay := timerDelay (LOCK_TIMEOUT_MS e) |}.

(** The readers a resource has: those of its record, none without one. *)
Definition readersOf (resourceId : string) (w : World) : list (string * Z) :=
  match lookupRecord resourceId w with
  | Some (_, record) => readers record
  | None => []
  end.

(** The resource has no writer and nobody waiting. *)
Definition uncontended (resourceId : string) (w : World) : Prop :=
  ∀ l record, lookupRecord resourceId w = Some (l, record) →
    writer record = None ∧ queue record = [].

(** A request of mode [t] arriving at the record has to wait: a writer
    holds the resource, or readers hold it and the request is a write or
    comes behind a waiting write. *)
Definition mustWait (t : LockType) (record : LockRecord) : Prop :=
  writer record ≠ None
  ∨ (readers record ≠ []
     ∧ match queue record with
       | [] => t = write
       | next :: _ => type next = write
       end).

(** ** A release, in closed form

    [withoutSession] is what [releaseLock] leaves of a record before it
    reschedules: the session is out of the reader set, the writer slot and
    the queue.  [holds] is its [released] flag: the session was the writer
    or a reader.  [recordFree]: the session is in none of the three. *)
Definition withoutSession (sid : string) (record : LockRecord) : LockRecord :=
  {| readers := JsMap.delete sid (readers record);
     writer := if bool_decide (fst <$> writer record = Some sid) then None else writer record;
     queue := filter (λ req, sessionId req ≠ sid) (queue record) |}.

Definition holds (sid : string) (record : LockRecord) : bool :=
  bool_decide (fst <$> writer record = Some sid) || JsMap.has sid (readers record).

Definition recordFree (sid : string) (record : LockRecord) : Prop :=
  JsMap.get sid (readers record) = None
  ∧ fst <$> writer record ≠ Some sid
  ∧ ∀ req, req ∈ queue record → sessionId req ≠ sid.

(** ** The order of a queue

    [queueOf] is the queue of a resource, empty when the resource has no
    record.  [orderStep]: what a segment does to the queues; each is, after
    the segment, a part of what it was, in the same order, with the requests
    made in the segment behind.  [before q a b]: [a] comes before [b] in [q]. *)
Definition queueOf (resourceId : string) (w : World) : list LockRequest :=
  match lookupRecord resourceId w with
  | Some (_, record) => queue record
  | None => []
  end.

Definition orderStep (w w' : World) : Prop :=
  fresh w ≤ fresh w'
  ∧ ∀ r, ∃ new, queueOf r w' `sublist_of` queueOf r w ++ new
                ∧ ∀ req, req ∈ new → fresh w ≤ timer req.

Definition before (q : list LockRequest) (a b : LockRequest) : Prop :=
  ∃ q1 q2 q3, q = q1 ++ a :: q2 ++ b :: q3.

(** ** The log buffer as a ring

    [ringPush] is what [log] does to the contents of [recentLogs] when it
    completes: [push], and [shift] when that made the buffer too long.
    [sameBuffer]: the buffer is the same array with the same contents. *)
Definition ringPush (line : LogLine) (buf : list LogLine) : list LogLine :=
  if decide (MAX_LOG_ENTRIES < length (buf ++ [line])) then tail (buf ++ [line])
  else buf ++ [line].

Definition sameBuffer (w w' : World) : Prop :=
  recentLogs w' = recentLogs w ∧ logBuffer w' = logBuffer w.

(** ** Snapshots

    [heldBefore] is the order of an active-lock snapshot: by the start of
    the hold, as [localeCompare] orders the ISO strings, then by resource
    id.  [waitingBefore] is the order of a queue snapshot.  [queueSnapshot]
    is the entry that [getLockQueue] makes for a queued request. *)
Definition heldBefore (localeCompare : string → string → Z)
    (a b : ActiveLockSnapshot.t) : Prop :=
  (localeCompare (ActiveLockSnapshot.heldSince a) (ActiveLockSnapshot.heldSince b) < 0)%Z
  ∨ (localeCompare (ActiveLockSnapshot.heldSince a) (ActiveLockSnapshot.heldSince b) = 0%Z
     ∧ (localeCompare (ActiveLockSnapshot.resourceId a)
                      (ActiveLockSnapshot.resourceId b) ≤ 0)%Z).

Definition waitingBefore (localeCompare : string → string → Z)
    (a b : QueueSnapshot.t) : Prop :=
  (localeCompare (QueueSnapshot.waitingSince a) (QueueSnapshot.waitingSince b) ≤ 0)%Z.

Definition queueSnapshot (p : string * LockRequest) : QueueSnapshot.t :=
  {| QueueSnapshot.resourceId := p.1;
     QueueSnapshot.type := type p.2;
     QueueSnapshot.sessionId := sessionId p.2;
     QueueSnapshot.waitingSince := toISOString (requestedAt p.2) |}.

(** A consistent comparator, as [Array.prototype.sort] needs one: comparing
    the other way round gives the opposite sign, and the order is
    transitive. *)
Definition consistentComparator {A : Type} (cmp : A → A → Z) : Prop :=
  (∀ a b, Z.sgn (cmp b a) = (- Z.sgn (cmp a b))%Z)
  ∧ (∀ a b c, (cmp a b ≤ 0)%Z → (cmp b c ≤ 0)%Z → (cmp a c ≤ 0)%Z).

(** The snapshot entry says what the record holds: for a write entry the
    writer slot, for a read entry one of the readers, with the start of
    the hold as an ISO string. *)
Definition snapshotOf (s : ActiveLockSnapshot.t) (record : LockRecord) : Prop :=
  ∃ since,
    ActiveLockSnapshot.heldSince s = toISOString since
    ∧ match ActiveLockSnapshot.type s with
      | write => writer record = Some (ActiveLockSnapshot.sessionId s, since)
      | read => (ActiveLockSnapshot.sessionId s, since) ∈ readers record
      end.

(** ** The lock routes

    The handlers of [/status], [/queue] and [/force-unlock] in the router
    that serves the manager over HTTP.  A handler is a function of the
    clock, the request and the world; what it passes to [res.json] is its
    result. *)
Module Summary.
Record t := {
    total : nat;
    readers : nat;
    writers : nat;
    resources : nat;
    lastUpdated : string;
  }.
End Summary.

Module StatusBody.
Record t := {
    locks : list ActiveLockSnapshot.t;
    logs : list LogLine;
    summary : Summary.t;
  }.
End StatusBody.

Module QueueBody.
Record t := {
    queue : list QueueSnapshot.t;
    summary : Summary.t;
  }.
End QueueBody.

(** [new Set(ids).size] *)
Definition distinct (ids : list string) : nat :=
  size (list_to_set ids : gset string).

(** [router.get("/status")] *)
Definition statusRoute (localeCompare : string → string → Z) (i : Input) (w : World) :
    StatusBody.t * World :=
  let '(locks, w1) := getActiveLocks localeCompare w in
  let summary :=
    {| Summary.total := length locks;
       Summary.readers :=
         length (filter (λ lock, ActiveLockSnapshot.type lock = read) locks);
       Summary.writers :=
         length (filter (λ lock, ActiveLockSnapshot.type lock = write) locks);
       Summary.resources := distinct (ActiveLockSnapshot.resourceId <$> locks);
       Summary.lastUpdated := toISOString (now i) |} in
  let '(logs, w2) := getRecentLogs w1 in
  ({| StatusBody.locks := locks;
      StatusBody.logs := default [] (arrays w2 !! logs);
      StatusBody.summary := summary |}, w2).

(** [router.get("/queue")] *)
Definition queueRoute (localeCompare : string → string → Z) (i : Input) (w : World) :
    QueueBody.t * World :=
  let '(queue, w1) := getLockQueue localeCompare w in
  let summary :=
    {| Summary.total := length queue;
       Summary.readers := length (filter (λ entry, QueueSnapshot.type entry = read) queue);
       Summary.writers := length (filter (λ entry, QueueSnapshot.type entry = write) queue);
       Summary.resources := distinct (QueueSnapshot.resourceId <$> queue);
       Summary.lastUpdated := toISOString (now i) |} in
  ({| QueueBody.queue := queue; QueueBody.summary := summary |}, w1).

(** What [req.body] has under [resourceId], as far as [/force-unlock]
    looks at it: nothing or a value that is not a string, or a string. *)
Inductive BodyField :=
  | NotAString
  | AString (s : string).

(** What a handler answers at once, if it does. *)
Inductive Reply :=
  | BadRequest (message : string)
  | Pending.

(** [router.post("/force-unlock")] up to [await lockManager.forceUnlock]. *)
Definition forceUnlockRoute (i : Input) (resourceId : BodyField) (w : World) : Reply * World :=
  match resourceId with
  | AString s =>
      if decide (s = "") then (BadRequest "resourceId is required", w)
      else (Pending, forceUnlock i s FromOutside w)
  | NotAString => (BadRequest "resourceId is required", w)
  end.

(** ** Running a call to its end

    [runLast] is the turn of the event loop that resumes the continuation
    suspended last; [runLasts] is a run of such turns, one for each input.
    A call whose continuations are resumed this way runs to its end with
    no other call in between. *)
Definition runLast (i : Input) (w : World) : World :=
  match last (tasks w) with
  | Some t => runTask i t (set_tasks (delete (length (tasks w) - 1)) w)
  | None => w
  end.

Definition runLasts (inputs : list Input) (w : World) : World :=
  foldl (λ w0 i, runLast i w0) w inputs.

(** ** More example runs

    [ex_simulate_granted]: a simulated write on an idle [R] is granted at
    once.  [ex_simulated]: its continuation has run, so the release timer is
    armed.  [ex_timed_out]: in [ex_reader_then_writer] the waiting writer has
    timed out. *)
Definition ex_simulate_granted : World :=
  simulateWriteLock (at_ 1) "u1" "R" None (newLockManager env0).

Definition ex_simulated : World :=
  runTask (at_ 2) (TSimulate write "R" "sim-write-u1" (ms 15000))
    (set_tasks (delete 2) ex_simulate_granted).

Definition ex_release_timer : Timer :=
  {| callback := SimulatedRelease "R" "sim-write-u1"; armedAt := 2; delay := 15000 |}.

Definition ex_writer_timer : Timer :=
  {| callback := RequestTimeout 1 "R" (request_of write "s2" 3 2);
     armedAt := 2; delay := 5000 |}.

Definition ex_timed_out : World :=
  fireTimer (at_ 6000) 3 ex_writer_timer ex_reader_then_writer.

Definition ex_reader_record : LockRecord :=
  {| readers := [("s1", 1%Z)]; writer := None;
     queue := [request_of write "s2" 3 2; request_of read "s3" 4 3] |}.

Definition ex_writer_record : LockRecord :=
  {| readers := []; writer := Some ("s1", 1%Z);
     queue := [request_of read "s2" 3 2; request_of read "s3" 4 3;
               request_of write "s4" 5 4] |}.

(** * Proofs *)

(** ** [JsMap] *)

Section JsMap_facts.
Context {V : Type}.
Implicit Types (m : list (string * V)) (k : string) (v : V).

Lemma JsMap_get_Some_elem_of k v m : JsMap.get k m = Some v → (k, v) ∈ m.
Proof.
    induction m as [|[k' v'] m IH]; simpl; [done|].
    case_decide; intros ?; simplify_eq; [left | right; auto].
Qed.

Lemma JsMap_get_None k m : JsMap.get k m = None ↔ k ∉ m.*1.
Proof.
    induction m as [|[k' v'] m IH]; simpl.
    - split; [intros _; apply not_elem_of_nil | done].
    - rewrite not_elem_of_cons. case_decide; simplify_eq.
      + split; [done | intros [? _]; done].
      + rewrite IH. naive_solver.
Qed.

Lemma JsMap_elem_of_get k v m : NoDup m.*1 → (k, v) ∈ m → JsMap.get k m = Some v.
Proof.
    induction m as [|[k' v'] m IH]; simpl; intros Hnd Hin.
    - by apply elem_of_nil in Hin.
    - apply NoDup_cons in Hnd as [Hk Hnd]. apply elem_of_cons in Hin as [Heq|Hin].
      + injection Heq as -> ->. by case_decide.
      + destruct (decide (k' = k)) as [->|]; [|by apply IH].
        exfalso. apply Hk. apply list_elem_of_fmap. by exists (k, v).
Qed.

Lemma JsMap_get_is_Some k m : is_Some (JsMap.get k m) ↔ k ∈ m.*1.
Proof.
    destruct (JsMap.get k m) eqn:E.
    - split; [intros _|eauto]. apply JsMap_get_Some_elem_of in E.
      apply list_elem_of_fmap. by eexists (_, _).
    - split; [intros [? ?]; done|]. intros Hin. by apply JsMap_get_None in E.
Qed.

Lemma JsMap_set_absent k v m : JsMap.get k m = None → JsMap.set k v m = m ++ [(k, v)].
Proof.
    induction m as [|[k' v'] m IH]; simpl; [done|].
    case_decide; [done|]. intros ?. by rewrite IH.
Qed.

Lemma JsMap_set_keys k v m :
  (JsMap.set k v m).*1 = if decide (k ∈ m.*1) then m.*1 else m.*1 ++ [k].
Proof.
  induction m as [|[k' v'] m IH]; csimpl; [done|].
  destruct (decide (k' = k)) as [->|Hne]; csimpl.
  - destruct (decide (k ∈ k :: m.*1)) as [Hin|Hin]; [done|].
    exfalso. apply Hin. left.
  - rewrite IH. destruct (decide (k ∈ m.*1)) as [Hin|Hin].
    + destruct (decide (k ∈ k' :: m.*1)) as [Hin'|Hin']; [done|].
      exfalso. apply Hin'. by right.
    + destruct (decide (k ∈ k' :: m.*1)) as [Hin'|Hin']; [|done].
      apply elem_of_cons in Hin' as [?|?]; by simplify_eq.
Qed.

Lemma JsMap_set_NoDup k v m : NoDup m.*1 → NoDup (JsMap.set k v m).*1.
Proof.
    intros Hnd. rewrite JsMap_set_keys. case_decide; [done|].
    apply NoDup_app. split_and!; [done| |apply NoDup_singleton].
    intros x Hx Hx'. apply list_elem_of_singleton in Hx'. by subst.
Qed.

Lemma JsMap_set_nonempty k v m : JsMap.set k v m ≠ [].
Proof. destruct m as [|[k' v'] m]; simpl; [done|]. by case_decide. Qed.

Lemma JsMap_delete_NoDup k m : NoDup m.*1 → NoDup (JsMap.delete k m).*1.
Proof.
  intros Hnd. apply (sublist_NoDup _ (m.*1)); [done|].
  unfold JsMap.delete. apply fmap_sublist, sublist_filter.
Qed.

Lemma JsMap_elem_of_delete k k' v m :
  (k', v) ∈ JsMap.delete k m ↔ k' ≠ k ∧ (k', v) ∈ m.
Proof. unfold JsMap.delete. by rewrite list_elem_of_filter. Qed.

Lemma JsMap_get_delete k k' m :
  JsMap.get k' (JsMap.delete k m) = if decide (k' = k) then None else JsMap.get k' m.
Proof.
  unfold JsMap.delete. induction m as [|[k0 v0] m IH]; csimpl.
  - by destruct (decide (k' = k)).
  - rewrite filter_cons. csimpl. destruct (decide (k0 ≠ k)) as [Hne|Heq]; csimpl.
    + destruct (decide (k0 = k')) as [->|]; [|done].
      by destruct (decide (k' = k)).
    + apply dec_stable in Heq. subst k0. rewrite IH.
      destruct (decide (k' = k)) as [->|]; [done|].
      by destruct (decide (k = k')).
Qed.

Lemma JsMap_delete_absent k m : JsMap.get k m = None → JsMap.delete k m = m.
Proof.
  unfold JsMap.delete. induction m as [|[k0 v0] m IH]; csimpl; [done|].
  destruct (decide (k0 = k)); [done|]. intros ?.
  rewrite filter_cons, decide_True by done. by rewrite IH.
Qed.

Lemma JsMap_has_true k m : JsMap.has k m = true ↔ k ∈ m.*1.
Proof. unfold JsMap.has. rewrite bool_decide_eq_true. apply JsMap_get_is_Some. Qed.

Lemma JsMap_has_false k m : JsMap.has k m = false ↔ JsMap.get k m = None.
Proof.
  unfold JsMap.has. rewrite bool_decide_eq_false, <- eq_None_not_Some. done.
Qed.
End JsMap_facts.

(** ** Timer delays and time stamps *)

(** A delay is kept when it is a number from 1 to [TIMEOUT_MAX], in whole
    milliseconds; zero, a negative number, a number above the maximum,
    an infinity and [NaN] all give 1. *)
Example timerDelay_examples :
  timerDelay (ms 5000) = 5000%Z
  ∧ timerDelay (Finite (5 # 2)) = 2%Z
  ∧ timerDelay (ms TIMEOUT_MAX) = TIMEOUT_MAX
  ∧ timerDelay (ms 0) = 1%Z
  ∧ timerDelay (ms (-5000)) = 1%Z
  ∧ timerDelay (Finite (1 # 2)) = 1%Z
  ∧ timerDelay (ms (TIMEOUT_MAX + 1)) = 1%Z
  ∧ timerDelay (Infinity false) = 1%Z
  ∧ timerDelay NaN = 1%Z.
Proof. vm_compute. done. Qed.

Example toISOString_examples :
  toISOString 0 = "1970-01-01T00:00:00.000Z"
  ∧ toISOString (-1) = "1969-12-31T23:59:59.999Z"
  ∧ toISOString 951782400000 = "2000-02-29T00:00:00.000Z"
  ∧ toISOString 1700000000123 = "2023-11-14T22:13:20.123Z"
  ∧ toISOString 253402300799999 = "9999-12-31T23:59:59.999Z"
  ∧ toISOString 253402300800000 = "+010000-01-01T00:00:00.000Z"
  ∧ toISOString (-62167219200001) = "-000001-12-31T23:59:59.999Z"
  ∧ toISOString 8640000000000000 = "+275760-09-13T00:00:00.000Z".
Proof. vm_compute. done. Qed.

(** ** What each primitive leaves alone *)

Ltac unfold_prims :=
  unfold resolve, reject, settleAcquire, settle, log, ensureLogDir, clearTimeout, emit,
    set_tasks, set_timers, set_heap, set_locks, set_fresh, set_arrays,
    set_ensureLogDirPromise in *.

Ltac solve_proj :=
  intros; unfold_prims;
  repeat match goal with w : World |- _ => destruct w end;
  simpl in *; repeat (case_match; simplify_eq; simpl in *);
  rewrite <- ?(assoc_L (++)); done.

Lemma log_processEnv i m k w : processEnv (log i m k w) = processEnv w.
Proof. solve_proj. Qed.
Lemma log_locks i m k w : locks (log i m k w) = locks w.
Proof. solve_proj. Qed.
Lemma log_heap i m k w : heap (log i m k w) = heap w.
Proof. solve_proj. Qed.
Lemma log_recentLogs i m k w : recentLogs (log i m k w) = recentLogs w.
Proof. solve_proj. Qed.
Lemma log_arrays i m k w : arrays (log i m k w) = arrays w.
Proof. solve_proj. Qed.
Lemma log_timers i m k w : timers (log i m k w) = timers w.
Proof. solve_proj. Qed.
Lemma log_fresh i m k w : fresh (log i m k w) = fresh w.
Proof. solve_proj. Qed.
Lemma log_outbox i m k w : outbox (log i m k w) = outbox w.
Proof. solve_proj. Qed.
Lemma log_tasks i m k w :
  tasks (log i m k w) = tasks w ++ [TLog (now i, m) (dirOutcome i w) k].
Proof. unfold dirOutcome. solve_proj. Qed.
Lemma log_ensureLogDirPromise i m k w :
  ensureLogDirPromise (log i m k w) = Some (dirOutcome i w).
Proof. unfold dirOutcome. solve_proj. Qed.

Lemma dirOutcome_log i i' m k w : dirOutcome i' (log i m k w) = dirOutcome i w.
Proof. unfold dirOutcome at 1. by rewrite log_ensureLogDirPromise. Qed.

Lemma resolve_processEnv i r q w : processEnv (resolve i r q w) = processEnv w.
Proof. solve_proj. Qed.
Lemma resolve_locks i r q w : locks (resolve i r q w) = locks w.
Proof. solve_proj. Qed.
Lemma resolve_heap i r q w : heap (resolve i r q w) = heap w.
Proof. solve_proj. Qed.
Lemma resolve_recentLogs i r q w : recentLogs (resolve i r q w) = recentLogs w.
Proof. solve_proj. Qed.
Lemma resolve_arrays i r q w : arrays (resolve i r q w) = arrays w.
Proof. solve_proj. Qed.
Lemma resolve_fresh i r q w : fresh (resolve i r q w) = fresh w.
Proof. solve_proj. Qed.
Lemma resolve_timers i r q w : timers (resolve i r q w) = delete (timer q) (timers w).
Proof. solve_proj. Qed.
Lemma resolve_outbox i r q w :
  outbox (resolve i r q w) = outbox w ++ [Settled (Acquire r q) Fulfilled].
Proof. solve_proj. Qed.
Lemma resolve_ensureLogDirPromise i r q w :
  ensureLogDirPromise (resolve i r q w) = Some (dirOutcome i w).
Proof. unfold dirOutcome. solve_proj. Qed.
Lemma resolve_tasks i r q w :
  tasks (resolve i r q w) =
  tasks w ++ TLog (now i, acquiredMessage (type q) r (sessionId q))
               (dirOutcome i w) NotAwaited :: simulateTasks r q.
Proof.
  unfold dirOutcome, simulateTasks. solve_proj.
Qed.

Lemma reject_processEnv r q e w : processEnv (reject r q e w) = processEnv w.
Proof. solve_proj. Qed.
Lemma reject_locks r q e w : locks (reject r q e w) = locks w.
Proof. solve_proj. Qed.
Lemma reject_heap r q e w : heap (reject r q e w) = heap w.
Proof. solve_proj. Qed.
Lemma reject_recentLogs r q e w : recentLogs (reject r q e w) = recentLogs w.
Proof. solve_proj. Qed.
Lemma reject_arrays r q e w : arrays (reject r q e w) = arrays w.
Proof. solve_proj. Qed.
Lemma reject_fresh r q e w : fresh (reject r q e w) = fresh w.
Proof. solve_proj. Qed.
Lemma reject_tasks r q e w : tasks (reject r q e w) = tasks w.
Proof. solve_proj. Qed.
Lemma reject_ensureLogDirPromise r q e w :
  ensureLogDirPromise (reject r q e w) = ensureLogDirPromise w.
Proof. solve_proj. Qed.
Lemma reject_timers r q e w : timers (reject r q e w) = delete (timer q) (timers w).
Proof. solve_proj. Qed.
Lemma reject_outbox r q e w :
  outbox (reject r q e w) = outbox w ++ acquireEvents r q (Rejected e).
Proof.
  unfold acquireEvents. solve_proj.
Qed.

Lemma settleAcquire_rejected_core r q e w :
  let w' := settleAcquire r q (Rejected e) w in
  processEnv w' = processEnv w ∧ locks w' = locks w ∧ heap w' = heap w ∧
  recentLogs w' = recentLogs w ∧ arrays w' = arrays w ∧ fresh w' = fresh w ∧
  timers w' = timers w ∧ tasks w' = tasks w ∧
  ensureLogDirPromise w' = ensureLogDirPromise w ∧
  outbox w' = outbox w ++ acquireEvents r q (Rejected e).
Proof.
  unfold acquireEvents. solve_proj.
Qed.

Lemma rejectAll_nil r err w : rejectAll r err [] w = w.
Proof. done. Qed.
Lemma rejectAll_cons r err q qs w :
  rejectAll r err (q :: qs) w = rejectAll r err qs (reject r q (err q) w).
Proof. done. Qed.

Lemma rejectAll_core r err qs w :
  let w' := rejectAll r err qs w in
  processEnv w' = processEnv w ∧ locks w' = locks w ∧ heap w' = heap w ∧
  recentLogs w' = recentLogs w ∧ arrays w' = arrays w ∧ fresh w' = fresh w ∧
  tasks w' = tasks w ∧ ensureLogDirPromise w' = ensureLogDirPromise w ∧
  outbox w' = outbox w ++ rejectEvents r err qs ∧
  ∀ h, timers w' !! h = if decide (h ∈ timer <$> qs) then None else timers w !! h.
Proof.
  revert w. induction qs as [|q qs IH]; intros w; cbv zeta.
  - simpl. rewrite app_nil_r. by split_and!.
  - rewrite rejectAll_cons. destruct (IH (reject r q (err q) w)) as (?&?&?&?&?&?&?&?&Ho&Ht).
    rewrite reject_processEnv, reject_locks, reject_heap, reject_recentLogs, reject_arrays,
      reject_fresh, reject_tasks, reject_ensureLogDirPromise in *.
    split_and!; try done.
    + rewrite Ho, reject_outbox. unfold rejectEvents. csimpl. by rewrite <- (assoc_L (++)).
    + intros h. rewrite Ht, reject_timers. csimpl.
      destruct (decide (h ∈ timer <$> qs)) as [Hin|Hin].
      * by rewrite decide_True by (by right).
      * destruct (decide (h = timer q)) as [->|Hne].
        -- rewrite decide_True by left. apply lookup_delete_eq.
        -- rewrite decide_False by (rewrite not_elem_of_cons; done).
           by apply lookup_delete_ne.
Qed.

(** ** The invariant: basic preservation lemmas *)

Lemma Inv_new e : Inv (newLockManager e).
Proof.
  constructor; simpl; unfold JsMap.clear; intros;
    try match goal with H : _ ∈ [] |- _ => by apply elem_of_nil in H end;
    try match goal with H : is_Some (∅ !! _) |- _ => rewrite lookup_empty in H; by destruct H end;
    try match goal with H : ∅ !! _ = Some _ |- _ => by rewrite lookup_empty in H end;
    try (by constructor); try lia.
Qed.

Lemma Inv_ext w w' :
  processEnv w' = processEnv w → locks w' = locks w → heap w' = heap w →
  timers w' = timers w → fresh w' = fresh w → recentLogs w' = recentLogs w →
  Inv w → Inv w'.
Proof.
  intros He Hl Hh Ht Hf Hr [].
  constructor; rewrite ?He, ?Hl, ?Hh, ?Ht, ?Hf, ?Hr; done.
Qed.

Lemma lookupRecord_Some r w l record :
  lookupRecord r w = Some (l, record) ↔
  JsMap.get r (locks w) = Some l ∧ heap w !! l = Some record.
Proof.
  unfold lookupRecord. destruct (JsMap.get r (locks w)) as [l'|]; [|naive_solver].
  destruct (heap w !! l') eqn:E; naive_solver.
Qed.

Lemma lookupRecord_elem_of r w l record :
  Inv w → lookupRecord r w = Some (l, record) ↔ (r, l) ∈ locks w ∧ heap w !! l = Some record.
Proof.
  intros HI. rewrite lookupRecord_Some. split; intros [H1 H2]; split; try done.
  - by apply JsMap_get_Some_elem_of.
  - apply JsMap_elem_of_get; [apply HI | done].
Qed.

Lemma lookupRecord_None r w :
  Inv w → lookupRecord r w = None ↔ JsMap.get r (locks w) = None.
Proof.
  intros HI. unfold lookupRecord. destruct (JsMap.get r (locks w)) as [l|] eqn:E; [|done].
  apply JsMap_get_Some_elem_of in E. destruct (inv_alloc _ HI _ _ E) as [rec ->]. done.
Qed.

Lemma locks_ref_inj w r r' l :
  Inv w → (r, l) ∈ locks w → (r', l) ∈ locks w → r = r'.
Proof.
  intros HI H1 H2. pose proof (inv_refs _ HI) as Hnd.
  apply list_elem_of_lookup in H1 as [n1 H1]. apply list_elem_of_lookup in H2 as [n2 H2].
  assert (n1 = n2) as ->.
  { eapply NoDup_lookup; [exact Hnd| |]; rewrite list_lookup_fmap.
    - by rewrite H1. - by rewrite H2. }
  congruence.
Qed.

Lemma locks_key_inj w r l l' :
  Inv w → (r, l) ∈ locks w → (r, l') ∈ locks w → l = l'.
Proof.
  intros HI H1 H2. apply (JsMap_elem_of_get _ _ _ (inv_keys _ HI)) in H1, H2. congruence.
Qed.

(** Requests leave a queue together with their timers. *)
Lemma Inv_dequeue w w' r l record record' (gone : list LockRequest) :
  Inv w → (r, l) ∈ locks w → heap w !! l = Some record →
  processEnv w' = processEnv w → locks w' = locks w → fresh w' = fresh w →
  recentLogs w' = recentLogs w →
  heap w' = <[l := record']> (heap w) →
  queue record' `sublist_of` queue record →
  (∀ req, req ∈ queue record → req ∈ queue record' ∨ req ∈ gone) →
  (∀ req, req ∈ gone → req ∈ queue record ∧ req ∉ queue record') →
  mutexOk record' → NoDup (readers record').*1 →
  (∀ h, timers w' !! h = if decide (h ∈ timer <$> gone) then None else timers w !! h) →
  Inv w'.
Proof.
  intros HI Hrl Hrec He Hl Hf Hr Hh Hsub Hsplit Hgone Hmx Hrd Ht.
  assert (Hsame : ∀ q1 q2 l1 l2 rec1 rec2,
            heap w !! l1 = Some rec1 → heap w !! l2 = Some rec2 →
            q1 ∈ queue rec1 → q2 ∈ queue rec2 → timer q1 = timer q2 → l1 = l2 ∧ q1 = q2).
  { intros q1 q2 l1 l2 rec1 rec2 H1 H2 Hq1 Hq2 Heq.
    destruct (inv_queued _ HI _ _ _ H1 Hq1) as (r1 & t1 & _ & Ht1 & Hc1).
    destruct (inv_queued _ HI _ _ _ H2 Hq2) as (r2 & t2 & _ & Ht2 & Hc2).
    rewrite Heq in Ht1. simplify_eq. rewrite Hc1 in Hc2. by simplify_eq. }
  assert (Hkeep : ∀ l0 rec0 req, heap w' !! l0 = Some rec0 → req ∈ queue rec0 →
            (timer req ∉ timer <$> gone) ∧ ∃ rec1, heap w !! l0 = Some rec1 ∧ req ∈ queue rec1).
  { intros l0 rec0 req H0 Hq. rewrite Hh in H0.
    destruct (decide (l0 = l)) as [->|Hne].
    - rewrite lookup_insert_eq in H0. simplify_eq. split.
      + intros (g & Hg1 & Hg2)%list_elem_of_fmap. destruct (Hgone _ Hg2) as [Hg3 Hg4].
        destruct (Hsame req g l l record record) as [_ ->]; try done.
        by eapply elem_of_sublist.
      + exists record. split; [done|]. by eapply elem_of_sublist.
    - rewrite lookup_insert_ne in H0 by done. split; [|by eauto].
      intros (g & Hg1 & Hg2)%list_elem_of_fmap. destruct (Hgone _ Hg2) as [Hg3 Hg4].
      destruct (Hsame req g l0 l rec0 record) as [? _]; done. }
  constructor; rewrite ?He, ?Hl, ?Hf, ?Hr.
  - by apply inv_keys.
  - by apply inv_refs.
  - intros r0 l0 Hin. rewrite Hh. destruct (decide (l0 = l)) as [->|Hne].
    + rewrite lookup_insert_eq. eauto.
    + rewrite lookup_insert_ne by done. by eapply inv_alloc.
  - intros l0. rewrite Hh. destruct (decide (l0 = l)) as [->|Hne].
    + intros _. apply (inv_heap_fresh _ HI). eauto.
    + rewrite lookup_insert_ne by done. by apply inv_heap_fresh.
  - intros h. rewrite Ht. case_decide; [by intros [? ?]|]. by apply inv_timers_fresh.
  - by apply inv_recentLogs.
  - intros l0 rec0 req H0 Hq.
    destruct (Hkeep _ _ _ H0 Hq) as (Hng & rec1 & H1 & Hq1).
    destruct (inv_queued _ HI _ _ _ H1 Hq1) as (r1 & t1 & ? & ? & ?).
    exists r1, t1. split_and!; try done. rewrite Ht. by rewrite decide_False.
  - intros h t l0 r0 req Hth Hc. rewrite Ht in Hth. case_decide as Hg; [done|].
    destruct (inv_armed _ HI _ _ _ _ _ Hth Hc) as (Hh' & Hin & (rec1 & H1 & Hq1) & ? & ?).
    split_and!; try done. rewrite Hh. destruct (decide (l0 = l)) as [->|Hne].
    + rewrite lookup_insert_eq. exists record'. split; [done|]. simplify_eq.
      destruct (Hsplit _ Hq1) as [?|Hgo]; [done|].
      exfalso. apply Hg. apply list_elem_of_fmap. eauto.
    + rewrite lookup_insert_ne by done. eauto.
  - intros l0 rec0. rewrite Hh. destruct (decide (l0 = l)) as [->|Hne].
    + rewrite lookup_insert_eq. intros ?; simplify_eq.
      eapply sublist_NoDup; [|exact Hsub]. by eapply inv_queue_nodup.
    + rewrite lookup_insert_ne by done. by apply inv_queue_nodup.
  - intros l0 rec0. rewrite Hh. destruct (decide (l0 = l)) as [->|Hne].
    + rewrite lookup_insert_eq. by intros ?; simplify_eq.
    + rewrite lookup_insert_ne by done. by apply inv_mutex.
  - intros l0 rec0. rewrite Hh. destruct (decide (l0 = l)) as [->|Hne].
    + rewrite lookup_insert_eq. by intros ?; simplify_eq.
    + rewrite lookup_insert_ne by done. by apply inv_readers.
  - intros l0 rec0. rewrite Hh. destruct (decide (l0 = l)) as [->|Hne].
    + intros _. left. eauto.
    + rewrite lookup_insert_ne by done. by apply inv_detached.
Qed.

(** ** The scheduler computes [schedule] *)

Lemma set_heap_id l record w :
  heap w !! l = Some record → set_heap <[l := record]> w = w.
Proof. intros H. destruct w; unfold set_heap; simpl in *. f_equal. by apply insert_id. Qed.

Lemma set_heap_insert_insert l a b w :
  set_heap <[l := a]> (set_heap <[l := b]> w) = set_heap <[l := a]> w.
Proof. destruct w; unfold set_heap; simpl. f_equal. apply insert_insert_eq. Qed.

Lemma resolve_set_heap i r q f w :
  resolve i r q (set_heap f w) = set_heap f (resolve i r q w).
Proof. solve_proj. Qed.

Lemma resolveAll_set_heap i r qs f w :
  resolveAll i r qs (set_heap f w) = set_heap f (resolveAll i r qs w).
Proof.
  revert w. induction qs as [|q qs IH]; intros w; [done|].
  unfold resolveAll in *. simpl. by rewrite resolve_set_heap, IH.
Qed.

Lemma readPrefix_afterReads q : readPrefix q ++ afterReads q = q.
Proof. induction q as [|req q IH]; simpl; [done|]. destruct (type req); simpl; by rewrite ?IH. Qed.

Lemma readPrefix_all_read q : Forall (λ req, type req = read) (readPrefix q).
Proof. induction q as [|req q IH]; simpl; [done|]. destruct (type req) eqn:E; by constructor. Qed.

Lemma afterReads_head q : afterReads q = [] ∨ ∃ req q', afterReads q = req :: q' ∧ type req = write.
Proof.
  induction q as [|req q IH]; simpl; [by left|].
  destruct (type req) eqn:E; [done|]. right. eauto.
Qed.

Lemma grantReaders_closed i r l fuel w record :
  heap w !! l = Some record → writer record = None → length (queue record) ≤ fuel →
  grantReaders i r l fuel w =
  resolveAll i r (readPrefix (queue record))
    (set_heap <[l := {| readers := admitReaders (now i) (readPrefix (queue record)) (readers record);
                        writer := None;
                        queue := afterReads (queue record) |}]> w).
Proof.
  revert w record. induction fuel as [|fuel IH]; intros w record Hl Hw Hlen.
  - destruct record as [rd wr [|? ?]]; simpl in *. 2:{ by inversion Hlen. } subst wr.
    by rewrite set_heap_id.
  - simpl. rewrite Hl. destruct record as [rd wr q]; simpl in *. subst wr.
    destruct q as [|req rest]; simpl.
    { by rewrite set_heap_id. }
    destruct (type req) eqn:Et; simpl.
    + erewrite IH; [| by rewrite resolve_heap; simpl; apply lookup_insert_eq | done | simpl in *; lia ].
      simpl. unfold resolveAll at 2. simpl. fold (resolveAll i r (readPrefix rest)).
      rewrite <- resolve_set_heap, set_heap_insert_insert. done.
    + by rewrite set_heap_id.
Qed.

Lemma size_zero_nil {V} (m : list (string * V)) : JsMap.size m = 0 ↔ m = [].
Proof. unfold JsMap.size. by destruct m. Qed.

Lemma processQueue_schedule i r w l record :
  lookupRecord r w = Some (l, record) →
  processQueue i r w =
  match queue record with
  | [] => cleanup r w
  | _ :: _ =>
      resolveAll i r (schedule (now i) record).1
        (set_heap <[l := (schedule (now i) record).2]> w)
  end.
Proof.
  intros Hl. unfold processQueue. rewrite Hl.
  apply lookupRecord_Some in Hl as [_ Hh].
  pose proof (grantReaders_closed i r l (length (queue record)) w record Hh) as Hg.
  unfold schedule. destruct (queue record) as [|next rest] eqn:Eq; [done|].
  destruct (writer record) eqn:Ew.
  { cbn [fst snd]. by rewrite set_heap_id. }
  destruct (type next) eqn:Et.
  - cbn [fst snd]. rewrite Hg by done. done.
  - destruct (decide (JsMap.size (readers record) = 0)) as [Hs|Hs].
    + apply size_zero_nil in Hs. rewrite decide_True by done. cbn [fst snd].
      done.
    + rewrite decide_False by (by rewrite <- size_zero_nil). cbn [fst snd].
      by rewrite set_heap_id.
Qed.

(** ** Granting a run of requests *)

Lemma dirOutcome_resolve i i' r q w : dirOutcome i' (resolve i r q w) = dirOutcome i w.
Proof. unfold dirOutcome at 1. by rewrite resolve_ensureLogDirPromise. Qed.

Lemma resolveAll_core i r qs w :
  let w' := resolveAll i r qs w in
  processEnv w' = processEnv w ∧ locks w' = locks w ∧ heap w' = heap w ∧
  recentLogs w' = recentLogs w ∧ arrays w' = arrays w ∧ fresh w' = fresh w ∧
  tasks w' = tasks w ++ grantedTasks i r (dirOutcome i w) qs ∧
  ensureLogDirPromise w' =
    (if decide (qs = []) then ensureLogDirPromise w else Some (dirOutcome i w)) ∧
  outbox w' = outbox w ++ grantedEvents r qs ∧
  ∀ h, timers w' !! h = if decide (h ∈ timer <$> qs) then None else timers w !! h.
Proof.
  revert w. induction qs as [|q qs IH]; intros w; cbv zeta.
  - simpl. rewrite !app_nil_r. by split_and!.
  - change (resolveAll i r (q :: qs) w) with (resolveAll i r qs (resolve i r q w)).
    destruct (IH (resolve i r q w)) as (?&?&?&?&?&?&Hta&Hp&Ho&Ht).
    rewrite resolve_processEnv, resolve_locks, resolve_heap, resolve_recentLogs,
      resolve_arrays, resolve_fresh in *.
    rewrite dirOutcome_resolve in *.
    split_and!; try done.
    + rewrite Hta, resolve_tasks. unfold grantedTasks. csimpl.
      by rewrite <- !(assoc_L (++)).
    + rewrite Hp, resolve_ensureLogDirPromise. rewrite (decide_False (P := q :: qs = [])) by done.
      by destruct (decide (qs = [])).
    + rewrite Ho, resolve_outbox. unfold grantedEvents. csimpl. by rewrite <- (assoc_L (++)).
    + intros h. rewrite Ht, resolve_timers. csimpl.
      destruct (decide (h ∈ timer <$> qs)) as [Hin|Hin].
      * by rewrite decide_True by (by right).
      * destruct (decide (h = timer q)) as [->|Hne].
        -- rewrite decide_True by left. apply lookup_delete_eq.
        -- rewrite decide_False by (rewrite not_elem_of_cons; done).
           by apply lookup_delete_ne.
Qed.

(** ** [cleanup] *)

Lemma isIdle_true record : isIdle record = true ↔ record = emptyRecord.
Proof.
  unfold isIdle, emptyRecord, JsMap.clear, JsMap.size. destruct record as [rd wr q]; simpl.
  rewrite !andb_true_iff, !bool_decide_eq_true. split.
  - intros [[Hr ->] Hq]. destruct rd, q; simplify_eq; done.
  - intros ?; simplify_eq. done.
Qed.

Lemma isIdle_false record :
  isIdle record = false ↔ readers record ≠ [] ∨ writer record ≠ None ∨ queue record ≠ [].
Proof.
  rewrite <- not_true_iff_false, isIdle_true. destruct record as [rd wr q]; simpl.
  unfold emptyRecord, JsMap.clear. split.
  - intros Hne. destruct rd; [|by left]. destruct wr; [by right; left|].
    destruct q; [done|]. by right; right.
  - intros [H|[H|H]] ?; simplify_eq.
Qed.

Lemma cleanup_cases r w :
  (cleanup r w = w ∧
   ∀ l record, lookupRecord r w = Some (l, record) → isIdle record = false)
  ∨ (∃ l, lookupRecord r w = Some (l, emptyRecord) ∧
          cleanup r w = set_locks (JsMap.delete r) w).
Proof.
  unfold cleanup. destruct (lookupRecord r w) as [[l record]|] eqn:E.
  - destruct (isIdle record) eqn:Hi.
    + right. apply isIdle_true in Hi. subst. eauto.
    + left. split; [done|]. by intros ?? [= <- <-].
  - left. done.
Qed.

Lemma Inv_cleanup r w : Inv w → Inv (cleanup r w).
Proof.
  intros HI. destruct (cleanup_cases r w) as [[-> _]|(l & Hl & ->)]; [done|].
  apply (lookupRecord_elem_of _ _ _ _ HI) in Hl as [Hrl Hh].
  assert (Hother : ∀ r0 l0 rec0, (r0, l0) ∈ locks w → heap w !! l0 = Some rec0 →
            rec0 ≠ emptyRecord → (r0, l0) ∈ JsMap.delete r (locks w)).
  { intros r0 l0 rec0 Hin H0 Hne. apply JsMap_elem_of_delete. split; [|done].
    intros ->. rewrite (locks_key_inj _ _ _ _ HI Hin Hrl) in H0. congruence. }
  constructor; simpl.
  - apply JsMap_delete_NoDup, HI.
  - apply (sublist_NoDup _ ((locks w).*2)); [by apply inv_refs|].
    unfold JsMap.delete. apply fmap_sublist, sublist_filter.
  - intros r0 l0 [_ Hin]%JsMap_elem_of_delete. by eapply inv_alloc.
  - by apply inv_heap_fresh.
  - by apply inv_timers_fresh.
  - by apply inv_recentLogs.
  - intros l0 rec0 req H0 Hq.
    destruct (inv_queued _ HI _ _ _ H0 Hq) as (r1 & t1 & Hin & ? & ?).
    exists r1, t1. split_and!; try done. eapply Hother; try done.
    intros ->. by apply elem_of_nil in Hq.
  - intros h t l0 r0 req Hth Hc.
    destruct (inv_armed _ HI _ _ _ _ _ Hth Hc) as (? & Hin & (rec1 & H1 & Hq1) & ? & ?).
    split_and!; try done; [|eauto]. eapply Hother; try done.
    intros ->. by apply elem_of_nil in Hq1.
  - by apply inv_queue_nodup.
  - by apply inv_mutex.
  - by apply inv_readers.
  - intros l0 rec0 H0. destruct (decide (rec0 = emptyRecord)) as [?|Hne]; [by right|].
    left. destruct (inv_detached _ HI _ _ H0) as [[r1 Hin]|?]; [|done].
    exists r1. by eapply Hother.
Qed.

(** ** [processQueue] keeps the invariant *)

Lemma admitReaders_NoDup t qs rd : NoDup rd.*1 → NoDup (admitReaders t qs rd).*1.
Proof.
  revert rd. induction qs as [|q qs IH]; intros rd Hnd; simpl; [done|].
  apply IH. by apply JsMap_set_NoDup.
Qed.

Lemma schedule_sound t record :
  mutexOk record → NoDup (readers record).*1 → NoDup (queue record) →
  let granted := (schedule t record).1 in
  let record' := (schedule t record).2 in
  queue record = granted ++ queue record' ∧
  mutexOk record' ∧ NoDup (readers record').*1.
Proof.
  intros Hmx Hrd Hq. unfold schedule.
  destruct (queue record) as [|next rest] eqn:Eq; simpl.
  { by rewrite Eq. }
  destruct (writer record) eqn:Ew; simpl.
  { by rewrite Eq. }
  destruct (type next) eqn:Et; simpl.
  - split_and!.
    + f_equal. by rewrite readPrefix_afterReads.
    + by left.
    + by apply admitReaders_NoDup, JsMap_set_NoDup.
  - destruct (decide (readers record = [])) as [Hr|Hr]; simpl.
    + split_and!; [done | by right | done].
    + by rewrite Eq.
Qed.

Lemma Inv_processQueue i r w : Inv w → Inv (processQueue i r w).
Proof.
  intros HI. destruct (lookupRecord r w) as [[l record]|] eqn:Hl.
  2:{ unfold processQueue. by rewrite Hl. }
  rewrite (processQueue_schedule _ _ _ _ _ Hl).
  destruct (queue record) as [|next rest] eqn:Eq; [by apply Inv_cleanup|].
  clear next rest Eq.
  apply (lookupRecord_elem_of _ _ _ _ HI) in Hl as [Hrl Hh].
  destruct (schedule_sound (now i) record) as (Hq & Hmx & Hrd);
    [by eapply inv_mutex | by eapply inv_readers | by eapply inv_queue_nodup |].
  pose proof (inv_queue_nodup _ HI _ _ Hh) as Hnd. rewrite Hq in Hnd.
  apply NoDup_app in Hnd as (_ & Hdisj & _).
  set (w1 := set_heap <[l := (schedule (now i) record).2]> w).
  destruct (resolveAll_core i r (schedule (now i) record).1 w1) as (?&?&?&?&?&?&_&_&_&Ht).
  eapply (Inv_dequeue w _ r l record (schedule (now i) record).2 (schedule (now i) record).1);
    try done.
  - rewrite Hq. by apply sublist_inserts_l.
  - intros req. rewrite Hq. rewrite elem_of_app. tauto.
  - intros req Hg. split; [|by apply Hdisj]. rewrite Hq. apply elem_of_app. by left.
Qed.

(** ** Projections through the compound operations *)

Lemma rejectAll_processEnv r err qs w : processEnv (rejectAll r err qs w) = processEnv w.
Proof. by destruct (rejectAll_core r err qs w) as (?&?&?&?&?&?&?&?&?&?). Qed.
Lemma rejectAll_locks r err qs w : locks (rejectAll r err qs w) = locks w.
Proof. by destruct (rejectAll_core r err qs w) as (?&?&?&?&?&?&?&?&?&?). Qed.
Lemma rejectAll_heap r err qs w : heap (rejectAll r err qs w) = heap w.
Proof. by destruct (rejectAll_core r err qs w) as (?&?&?&?&?&?&?&?&?&?). Qed.
Lemma rejectAll_recentLogs r err qs w : recentLogs (rejectAll r err qs w) = recentLogs w.
Proof. by destruct (rejectAll_core r err qs w) as (?&?&?&?&?&?&?&?&?&?). Qed.
Lemma rejectAll_arrays r err qs w : arrays (rejectAll r err qs w) = arrays w.
Proof. by destruct (rejectAll_core r err qs w) as (?&?&?&?&?&?&?&?&?&?). Qed.
Lemma rejectAll_fresh r err qs w : fresh (rejectAll r err qs w) = fresh w.
Proof. by destruct (rejectAll_core r err qs w) as (?&?&?&?&?&?&?&?&?&?). Qed.
Lemma rejectAll_tasks r err qs w : tasks (rejectAll r err qs w) = tasks w.
Proof. by destruct (rejectAll_core r err qs w) as (?&?&?&?&?&?&?&?&?&?). Qed.
Lemma rejectAll_ensureLogDirPromise r err qs w :
  ensureLogDirPromise (rejectAll r err qs w) = ensureLogDirPromise w.
Proof. by destruct (rejectAll_core r err qs w) as (?&?&?&?&?&?&?&?&?&?). Qed.
Lemma rejectAll_outbox r err qs w :
  outbox (rejectAll r err qs w) = outbox w ++ rejectEvents r err qs.
Proof. by destruct (rejectAll_core r err qs w) as (?&?&?&?&?&?&?&?&?&?). Qed.
Lemma rejectAll_timers r err qs w h :
  timers (rejectAll r err qs w) !! h =
  if decide (h ∈ timer <$> qs) then None else timers w !! h.
Proof. by destruct (rejectAll_core r err qs w) as (?&?&?&?&?&?&?&?&?&?). Qed.

Lemma resolveAll_processEnv i r qs w : processEnv (resolveAll i r qs w) = processEnv w.
Proof. by destruct (resolveAll_core i r qs w) as (?&?&?&?&?&?&?&?&?&?). Qed.
Lemma resolveAll_locks i r qs w : locks (resolveAll i r qs w) = locks w.
Proof. by destruct (resolveAll_core i r qs w) as (?&?&?&?&?&?&?&?&?&?). Qed.
Lemma resolveAll_heap i r qs w : heap (resolveAll i r qs w) = heap w.
Proof. by destruct (resolveAll_core i r qs w) as (?&?&?&?&?&?&?&?&?&?). Qed.
Lemma resolveAll_recentLogs i r qs w : recentLogs (resolveAll i r qs w) = recentLogs w.
Proof. by destruct (resolveAll_core i r qs w) as (?&?&?&?&?&?&?&?&?&?). Qed.
Lemma resolveAll_arrays i r qs w : arrays (resolveAll i r qs w) = arrays w.
Proof. by destruct (resolveAll_core i r qs w) as (?&?&?&?&?&?&?&?&?&?). Qed.
Lemma resolveAll_fresh i r qs w : fresh (resolveAll i r qs w) = fresh w.
Proof. by destruct (resolveAll_core i r qs w) as (?&?&?&?&?&?&?&?&?&?). Qed.
Lemma resolveAll_tasks i r qs w :
  tasks (resolveAll i r qs w) = tasks w ++ grantedTasks i r (dirOutcome i w) qs.
Proof. by destruct (resolveAll_core i r qs w) as (?&?&?&?&?&?&?&?&?&?). Qed.
Lemma resolveAll_outbox i r qs w :
  outbox (resolveAll i r qs w) = outbox w ++ grantedEvents r qs.
Proof. by destruct (resolveAll_core i r qs w) as (?&?&?&?&?&?&?&?&?&?). Qed.
Lemma resolveAll_timers i r qs w h :
  timers (resolveAll i r qs w) !! h =
  if decide (h ∈ timer <$> qs) then None else timers w !! h.
Proof. by destruct (resolveAll_core i r qs w) as (?&?&?&?&?&?&?&?&?&?). Qed.

Lemma settleAcquire_processEnv r q o w : processEnv (settleAcquire r q o w) = processEnv w.
Proof. solve_proj. Qed.
Lemma settleAcquire_locks r q o w : locks (settleAcquire r q o w) = locks w.
Proof. solve_proj. Qed.
Lemma settleAcquire_heap r q o w : heap (settleAcquire r q o w) = heap w.
Proof. solve_proj. Qed.
Lemma settleAcquire_recentLogs r q o w : recentLogs (settleAcquire r q o w) = recentLogs w.
Proof. solve_proj. Qed.
Lemma settleAcquire_arrays r q o w : arrays (settleAcquire r q o w) = arrays w.
Proof. solve_proj. Qed.
Lemma settleAcquire_fresh r q o w : fresh (settleAcquire r q o w) = fresh w.
Proof. solve_proj. Qed.
Lemma settleAcquire_timers r q o w : timers (settleAcquire r q o w) = timers w.
Proof. solve_proj. Qed.
Lemma settleAcquire_ensureLogDirPromise r q o w :
  ensureLogDirPromise (settleAcquire r q o w) = ensureLogDirPromise w.
Proof. solve_proj. Qed.

Lemma cleanup_processEnv r w : processEnv (cleanup r w) = processEnv w.
Proof. unfold cleanup. by repeat case_match. Qed.
Lemma cleanup_heap r w : heap (cleanup r w) = heap w.
Proof. unfold cleanup. by repeat case_match. Qed.
Lemma cleanup_recentLogs r w : recentLogs (cleanup r w) = recentLogs w.
Proof. unfold cleanup. by repeat case_match. Qed.
Lemma cleanup_arrays r w : arrays (cleanup r w) = arrays w.
Proof. unfold cleanup. by repeat case_match. Qed.
Lemma cleanup_fresh r w : fresh (cleanup r w) = fresh w.
Proof. unfold cleanup. by repeat case_match. Qed.
Lemma cleanup_timers r w : timers (cleanup r w) = timers w.
Proof. unfold cleanup. by repeat case_match. Qed.
Lemma cleanup_tasks r w : tasks (cleanup r w) = tasks w.
Proof. unfold cleanup. by repeat case_match. Qed.
Lemma cleanup_ensureLogDirPromise r w :
  ensureLogDirPromise (cleanup r w) = ensureLogDirPromise w.
Proof. unfold cleanup. by repeat case_match. Qed.
Lemma cleanup_outbox r w : outbox (cleanup r w) = outbox w.
Proof. unfold cleanup. by repeat case_match. Qed.

Create Rewrite HintDb world.

#[export] Hint Rewrite
  log_processEnv log_locks log_heap log_recentLogs log_arrays log_timers log_fresh
  log_outbox log_tasks log_ensureLogDirPromise
  resolve_processEnv resolve_locks resolve_heap resolve_recentLogs resolve_arrays
  resolve_fresh resolve_timers resolve_outbox resolve_ensureLogDirPromise resolve_tasks
  reject_processEnv reject_locks reject_heap reject_recentLogs reject_arrays reject_fresh
  reject_tasks reject_ensureLogDirPromise reject_timers reject_outbox
  rejectAll_processEnv rejectAll_locks rejectAll_heap rejectAll_recentLogs
  rejectAll_arrays rejectAll_fresh rejectAll_tasks rejectAll_ensureLogDirPromise
  rejectAll_outbox rejectAll_timers
  resolveAll_processEnv resolveAll_locks resolveAll_heap resolveAll_recentLogs
  resolveAll_arrays resolveAll_fresh resolveAll_tasks resolveAll_outbox resolveAll_timers
  settleAcquire_processEnv settleAcquire_locks settleAcquire_heap
  settleAcquire_recentLogs settleAcquire_arrays settleAcquire_fresh
  settleAcquire_timers settleAcquire_ensureLogDirPromise
  cleanup_processEnv cleanup_heap cleanup_recentLogs cleanup_arrays cleanup_fresh
  cleanup_timers cleanup_tasks cleanup_ensureLogDirPromise cleanup_outbox
  : world.

Ltac wsimpl := repeat (progress (autorewrite with world in *; simpl in * )).

Lemma processQueue_frame i r w :
  let w' := processQueue i r w in
  processEnv w' = processEnv w ∧ recentLogs w' = recentLogs w ∧
  arrays w' = arrays w ∧ fresh w' = fresh w.
Proof.
  cbv zeta. destruct (lookupRecord r w) as [[l record]|] eqn:Hl.
  2:{ unfold processQueue. by rewrite Hl. }
  rewrite (processQueue_schedule _ _ _ _ _ Hl).
  destruct (queue record); by wsimpl.
Qed.

Lemma processQueue_processEnv i r w : processEnv (processQueue i r w) = processEnv w.
Proof. apply processQueue_frame. Qed.
Lemma processQueue_recentLogs i r w : recentLogs (processQueue i r w) = recentLogs w.
Proof. apply processQueue_frame. Qed.
Lemma processQueue_arrays i r w : arrays (processQueue i r w) = arrays w.
Proof. apply processQueue_frame. Qed.
Lemma processQueue_fresh i r w : fresh (processQueue i r w) = fresh w.
Proof. apply processQueue_frame. Qed.

#[export] Hint Rewrite processQueue_processEnv processQueue_recentLogs processQueue_arrays
  processQueue_fresh : world.

(** ** The public operations keep the invariant *)

Lemma alter_lookup_insert {A} (f : A → A) (l : nat) (x : A) (m : gmap nat A) :
  m !! l = Some x → alter f l m = <[l := f x]> m.
Proof.
  intros H. apply map_eq. intros j. destruct (decide (j = l)) as [->|Hne].
  - by rewrite lookup_alter_eq, lookup_insert_eq, H.
  - by rewrite lookup_alter_ne, lookup_insert_ne.
Qed.

Lemma getRecord_cases r w :
  (∃ l, JsMap.get r (locks w) = Some l ∧ getRecord r w = (l, w))
  ∨ (JsMap.get r (locks w) = None ∧
     getRecord r w =
       (fresh w, set_fresh (S (fresh w))
                   (set_locks (λ m, m ++ [(r, fresh w)])
                      (set_heap <[fresh w := emptyRecord]> w)))).
Proof.
  unfold getRecord. destruct (JsMap.get r (locks w)) as [l|] eqn:E; [left; eauto|].
  right. split; [done|]. f_equal. unfold set_locks. simpl. by rewrite JsMap_set_absent.
Qed.

Lemma Inv_getRecord r w :
  Inv w →
  Inv (getRecord r w).2 ∧ (r, (getRecord r w).1) ∈ locks (getRecord r w).2
  ∧ processEnv (getRecord r w).2 = processEnv w.
Proof.
  intros HI. destruct (getRecord_cases r w) as [(l & Hl & ->)|[Hn ->]]; simpl.
  { split_and!; try done. by apply JsMap_get_Some_elem_of. }
  split_and!; [|apply elem_of_app; right; by left|done].
  assert (Hfh : heap w !! fresh w = None).
  { apply eq_None_not_Some. intros Hs. apply (inv_heap_fresh _ HI) in Hs. lia. }
  constructor; simpl.
  - rewrite fmap_app. apply NoDup_app. split_and!; [by apply inv_keys| |apply NoDup_singleton].
    intros x Hx Hx'. apply list_elem_of_singleton in Hx'. subst.
    by apply JsMap_get_None in Hn.
  - rewrite fmap_app. apply NoDup_app. split_and!; [by apply inv_refs| |apply NoDup_singleton].
    intros x Hx Hx'. apply list_elem_of_singleton in Hx'. subst. simpl in Hx.
    apply list_elem_of_fmap in Hx as ([r0 l0] & ? & Hin). simpl in *. subst.
    apply (inv_alloc _ HI) in Hin. rewrite Hfh in Hin. by destruct Hin.
  - intros r0 l0 [Hin|Hin]%elem_of_app.
    + destruct (decide (l0 = fresh w)) as [->|Hne]; [rewrite lookup_insert_eq; eauto|].
      rewrite lookup_insert_ne by done. by eapply inv_alloc.
    + apply list_elem_of_singleton in Hin. simplify_eq. rewrite lookup_insert_eq; eauto.
  - intros l0. destruct (decide (l0 = fresh w)) as [->|Hne]; [lia|].
    rewrite lookup_insert_ne by done. intros H%(inv_heap_fresh _ HI). lia.
  - intros h H%(inv_timers_fresh _ HI). lia.
  - pose proof (inv_recentLogs _ HI). lia.
  - intros l0 rec0 req. destruct (decide (l0 = fresh w)) as [->|Hne].
    + rewrite lookup_insert_eq. intros ? Hq; simplify_eq. by apply elem_of_nil in Hq.
    + rewrite lookup_insert_ne by done. intros H0 Hq.
      destruct (inv_queued _ HI _ _ _ H0 Hq) as (r1 & t1 & ? & ? & ?).
      exists r1, t1. split_and!; try done. apply elem_of_app. by left.
  - intros h t l0 r0 req Hth Hc.
    destruct (inv_armed _ HI _ _ _ _ _ Hth Hc) as (? & Hin & (rec1 & H1 & Hq1) & ? & ?).
    split_and!; try done; [apply elem_of_app; by left|].
    exists rec1. split; [|done]. rewrite lookup_insert_ne; [done|]. intros <-. congruence.
  - intros l0 rec0. destruct (decide (l0 = fresh w)) as [->|Hne].
    + rewrite lookup_insert_eq. intros ?; simplify_eq. constructor.
    + rewrite lookup_insert_ne by done. by apply inv_queue_nodup.
  - intros l0 rec0. destruct (decide (l0 = fresh w)) as [->|Hne].
    + rewrite lookup_insert_eq. intros ?; simplify_eq. by left.
    + rewrite lookup_insert_ne by done. by apply inv_mutex.
  - intros l0 rec0. destruct (decide (l0 = fresh w)) as [->|Hne].
    + rewrite lookup_insert_eq. intros ?; simplify_eq. constructor.
    + rewrite lookup_insert_ne by done. by apply inv_readers.
  - intros l0 rec0. destruct (decide (l0 = fresh w)) as [->|Hne].
    + rewrite lookup_insert_eq. intros ?; simplify_eq. by right.
    + rewrite lookup_insert_ne by done. intros H0.
      destruct (inv_detached _ HI _ _ H0) as [[r1 Hin]|?]; [|by right].
      left. exists r1. apply elem_of_app. by left.
Qed.

(** [enqueue] from [setTimeout] to [record.queue.push(request)]. *)
Lemma Inv_push i r l t s a w :
  Inv w → (r, l) ∈ locks w →
  let request := {| type := t; sessionId := s; timer := fresh w;
                    requestedAt := now i; awaiter := a |} in
  Inv (set_heap (alter (λ record, {| readers := readers record; writer := writer record;
                                     queue := queue record ++ [request] |}) l)
         (setTimeout (RequestTimeout l r request) (LOCK_TIMEOUT_MS (processEnv w)) i w).2).
Proof.
  intros HI Hrl request.
  destruct (inv_alloc _ HI _ _ Hrl) as [record Hh].
  assert (Hft : timers w !! fresh w = None).
  { apply eq_None_not_Some. intros Hs. apply (inv_timers_fresh _ HI) in Hs. lia. }
  assert (Hnew : ∀ l0 rec0, heap w !! l0 = Some rec0 → request ∉ queue rec0).
  { intros l0 rec0 H0 Hq. destruct (inv_queued _ HI _ _ _ H0 Hq) as (? & ? & ? & Ht & ?).
    simpl in Ht. congruence. }
  unfold setTimeout.
  constructor; simpl; rewrite ?(alter_lookup_insert _ _ _ _ Hh).
  - by apply inv_keys.
  - by apply inv_refs.
  - intros r0 l0 Hin. destruct (decide (l0 = l)) as [->|Hne]; [rewrite lookup_insert_eq; eauto|].
    rewrite lookup_insert_ne by done. by eapply inv_alloc.
  - intros l0. destruct (decide (l0 = l)) as [->|Hne].
    + intros _. assert (l < fresh w) by (apply (inv_heap_fresh _ HI); eauto). lia.
    + rewrite lookup_insert_ne by done. intros H%(inv_heap_fresh _ HI). lia.
  - intros h. destruct (decide (h = fresh w)) as [->|Hne]; [lia|].
    rewrite lookup_insert_ne by done. intros H%(inv_timers_fresh _ HI). lia.
  - pose proof (inv_recentLogs _ HI). lia.
  - intros l0 rec0 req H0 Hq.
    assert (Hold : ∀ rec1, heap w !! l0 = Some rec1 → req ∈ queue rec1 →
              ∃ r1 t1, (r1, l0) ∈ locks w
                ∧ <[fresh w := {| callback := RequestTimeout l r request; armedAt := now i;
                                  delay := timerDelay (LOCK_TIMEOUT_MS (processEnv w)) |}]> (timers w)
                   !! timer req = Some t1
                ∧ callback t1 = RequestTimeout l0 r1 req).
    { intros rec1 H1 Hq1. destruct (inv_queued _ HI _ _ _ H1 Hq1) as (r1 & t1 & ? & Ht & ?).
      exists r1, t1. split_and!; try done. rewrite lookup_insert_ne; [done|]. congruence. }
    destruct (decide (l0 = l)) as [->|Hne].
    + rewrite lookup_insert_eq in H0. simplify_eq. simpl in Hq.
      apply elem_of_app in Hq as [Hq|Hq]; [by eapply Hold|].
      apply list_elem_of_singleton in Hq. subst req. exists r. eexists. split; [done|].
      simpl. rewrite lookup_insert_eq. done.
    + rewrite lookup_insert_ne in H0 by done. by eapply Hold.
  - intros h t0 l0 r0 req Hth Hc. destruct (decide (h = fresh w)) as [->|Hne].
    + rewrite lookup_insert_eq in Hth. simplify_eq. simpl in Hc. simplify_eq.
      split_and!; try done. eexists.
      rewrite lookup_insert_eq. split; [done|]. simpl. apply elem_of_app. right. by left.
    + rewrite lookup_insert_ne in Hth by done.
      destruct (inv_armed _ HI _ _ _ _ _ Hth Hc) as (? & Hin & (rec1 & H1 & Hq1) & ? & ?).
      split_and!; try done. destruct (decide (l0 = l)) as [->|Hnel].
      * rewrite lookup_insert_eq. eexists. split; [done|]. simplify_eq. simpl.
        apply elem_of_app. by left.
      * rewrite lookup_insert_ne by done. eauto.
  - intros l0 rec0. destruct (decide (l0 = l)) as [->|Hne].
    + rewrite lookup_insert_eq. intros ?; simplify_eq. simpl.
      apply NoDup_app. split_and!; [by eapply inv_queue_nodup| |apply NoDup_singleton].
      intros x Hx Hx'. apply list_elem_of_singleton in Hx'. subst. by eapply Hnew.
    + rewrite lookup_insert_ne by done. by apply inv_queue_nodup.
  - intros l0 rec0. destruct (decide (l0 = l)) as [->|Hne].
    + rewrite lookup_insert_eq. intros ?; simplify_eq. exact (inv_mutex _ HI _ _ Hh).
    + rewrite lookup_insert_ne by done. by apply inv_mutex.
  - intros l0 rec0. destruct (decide (l0 = l)) as [->|Hne].
    + rewrite lookup_insert_eq. intros ?; simplify_eq. exact (inv_readers _ HI _ _ Hh).
    + rewrite lookup_insert_ne by done. by apply inv_readers.
  - intros l0 rec0. destruct (decide (l0 = l)) as [->|Hne].
    + intros _. left. eauto.
    + rewrite lookup_insert_ne by done. by apply inv_detached.
Qed.

Lemma Inv_log i m k w : Inv w → Inv (log i m k w).
Proof. apply Inv_ext; by wsimpl. Qed.

Lemma Inv_settle c o w : Inv w → Inv (settle c o w).
Proof. apply Inv_ext; done. Qed.

Lemma Inv_settleAcquire r q o w : Inv w → Inv (settleAcquire r q o w).
Proof. apply Inv_ext; by wsimpl. Qed.

Lemma Inv_enqueue i r s t a w :
  Inv w → Inv (enqueue i r s t (LOCK_TIMEOUT_MS (processEnv w)) a w).
Proof.
  intros HI. unfold enqueue.
  destruct (Inv_getRecord r w HI) as (HI1 & Hrl & He).
  destruct (getRecord r w) as [l w1]. simpl in *.
  rewrite <- He.
  pose proof (Inv_push i r l t s a w1 HI1 Hrl) as HI3.
  apply Inv_processQueue, Inv_log. exact HI3.
Qed.

Ltac inv_same HI :=
  first [ exact (inv_keys _ HI) | exact (inv_refs _ HI) | exact (inv_alloc _ HI)
        | exact (inv_heap_fresh _ HI) | exact (inv_timers_fresh _ HI)
        | exact (inv_recentLogs _ HI) | exact (inv_queued _ HI) | exact (inv_armed _ HI)
        | exact (inv_queue_nodup _ HI) | exact (inv_mutex _ HI)
        | exact (inv_readers _ HI) | exact (inv_detached _ HI) ].

Lemma filter_split_session sid (q : list LockRequest) req :
  req ∈ q →
  req ∈ filter (λ x, sessionId x ≠ sid) q ∨ req ∈ filter (λ x, sessionId x = sid) q.
Proof.
  intros Hin. rewrite !list_elem_of_filter.
  destruct (decide (sessionId req = sid)); [right|left]; done.
Qed.

(** The part of [releaseLock] that takes the session out of the record. *)
Lemma Inv_release_core r sid l record w :
  Inv w → lookupRecord r w = Some (l, record) →
  Inv (rejectAll r (λ _, cancelError sid)
         (filter (λ req, sessionId req = sid) (queue record))
         (set_heap <[l := {| readers := JsMap.delete sid (readers record);
                             writer := if bool_decide (fst <$> writer record = Some sid)
                                       then None else writer record;
                             queue := filter (λ req, sessionId req ≠ sid) (queue record) |}]> w)).
Proof.
  intros HI Hl. apply (lookupRecord_elem_of _ _ _ _ HI) in Hl as [Hrl Hh].
  eapply (Inv_dequeue w _ r l record
            {| readers := JsMap.delete sid (readers record);
               writer := if bool_decide (fst <$> writer record = Some sid)
                         then None else writer record;
               queue := filter (λ req, sessionId req ≠ sid) (queue record) |}
            (filter (λ req, sessionId req = sid) (queue record)));
    try done; wsimpl; try done.
  - apply sublist_filter.
  - by apply filter_split_session.
  - intros req [Hs Hin]%list_elem_of_filter. split; [done|].
    rewrite list_elem_of_filter. naive_solver.
  - destruct (inv_mutex _ HI _ _ Hh) as [Hw|Hr]; [left|right]; simpl.
    + rewrite Hw. by case_bool_decide.
    + by rewrite Hr.
  - apply JsMap_delete_NoDup. by eapply inv_readers.
  - intros h. by rewrite rejectAll_timers.
Qed.

Lemma Inv_releaseLockResume i r sid w : Inv w → Inv (releaseLockResume i r sid w).
Proof. intros HI. by apply Inv_settle, Inv_cleanup, Inv_processQueue. Qed.

Lemma Inv_releaseLock i r sid w : Inv w → Inv (releaseLock i r sid w).
Proof.
  intros HI. unfold releaseLock.
  destruct (lookupRecord r w) as [[l record]|] eqn:Hl; [|by apply Inv_settle].
  pose proof (Inv_release_core r sid l record w HI Hl) as HI2.
  cbv zeta.
  destruct (bool_decide (fst <$> writer record = Some sid) || JsMap.has sid (readers record));
    [by apply Inv_log | by apply Inv_releaseLockResume].
Qed.

Lemma Inv_forceUnlockReturn r c o w : Inv w → Inv (forceUnlockReturn r c o w).
Proof.
  intros HI. unfold forceUnlockReturn. destruct c; [by apply Inv_settle|].
  destruct o; [|by apply Inv_settle]. by apply (Inv_ext w).
Qed.

Lemma Inv_forceUnlock i r c w : Inv w → Inv (forceUnlock i r c w).
Proof.
  intros HI. unfold forceUnlock.
  destruct (lookupRecord r w) as [[l record]|] eqn:Hl; [|by apply Inv_forceUnlockReturn].
  apply (lookupRecord_elem_of _ _ _ _ HI) in Hl as [Hrl Hh].
  cbv zeta. apply Inv_log.
  eapply (Inv_dequeue w _ r l record emptyRecord (queue record)); try done; wsimpl; try done.
  - rewrite (alter_lookup_insert _ _ {| readers := JsMap.clear; writer := None;
                                        queue := queue record |});
      [|by rewrite lookup_insert_eq].
    simpl. by rewrite insert_insert_eq.
  - apply sublist_nil_l.
  - by right.
  - intros req Hin. split; [done|]. apply not_elem_of_nil.
  - by left.
  - constructor.
  - intros h. by rewrite rejectAll_timers.
Qed.

Lemma Inv_clearAllLoop i ids w : Inv w → Inv (clearAllLoop i ids w).
Proof. intros HI. destruct ids; simpl; [by apply Inv_log | by apply Inv_forceUnlock]. Qed.

(** Timers of simulated releases come and go without touching the table. *)
Lemma Inv_simulateResume i t r sid holdMs w : Inv w → Inv (simulateResume i t r sid holdMs w).
Proof.
  intros HI. unfold simulateResume, setTimeout. apply Inv_settle.
  assert (Hft : timers w !! fresh w = None).
  { apply eq_None_not_Some. intros Hs. apply (inv_timers_fresh _ HI) in Hs. lia. }
  constructor; simpl; try inv_same HI.
  - intros l0 H%(inv_heap_fresh _ HI). lia.
  - intros h. destruct (decide (h = fresh w)) as [->|Hne]; [lia|].
    rewrite lookup_insert_ne by done. intros H%(inv_timers_fresh _ HI). lia.
  - pose proof (inv_recentLogs _ HI). lia.
  - intros l0 rec0 req H0 Hq.
    destruct (inv_queued _ HI _ _ _ H0 Hq) as (r1 & t1 & ? & Ht & ?).
    exists r1, t1. split_and!; try done. rewrite lookup_insert_ne; [done|]. congruence.
  - intros h t0 l0 r0 req Hth Hc. destruct (decide (h = fresh w)) as [->|Hne].
    + rewrite lookup_insert_eq in Hth. by simplify_eq.
    + rewrite lookup_insert_ne in Hth by done. by eapply inv_armed.
Qed.

Lemma Inv_clear_simulated h t r sid w :
  Inv w → timers w !! h = Some t → callback t = SimulatedRelease r sid →
  Inv (clearTimeout h w).
Proof.
  intros HI Hth Hc. constructor; simpl; try inv_same HI.
  - intros h0 [x Hx]. apply lookup_delete_Some in Hx as [_ Hx].
    apply (inv_timers_fresh _ HI). eauto.
  - intros l0 rec0 req H0 Hq.
    destruct (inv_queued _ HI _ _ _ H0 Hq) as (r1 & t1 & ? & Ht & ?).
    exists r1, t1. split_and!; try done. rewrite lookup_delete_ne; [done|].
    intros ->. congruence.
  - intros h0 t0 l0 r0 req Hth0 Hc0. apply lookup_delete_Some in Hth0 as [_ Hth0].
    by eapply inv_armed.
Qed.

Lemma Inv_onTimeout i h t l r request w :
  Inv w → timers w !! h = Some t → callback t = RequestTimeout l r request →
  Inv (onTimeout i l r request (clearTimeout h w)).
Proof.
  intros HI Hth Hc. unfold onTimeout.
  destruct (inv_armed _ HI _ _ _ _ _ Hth Hc) as (Hh' & Hrl & (record & Hh & Hq) & _ & _).
  apply Inv_processQueue, Inv_cleanup, Inv_log, Inv_settleAcquire.
  eapply (Inv_dequeue w _ r l record
            {| readers := readers record; writer := writer record;
               queue := filter (λ req, req ≠ request) (queue record) |} [request]);
    try done; simpl.
  - by rewrite (alter_lookup_insert _ _ _ _ Hh).
  - apply sublist_filter.
  - intros req Hin. rewrite list_elem_of_filter, list_elem_of_singleton.
    destruct (decide (req = request)); [by right|by left].
  - intros req ->%list_elem_of_singleton. split; [done|].
    rewrite list_elem_of_filter. naive_solver.
  - exact (inv_mutex _ HI _ _ Hh).
  - exact (inv_readers _ HI _ _ Hh).
  - intros h0. rewrite Hh'. destruct (decide (h0 = h)) as [->|Hne].
    + rewrite lookup_delete_eq. by rewrite decide_True by left.
    + rewrite lookup_delete_ne by done.
      by rewrite decide_False by (by rewrite list_elem_of_singleton).
Qed.

Lemma Inv_fireTimer i h t w : Inv w → timers w !! h = Some t → Inv (fireTimer i h t w).
Proof.
  intros HI Hth. unfold fireTimer. destruct (callback t) as [l r request|r sid] eqn:Hc.
  - by eapply Inv_onTimeout.
  - apply Inv_releaseLock. by eapply Inv_clear_simulated.
Qed.

Lemma Inv_pushRecentLog line w : Inv w → Inv (pushRecentLog line w).
Proof. by apply Inv_ext. Qed.

Lemma Inv_logAwaiterResume i k o w : Inv w → Inv (logAwaiterResume i k o w).
Proof.
  intros HI. destruct k, o; simpl; try done; try (by apply Inv_settle).
  - by apply Inv_releaseLockResume.
  - by apply Inv_forceUnlockReturn, Inv_cleanup.
  - by apply Inv_forceUnlockReturn.
Qed.

Lemma Inv_runTask i t w : Inv w → Inv (runTask i t w).
Proof.
  intros HI. destruct t as [line dir k|rest|t r s holdMs]; simpl.
  - unfold logResume. destruct dir; simpl; [|by apply Inv_logAwaiterResume].
    destruct (catch_ignore (appendFile i)); apply Inv_logAwaiterResume; [|done].
    by apply Inv_pushRecentLog.
  - by apply Inv_clearAllLoop.
  - by apply Inv_simulateResume.
Qed.

Lemma Inv_getRecentLogs w : Inv w → Inv (getRecentLogs w).2.
Proof.
  intros HI. constructor; simpl; try inv_same HI.
  - intros l0 H%(inv_heap_fresh _ HI). lia.
  - intros h H%(inv_timers_fresh _ HI). lia.
  - pose proof (inv_recentLogs _ HI). lia.
Qed.

Lemma Inv_step w w' : Inv w → step w w' → Inv w'.
Proof.
  intros HI Hs. destruct Hs.
  - by apply Inv_enqueue.
  - by apply Inv_enqueue.
  - by apply Inv_releaseLock.
  - by apply Inv_forceUnlock.
  - by apply Inv_clearAllLoop.
  - by apply Inv_enqueue.
  - by apply Inv_enqueue.
  - by apply Inv_getRecentLogs.
  - by apply Inv_fireTimer.
  - apply Inv_runTask. by apply (Inv_ext w).
Qed.

Lemma reachable_Inv e w : reachable e w → Inv w.
Proof. induction 1; [apply Inv_new | by eapply Inv_step]. Qed.

(** ** Frames: what a segment leaves alone *)

Lemma extends_refl w : extends w w.
Proof. split_and!; [exists []; by rewrite app_nil_r | done | done]. Qed.

Lemma extends_trans w1 w2 w3 : extends w1 w2 → extends w2 w3 → extends w1 w3.
Proof.
  intros ([ts1 H1] & Hp1 & Hl1) ([ts2 H2] & Hp2 & Hl2). split_and!; [|by auto|by auto].
  exists (ts1 ++ ts2). by rewrite H2, H1, (assoc_L (++)).
Qed.

Lemma extends_same w w' :
  tasks w' = tasks w → ensureLogDirPromise w' = ensureLogDirPromise w → extends w w'.
Proof.
  intros Ht Hp. split_and!.
  - exists []. by rewrite app_nil_r.
  - by rewrite Hp.
  - unfold LogInv. by rewrite Ht, Hp.
Qed.

Lemma extends_log i m k w : extends w (log i m k w).
Proof.
  unfold extends, LogInv. split_and!; wsimpl.
  - eauto.
  - intros p Hp. unfold dirOutcome. by rewrite Hp.
  - intros HL line dir k' [Hin|Hin]%elem_of_app.
    + apply HL in Hin. unfold dirOutcome. by rewrite Hin.
    + apply list_elem_of_singleton in Hin. by simplify_eq.
Qed.

Lemma extends_settle c o w : extends w (settle c o w).
Proof. by apply extends_same. Qed.

Lemma extends_settleAcquire r q o w : extends w (settleAcquire r q o w).
Proof.
  unfold settleAcquire. destruct (awaiter q), o; try apply extends_settle.
  - unfold extends, LogInv. split_and!; simpl; [eauto|done|].
    intros HL line dir k [Hin|Hin]%elem_of_app; [by apply (HL line dir k)|].
    by apply list_elem_of_singleton in Hin.
  - by apply extends_same.
Qed.

Lemma extends_resolve i r q w : extends w (resolve i r q w).
Proof.
  unfold resolve. eapply extends_trans; [|apply extends_settleAcquire].
  eapply extends_trans; [|apply extends_log]. by apply extends_same.
Qed.

Lemma extends_resolveAll i r qs w : extends w (resolveAll i r qs w).
Proof.
  revert w. induction qs as [|q qs IH]; intros w; [apply extends_refl|].
  change (resolveAll i r (q :: qs) w) with (resolveAll i r qs (resolve i r q w)).
  eapply extends_trans; [apply extends_resolve | apply IH].
Qed.

Lemma extends_rejectAll r err qs w : extends w (rejectAll r err qs w).
Proof. apply extends_same; by wsimpl. Qed.

Lemma extends_cleanup r w : extends w (cleanup r w).
Proof. apply extends_same; by wsimpl. Qed.

Lemma extends_processQueue i r w : extends w (processQueue i r w).
Proof.
  destruct (lookupRecord r w) as [[l record]|] eqn:Hl.
  2:{ unfold processQueue. rewrite Hl. apply extends_refl. }
  rewrite (processQueue_schedule _ _ _ _ _ Hl).
  destruct (queue record); [apply extends_cleanup|].
  eapply extends_trans; [|apply extends_resolveAll]. by apply extends_same.
Qed.

Lemma extends_enqueue i r s t timeout a w : extends w (enqueue i r s t timeout a w).
Proof.
  unfold enqueue. destruct (getRecord r w) as [l w1] eqn:Eg.
  assert (extends w w1).
  { unfold getRecord in Eg. destruct (JsMap.get r (locks w)); simplify_eq;
      [apply extends_refl | by apply extends_same]. }
  simpl. eapply extends_trans; [|apply extends_processQueue].
  eapply extends_trans; [|apply extends_log].
  eapply extends_trans; [done|]. by apply extends_same.
Qed.

Lemma extends_releaseLockResume i r sid w : extends w (releaseLockResume i r sid w).
Proof.
  unfold releaseLockResume. eapply extends_trans; [|apply extends_settle].
  eapply extends_trans; [apply extends_processQueue | apply extends_cleanup].
Qed.

Lemma extends_releaseLock i r sid w : extends w (releaseLock i r sid w).
Proof.
  unfold releaseLock. destruct (lookupRecord r w) as [[l record]|]; [|apply extends_settle].
  cbv zeta.
  match goal with |- context [rejectAll ?a ?b ?c ?d] =>
    assert (extends w (rejectAll a b c d)) as He
  end.
  { eapply extends_trans; [|apply extends_rejectAll]. by apply extends_same. }
  destruct (_ || _).
  - eapply extends_trans; [exact He | apply extends_log].
  - eapply extends_trans; [exact He | apply extends_releaseLockResume].
Qed.

Lemma extends_forceUnlockReturn r c o w : extends w (forceUnlockReturn r c o w).
Proof.
  unfold forceUnlockReturn. destruct c; [apply extends_settle|].
  destruct o; [|apply extends_settle].
  unfold extends, LogInv. split_and!; simpl; [eauto|done|].
  intros HL line dir k [Hin|Hin]%elem_of_app; [by apply (HL line dir k)|].
  by apply list_elem_of_singleton in Hin.
Qed.

Lemma extends_forceUnlock i r c w : extends w (forceUnlock i r c w).
Proof.
  unfold forceUnlock.
  destruct (lookupRecord r w) as [[l record]|]; [|apply extends_forceUnlockReturn].
  cbv zeta. eapply extends_trans; [|apply extends_log].
  apply extends_same; by wsimpl.
Qed.

Lemma extends_clearAllLoop i ids w : extends w (clearAllLoop i ids w).
Proof. destruct ids; simpl; [apply extends_log | apply extends_forceUnlock]. Qed.

Lemma extends_onTimeout i l r request w : extends w (onTimeout i l r request w).
Proof.
  unfold onTimeout. eapply extends_trans; [|apply extends_processQueue].
  eapply extends_trans; [|apply extends_cleanup].
  eapply extends_trans; [|apply extends_log].
  eapply extends_trans; [|apply extends_settleAcquire]. by apply extends_same.
Qed.

Lemma extends_fireTimer i h t w : extends w (fireTimer i h t w).
Proof.
  unfold fireTimer. destruct (callback t).
  - eapply extends_trans; [|apply extends_onTimeout]. by apply extends_same.
  - eapply extends_trans; [|apply extends_releaseLock]. by apply extends_same.
Qed.

Lemma extends_simulateResume i t r sid holdMs w : extends w (simulateResume i t r sid holdMs w).
Proof. by apply extends_same. Qed.

Lemma extends_logAwaiterResume i k o w : extends w (logAwaiterResume i k o w).
Proof.
  destruct k, o; simpl; try apply extends_refl; try apply extends_settle.
  - apply extends_releaseLockResume.
  - unfold forceUnlockResume. eapply extends_trans; [apply extends_cleanup|].
    apply extends_forceUnlockReturn.
  - apply extends_forceUnlockReturn.
Qed.

Lemma extends_runTask i t w : extends w (runTask i t w).
Proof.
  destruct t as [line dir k|rest|t r s holdMs]; simpl.
  - unfold logResume. destruct dir; simpl; [|apply extends_logAwaiterResume].
    destruct (catch_ignore (appendFile i)); [|apply extends_logAwaiterResume].
    eapply extends_trans; [|apply extends_logAwaiterResume]. by apply extends_same.
  - apply extends_clearAllLoop.
  - apply extends_simulateResume.
Qed.

Lemma LogInv_delete n w : LogInv w → LogInv (set_tasks (delete n) w).
Proof.
  intros HL line dir k Hin. simpl in *. apply (HL line dir k).
  eapply elem_of_sublist; [done|]. apply sublist_delete.
Qed.

Lemma LogInv_step w w' : LogInv w → step w w' → LogInv w'.
Proof.
  intros HL Hs. destruct Hs.
  - by apply extends_enqueue.
  - by apply extends_enqueue.
  - by apply extends_releaseLock.
  - by apply extends_forceUnlock.
  - by apply extends_clearAllLoop.
  - by apply extends_enqueue.
  - by apply extends_enqueue.
  - done.
  - by apply extends_fireTimer.
  - apply extends_runTask. by apply LogInv_delete.
Qed.

Lemma dirPromise_step w w' p :
  step w w' → ensureLogDirPromise w = Some p → ensureLogDirPromise w' = Some p.
Proof.
  intros Hs. destruct Hs.
  - by apply extends_enqueue.
  - by apply extends_enqueue.
  - by apply extends_releaseLock.
  - by apply extends_forceUnlock.
  - by apply extends_clearAllLoop.
  - by apply extends_enqueue.
  - by apply extends_enqueue.
  - done.
  - by apply extends_fireTimer.
  - intros Hp. by apply (extends_runTask i t (set_tasks (delete n) w)).
Qed.

Lemma reachable_LogInv e w : reachable e w → LogInv w.
Proof.
  induction 1; [|by eapply LogInv_step].
  intros line dir k Hin. by apply elem_of_nil in Hin.
Qed.

Lemma dirAvailable_step w w' : step w w' → dirAvailable w' → dirAvailable w.
Proof. intros Hs Hd e He. eapply Hd. by eapply dirPromise_step. Qed.

(** ** Records of other resources are left alone *)

Lemma lookupRecord_same r w w' :
  locks w' = locks w → heap w' = heap w → lookupRecord r w' = lookupRecord r w.
Proof. intros Hl Hh. unfold lookupRecord. by rewrite Hl, Hh. Qed.

Lemma lookupRecord_insert r l x w w' :
  Inv w → (r, l) ∈ locks w → locks w' = locks w → heap w' = <[l := x]> (heap w) →
  lookupRecord r w' = Some (l, x) ∧ othersSame r w w'.
Proof.
  intros HI Hrl Hl Hh. split.
  - apply lookupRecord_Some. rewrite Hl, Hh, lookup_insert_eq. split; [|done].
    apply JsMap_elem_of_get; [by apply inv_keys | done].
  - intros r' Hne. unfold lookupRecord. rewrite Hl, Hh.
    destruct (JsMap.get r' (locks w)) as [l'|] eqn:E; [|done].
    rewrite lookup_insert_ne; [done|]. intros <-.
    apply JsMap_get_Some_elem_of in E. apply Hne. by eapply locks_ref_inj.
Qed.

Lemma othersSame_refl r w : othersSame r w w.
Proof. by intros r' _. Qed.

Lemma othersSame_trans r w1 w2 w3 :
  othersSame r w1 w2 → othersSame r w2 w3 → othersSame r w1 w3.
Proof. intros H1 H2 r' Hne. by rewrite H2, H1. Qed.

Lemma othersSame_same r w w' :
  locks w' = locks w → heap w' = heap w → othersSame r w w'.
Proof. intros Hl Hh r' _. by apply lookupRecord_same. Qed.

Lemma cleanup_post r w :
  othersSame r w (cleanup r w)
  ∧ ∀ l record, lookupRecord r (cleanup r w) = Some (l, record) →
      lookupRecord r w = Some (l, record) ∧ isIdle record = false.
Proof.
  destruct (cleanup_cases r w) as [[-> Hni]|(l & Hl & ->)].
  - split; [apply othersSame_refl|]. intros l record Hl. eauto.
  - split.
    + intros r' Hne. unfold lookupRecord. simpl. rewrite JsMap_get_delete.
      by rewrite decide_False.
    + intros l0 record. unfold lookupRecord. simpl. rewrite JsMap_get_delete.
      by rewrite decide_True.
Qed.

Lemma admitReaders_nonempty t qs rd : qs ≠ [] ∨ rd ≠ [] → admitReaders t qs rd ≠ [].
Proof.
  revert rd. induction qs as [|q qs IH]; intros rd H; simpl.
  - by destruct H.
  - apply IH. right. apply JsMap_set_nonempty.
Qed.

Lemma schedule_settled t record :
  queue record ≠ [] → settledRecord (schedule t record).2.
Proof.
  intros Hq. unfold settledRecord.
  destruct record as [rd wr q]. simpl in Hq. destruct q as [|next rest]; [done|].
  destruct wr as [x|].
  { cbn. split; [|done]. apply isIdle_false. cbn. by right; left. }
  unfold schedule at 1 3. cbn [queue writer readers].
  destruct (type next) eqn:Et.
  - cbn [fst snd].
    assert (admitReaders t (readPrefix (next :: rest)) rd ≠ []) as Hne.
    { apply admitReaders_nonempty. left. simpl. by rewrite Et. }
    split; [apply isIdle_false; by left|].
    unfold schedule. cbn [queue writer readers].
    destruct (afterReads_head (next :: rest)) as [->|(req & q' & -> & Hw)]; [done|].
    rewrite Hw. by rewrite decide_False.
  - destruct (decide (rd = [])) as [->|Hr]; cbn [fst snd].
    + split; [apply isIdle_false; cbn; by right; left|]. unfold schedule. cbn. by destruct rest.
    + split; [apply isIdle_false; by left|]. unfold schedule. cbn. rewrite Et.
      by rewrite decide_False.
Qed.

Lemma processQueue_post i r w :
  Inv w →
  othersSame r w (processQueue i r w)
  ∧ ∀ l record, lookupRecord r (processQueue i r w) = Some (l, record) →
      settledRecord record.
Proof.
  intros HI. destruct (lookupRecord r w) as [[l record]|] eqn:Hl.
  2:{ unfold processQueue. rewrite Hl. split; [apply othersSame_refl|]. congruence. }
  rewrite (processQueue_schedule _ _ _ _ _ Hl).
  destruct (queue record) as [|next rest] eqn:Eq.
  - destruct (cleanup_post r w) as [Ho Hp]. split; [done|].
    intros l0 rec0 H0. destruct (Hp _ _ H0) as [H1 Hni]. rewrite Hl in H1. simplify_eq.
    split; [done|]. unfold schedule. by rewrite Eq.
  - apply (lookupRecord_elem_of _ _ _ _ HI) in Hl as [Hrl Hh].
    edestruct (lookupRecord_insert r l (schedule (now i) record).2 w) as [Hr Ho];
      [done|done| | |split; [exact Ho|]].
    3:{ intros l0 rec0. rewrite Hr. intros [= <- <-]. apply schedule_settled. by rewrite Eq. }
    + by wsimpl.
    + by wsimpl.
Qed.

(** ** Pending continuations *)

Lemma releasePending_extends r w w' : extends w w' → releasePending r w → releasePending r w'.
Proof.
  intros ([ts Ht] & _) (line & dir & sid & Hin). exists line, dir, sid.
  rewrite Ht. apply elem_of_app. by left.
Qed.

Lemma forcePending_extends r w w' : extends w w' → forcePending r w → forcePending r w'.
Proof.
  intros ([ts Ht] & _) (line & dir & c & Hin). exists line, dir, c.
  rewrite Ht. apply elem_of_app. by left.
Qed.

Lemma elem_of_delete_other {A} (l : list A) n x y :
  x ∈ l → l !! n = Some y → x ≠ y → x ∈ delete n l.
Proof.
  revert n. induction l as [|a l IH]; intros n Hin Hn Hne; [by apply elem_of_nil in Hin|].
  destruct n as [|n]; simpl in *.
  - simplify_eq. apply elem_of_cons in Hin as [?|?]; done.
  - apply elem_of_cons in Hin as [->|Hin]; [left|right]. by eapply IH.
Qed.

(** ** What each segment does to its own resource *)

Lemma getRecord_post r w :
  Inv w → othersSame r w (getRecord r w).2.
Proof.
  intros HI. destruct (getRecord_cases r w) as [(l & Hl & ->)|[Hn ->]]; simpl.
  { apply othersSame_refl. }
  intros r' Hne. unfold lookupRecord. simpl.
  assert (JsMap.get r' (locks w ++ [(r, fresh w)]) = JsMap.get r' (locks w)) as ->.
  { clear -Hne. induction (locks w) as [|[k v] m IH]; csimpl.
    - destruct (decide (r = r')); [by subst|done].
    - by rewrite IH. }
  destruct (JsMap.get r' (locks w)) as [l'|] eqn:E; [|done].
  rewrite lookup_insert_ne; [done|]. intros <-.
  apply JsMap_get_Some_elem_of, (inv_alloc _ HI), (inv_heap_fresh _ HI) in E. lia.
Qed.

Lemma enqueue_post i r s t a w :
  Inv w →
  let w' := enqueue i r s t (LOCK_TIMEOUT_MS (processEnv w)) a w in
  othersSame r w w'
  ∧ ∀ l record, lookupRecord r w' = Some (l, record) → settledRecord record.
Proof.
  intros HI. cbv zeta. unfold enqueue.
  pose proof (getRecord_post r w HI) as Ho1.
  destruct (Inv_getRecord r w HI) as (HI1 & Hrl & He).
  destruct (getRecord r w) as [l w1]. simpl in *. rewrite <- He.
  pose proof (Inv_push i r l t s a w1 HI1 Hrl) as HI3.
  apply (Inv_log i (queuedMessage t r s) NotAwaited) in HI3.
  destruct (processQueue_post i r _ HI3) as [Ho Hp]. split; [|exact Hp].
  eapply othersSame_trans; [exact Ho1|]. eapply othersSame_trans; [|exact Ho].
  destruct (inv_alloc _ HI1 _ _ Hrl) as [record Hh].
  eapply (lookupRecord_insert r l _ w1); [done|done|by wsimpl|].
  wsimpl. by rewrite (alter_lookup_insert _ _ _ _ Hh).
Qed.

Lemma Inv_timeout_core h t l r request w :
  Inv w → timers w !! h = Some t → callback t = RequestTimeout l r request →
  ∃ record, (r, l) ∈ locks w ∧ heap w !! l = Some record ∧ request ∈ queue record
    ∧ Inv (set_heap <[l := {| readers := readers record; writer := writer record;
                              queue := filter (λ req, req ≠ request) (queue record) |}]>
             (clearTimeout h w)).
Proof.
  intros HI Hth Hc.
  destruct (inv_armed _ HI _ _ _ _ _ Hth Hc) as (Hh' & Hrl & (record & Hh & Hq) & _ & _).
  exists record. split_and!; try done.
  eapply (Inv_dequeue w _ r l record
            {| readers := readers record; writer := writer record;
               queue := filter (λ req, req ≠ request) (queue record) |} [request]);
    try done; simpl.
  - apply sublist_filter.
  - intros req Hin. rewrite list_elem_of_filter, list_elem_of_singleton.
    destruct (decide (req = request)); [by right|by left].
  - intros req ->%list_elem_of_singleton. split; [done|].
    rewrite list_elem_of_filter. naive_solver.
  - exact (inv_mutex _ HI _ _ Hh).
  - exact (inv_readers _ HI _ _ Hh).
  - intros h0. rewrite Hh'. destruct (decide (h0 = h)) as [->|Hne].
    + rewrite lookup_delete_eq. by rewrite decide_True by left.
    + rewrite lookup_delete_ne by done.
      by rewrite decide_False by (by rewrite list_elem_of_singleton).
Qed.

Lemma onTimeout_unfold i h l r request record w :
  heap w !! l = Some record →
  onTimeout i l r request (clearTimeout h w) =
  processQueue i r
    (cleanup r
       (log i (timeoutMessage (type request) r (sessionId request)) NotAwaited
          (settleAcquire r request (Rejected (timeoutError (type request) r))
             (set_heap <[l := {| readers := readers record; writer := writer record;
                                 queue := filter (λ req, req ≠ request) (queue record) |}]>
                (clearTimeout h w))))).
Proof.
  intros Hh. unfold onTimeout. do 4 f_equal.
  unfold set_heap. simpl. by rewrite (alter_lookup_insert _ _ _ _ Hh).
Qed.

Lemma onTimeout_post i h t l r request w :
  Inv w → timers w !! h = Some t → callback t = RequestTimeout l r request →
  let w' := onTimeout i l r request (clearTimeout h w) in
  othersSame r w w'
  ∧ ∀ l0 record, lookupRecord r w' = Some (l0, record) → settledRecord record.
Proof.
  intros HI Hth Hc. cbv zeta.
  destruct (Inv_timeout_core h t l r request w HI Hth Hc) as (record & Hrl & Hh & Hq & HI1).
  rewrite (onTimeout_unfold _ _ _ _ _ _ _ Hh).
  apply (Inv_settleAcquire r request (Rejected (timeoutError (type request) r))) in HI1.
  apply (Inv_log i (timeoutMessage (type request) r (sessionId request)) NotAwaited) in HI1.
  apply (Inv_cleanup r) in HI1.
  destruct (processQueue_post i r _ HI1) as [Ho Hp]. split; [|exact Hp].
  eapply othersSame_trans; [|exact Ho].
  eapply othersSame_trans; [|apply cleanup_post].
  eapply (lookupRecord_insert r l _ w); [done|done|by wsimpl|by wsimpl].
Qed.

Lemma releaseLockResume_post i r sid w :
  Inv w →
  let w' := releaseLockResume i r sid w in
  othersSame r w w'
  ∧ ∀ l record, lookupRecord r w' = Some (l, record) → settledRecord record.
Proof.
  intros HI. cbv zeta. unfold releaseLockResume.
  destruct (processQueue_post i r w HI) as [Ho Hp].
  destruct (cleanup_post r (processQueue i r w)) as [Ho' Hp'].
  split.
  - eapply othersSame_trans; [exact Ho|]. eapply othersSame_trans; [exact Ho'|].
    by apply othersSame_same.
  - intros l record Hl.
    rewrite (lookupRecord_same r (cleanup r (processQueue i r w))) in Hl by done.
    apply Hp' in Hl as [Hl _]. by eapply Hp.
Qed.

Lemma releaseLock_post i r sid w :
  Inv w →
  let w' := releaseLock i r sid w in
  othersSame r w w'
  ∧ ∀ l record, lookupRecord r w' = Some (l, record) →
      settledRecord record ∨ releasePending r w'.
Proof.
  intros HI. cbv zeta. unfold releaseLock.
  destruct (lookupRecord r w) as [[l record]|] eqn:Hl.
  2:{ split; [by apply othersSame_same|]. intros l record.
      rewrite (lookupRecord_same r w) by done. congruence. }
  pose proof (Inv_release_core r sid l record w HI Hl) as HI2.
  apply (lookupRecord_elem_of _ _ _ _ HI) in Hl as [Hrl Hh].
  cbv zeta.
  match goal with |- context [rejectAll ?a ?b ?c ?d] =>
    assert (othersSame r w (rejectAll a b c d)) as Ho
  end.
  { eapply (lookupRecord_insert r l _ w); [done|done|by wsimpl|by wsimpl]. }
  destruct (_ || _).
  - split.
    + eapply othersSame_trans; [exact Ho|]. apply othersSame_same; by wsimpl.
    + intros l0 rec0 _. right. eexists _, _, sid. wsimpl. apply elem_of_app. right. by left.
  - destruct (releaseLockResume_post i r sid _ HI2) as [Ho2 Hp2]. split.
    + eapply othersSame_trans; [exact Ho|exact Ho2].
    + intros l0 rec0 H0. left. by eapply Hp2.
Qed.

Lemma forceUnlock_post i r c w :
  Inv w →
  let w' := forceUnlock i r c w in
  othersSame r w w'
  ∧ ∀ l record, lookupRecord r w' = Some (l, record) →
      record = emptyRecord ∧ forcePending r w'.
Proof.
  intros HI. cbv zeta. unfold forceUnlock.
  destruct (lookupRecord r w) as [[l record]|] eqn:Hl.
  2:{ assert (∀ r0, lookupRecord r0 (forceUnlockReturn r c Fulfilled w) = lookupRecord r0 w) as Hs.
      { intros r0. apply lookupRecord_same; unfold forceUnlockReturn; by repeat case_match. }
      split; [intros r' _; apply Hs|]. intros l record. rewrite Hs. congruence. }
  apply (lookupRecord_elem_of _ _ _ _ HI) in Hl as [Hrl Hh].
  cbv zeta.
  edestruct (lookupRecord_insert r l emptyRecord w) as [Hr Ho]; [done|done| | |split; [exact Ho|]].
  3:{ intros l0 rec0. rewrite Hr. intros [= <- <-]. split; [done|].
      eexists _, _, c. wsimpl. apply elem_of_app. right. by left. }
  - by wsimpl.
  - wsimpl.
    rewrite (alter_lookup_insert _ _ {| readers := JsMap.clear; writer := None;
                                        queue := queue record |});
      [|by rewrite lookup_insert_eq].
    simpl. by rewrite insert_insert_eq.
Qed.

(** ** Every table entry is settled, or has its rescheduling still to come *)

Lemma coveredAt_frame r w w' :
  lookupRecord r w' = lookupRecord r w → extends w w' → coveredAt r w → coveredAt r w'.
Proof.
  intros Hl He Hc l record H. rewrite Hl in H.
  destruct (Hc _ _ H) as [?|[?|[? ?]]]; [by left | right; left | right; right].
  - by eapply releasePending_extends.
  - split; [done|]. by eapply forcePending_extends.
Qed.

Lemma Covered_touch r w w' :
  (∀ r', r' ≠ r → coveredAt r' w) → othersSame r w w' → extends w w' →
  coveredAt r w' → Covered w'.
Proof.
  intros Hc Ho He Hr r'. destruct (decide (r' = r)) as [->|Hne]; [done|].
  eapply coveredAt_frame; [by apply Ho | done | by apply Hc].
Qed.

Lemma Covered_same w w' :
  locks w' = locks w → heap w' = heap w → extends w w' → Covered w → Covered w'.
Proof.
  intros Hl Hh He Hc r. eapply coveredAt_frame; [by apply lookupRecord_same | done | apply Hc].
Qed.

Lemma coveredAt_delete n t r w :
  tasks w !! n = Some t →
  (∀ line dir sid, t ≠ TLog line dir (InReleaseLock r sid)) →
  (∀ line dir c, t ≠ TLog line dir (InForceUnlock r c)) →
  coveredAt r w → coveredAt r (set_tasks (delete n) w).
Proof.
  intros Hn Hr Hf Hc l record H.
  rewrite (lookupRecord_same r w) in H by done.
  destruct (Hc _ _ H) as [?|[(line & dir & sid & Hin)|[? (line & dir & c & Hin)]]].
  - by left.
  - right; left. exists line, dir, sid. simpl. eapply elem_of_delete_other; [done|done|].
    intros <-. by eapply Hr.
  - right; right. split; [done|]. exists line, dir, c. simpl.
    eapply elem_of_delete_other; [done|done|]. intros <-. by eapply Hf.
Qed.

Lemma catch_ignore_Fulfilled o : catch_ignore o = Fulfilled.
Proof. by destruct o. Qed.

Lemma Covered_clearAllLoop i ids w : Inv w → Covered w → Covered (clearAllLoop i ids w).
Proof.
  intros HI Hc. destruct ids as [|r rest]; simpl.
  - apply (Covered_same w); [by wsimpl|by wsimpl|apply extends_log|done].
  - destruct (forceUnlock_post i r (FromClearAll rest) w HI) as [Ho Hp].
    eapply (Covered_touch r w); [by intros; apply Hc | done | apply extends_forceUnlock |].
    intros l record Hl. right; right. by eapply Hp.
Qed.

Lemma Covered_releaseLock i r sid w : Inv w → Covered w → Covered (releaseLock i r sid w).
Proof.
  intros HI Hc. destruct (releaseLock_post i r sid w HI) as [Ho Hp].
  eapply (Covered_touch r w); [by intros; apply Hc | done | apply extends_releaseLock |].
  intros l record Hl. destruct (Hp _ _ Hl); [by left | by right; left].
Qed.

Lemma Covered_enqueue i r s t a w :
  Inv w → Covered w → Covered (enqueue i r s t (LOCK_TIMEOUT_MS (processEnv w)) a w).
Proof.
  intros HI Hc. destruct (enqueue_post i r s t a w HI) as [Ho Hp].
  eapply (Covered_touch r w); [by intros; apply Hc | done | apply extends_enqueue |].
  intros l record Hl. left. by eapply Hp.
Qed.

Lemma Covered_runTask i n t w :
  Inv w → LogInv w → dirAvailable w → Covered w → tasks w !! n = Some t →
  Covered (runTask i t (set_tasks (delete n) w)).
Proof.
  intros HI HL Hd Hc Hn.
  set (w0 := set_tasks (delete n) w).
  assert (HI0 : Inv w0) by (by apply (Inv_ext w)).
  destruct t as [line dir k|rest|t r s holdMs]; simpl.
  - assert (dir = Fulfilled) as ->.
    { assert (ensureLogDirPromise w = Some dir) as Hp.
      { eapply HL. by eapply list_elem_of_lookup_2. }
      destruct dir as [|e]; [done|]. by apply Hd in Hp. }
    unfold logResume. rewrite catch_ignore_Fulfilled.
    set (w1 := pushRecentLog line w0).
    assert (HI1 : Inv w1) by (by apply Inv_pushRecentLog).
    assert (Hw1 : ∀ r', (∀ sid, k ≠ InReleaseLock r' sid) →
              (∀ c, k ≠ InForceUnlock r' c) → coveredAt r' w1).
    { intros r' Hr Hf. eapply (coveredAt_frame r' w0); [done|by apply extends_same|].
      eapply coveredAt_delete; [done| | |apply Hc].
      - intros ??? [= _ _ ->]. by eapply Hr.
      - intros ??? [= _ _ ->]. by eapply Hf. }
    destruct k as [|r sid|r c|]; simpl.
    + intros r'. by apply Hw1.
    + destruct (releaseLockResume_post i r sid w1 HI1) as [Ho Hp].
      eapply (Covered_touch r w1); [|done|apply extends_releaseLockResume|].
      * intros r' Hne. apply Hw1; [intros ? [= -> _]|]; done.
      * intros l record Hl. left. by eapply Hp.
    + unfold forceUnlockResume.
      destruct (cleanup_post r w1) as [Ho Hp].
      assert (∀ r0, lookupRecord r0 (forceUnlockReturn r c Fulfilled (cleanup r w1))
                    = lookupRecord r0 (cleanup r w1)) as Hs.
      { intros r0. apply lookupRecord_same; unfold forceUnlockReturn; by repeat case_match. }
      assert (extends w1 (forceUnlockReturn r c Fulfilled (cleanup r w1))) as He.
      { eapply extends_trans; [apply extends_cleanup | apply extends_forceUnlockReturn]. }
      eapply (Covered_touch r w1); [| |exact He|].
      * intros r' Hne. apply Hw1; [done|intros ? [= -> ]]; done.
      * intros r' Hne. rewrite Hs. by apply Ho.
      * intros l record Hl. rewrite Hs in Hl. apply Hp in Hl as [Hl Hni].
        rewrite (lookupRecord_same r w) in Hl by done.
        destruct (Hc _ _ _ Hl) as [?|[(line' & dir' & sid & Hin)|[-> _]]];
          [by left| |done].
        right; left. eapply (releasePending_extends r w1); [done|].
        exists line', dir', sid. simpl. by eapply elem_of_delete_other.
    + intros r'. by apply Hw1.
  - apply Covered_clearAllLoop; [done|]. intros r.
    by eapply coveredAt_delete; [done| | |apply Hc].
  - apply (Covered_same w0); [done|done|apply extends_simulateResume|].
    intros r0. by eapply coveredAt_delete; [done| | |apply Hc].
Qed.

Lemma Covered_fireTimer i h t w :
  Inv w → Covered w → timers w !! h = Some t → Covered (fireTimer i h t w).
Proof.
  intros HI Hc Hth. pose proof (extends_fireTimer i h t w) as He.
  unfold fireTimer in *. destruct (callback t) as [l r request|r sid] eqn:Hcb.
  - destruct (onTimeout_post i h t l r request w HI Hth Hcb) as [Ho Hp].
    eapply (Covered_touch r w); [by intros; apply Hc | done | done |].
    intros l0 record Hl. left. by eapply Hp.
  - pose proof (Inv_clear_simulated h t r sid w HI Hth Hcb) as HI0.
    destruct (releaseLock_post i r sid _ HI0) as [Ho Hp].
    eapply (Covered_touch r w); [by intros; apply Hc | | done |].
    + intros r' Hne. by rewrite Ho.
    + intros l0 record Hl. destruct (Hp _ _ Hl); [by left | by right; left].
Qed.

Lemma Covered_step w w' :
  Inv w → LogInv w → dirAvailable w → Covered w → step w w' → Covered w'.
Proof.
  intros HI HL Hd Hc Hs. destruct Hs.
  - by apply Covered_enqueue.
  - by apply Covered_enqueue.
  - by apply Covered_releaseLock.
  - destruct (forceUnlock_post i r FromOutside w HI) as [Ho Hp].
    eapply (Covered_touch r w); [by intros; apply Hc | done | apply extends_forceUnlock |].
    intros l record Hl. right; right. by eapply Hp.
  - by apply Covered_clearAllLoop.
  - by apply Covered_enqueue.
  - by apply Covered_enqueue.
  - apply (Covered_same w); [done|done|by apply extends_same|done].
  - by apply Covered_fireTimer.
  - by apply Covered_runTask.
Qed.

Lemma reachable_Covered e w : reachable e w → dirAvailable w → Covered w.
Proof.
  induction 1 as [|w w' Hr IH Hs]; intros Hd.
  - intros r l record Hl. unfold lookupRecord in Hl. simpl in Hl. done.
  - pose proof (dirAvailable_step _ _ Hs Hd) as Hd0.
    eapply Covered_step; [by eapply reachable_Inv | by eapply reachable_LogInv | done
                         | by apply IH | done].
Qed.

(** ** Example runs are reachable *)

Lemma ex_reader_reachable : reachable env0 ex_reader.
Proof. eapply reachable_step; [apply reachable_new | apply step_acquireReadLock]. Qed.

Lemma ex_reader_writer_reachable : reachable env0 ex_reader_writer.
Proof. eapply reachable_step; [apply ex_reader_reachable | apply step_acquireWriteLock]. Qed.

Lemma ex_reader_then_writer_reachable : reachable env0 ex_reader_then_writer.
Proof. eapply reachable_step; [apply ex_reader_writer_reachable | apply step_acquireReadLock]. Qed.

Lemma ex_writer_reachable : reachable env0 ex_writer.
Proof. eapply reachable_step; [apply reachable_new | apply step_acquireWriteLock]. Qed.

Lemma ex_writer_r_reachable : reachable env0 ex_writer_r.
Proof. eapply reachable_step; [apply ex_writer_reachable | apply step_acquireReadLock]. Qed.

Lemma ex_writer_rr_reachable : reachable env0 ex_writer_rr.
Proof. eapply reachable_step; [apply ex_writer_r_reachable | apply step_acquireReadLock]. Qed.

Lemma ex_writer_rrw_reachable : reachable env0 ex_writer_rrw.
Proof. eapply reachable_step; [apply ex_writer_rr_reachable | apply step_acquireWriteLock]. Qed.

Lemma ex_release_suspended_reachable : reachable env0 ex_release_suspended.
Proof. eapply reachable_step; [apply ex_writer_rrw_reachable | apply step_releaseLock]. Qed.

Example ex_reader_then_writer_record :
  lookupRecord "R" ex_reader_then_writer =
  Some (1, {| readers := [("s1", 1%Z)]; writer := None;
              queue := [request_of write "s2" 3 2; request_of read "s3" 4 3] |}).
Proof. vm_compute. reflexivity. Qed.

Example ex_release_suspended_record :
  lookupRecord "R" ex_release_suspended =
  Some (1, {| readers := []; writer := None;
              queue := [request_of read "s2" 3 2; request_of read "s3" 4 3;
                        request_of write "s4" 5 4] |}).
Proof. vm_compute. reflexivity. Qed.

(** * The claims *)

(** ** C1 to C3: mutual exclusion and the scheduler *)

(** C1. Mutual exclusion: in every world the event loop can reach, by any
    sequence of acquire, release, force-unlock, clear-all and simulate
    calls, timer firings and resumed continuations (the scheduler runs
    inside them), a resource's record never has a writer together with
    readers: an occupied writer slot means an empty reader set, and a
    non-empty reader set an empty writer slot. *)
Theorem C1_mutual_exclusion e w r l record :
  reachable e w → lookupRecord r w = Some (l, record) →
  (writer record ≠ None → readers record = [])
  ∧ (readers record ≠ [] → writer record = None).
Proof.
  intros Hr Hl. apply reachable_Inv in Hr.
  apply lookupRecord_Some in Hl as [_ Hh].
  destruct (inv_mutex _ Hr _ _ Hh) as [Hw|Hrd]; split; intros; congruence.
Qed.

Lemma C1_mutual_exclusion_witness :
  reachable env0 ex_reader_then_writer
  ∧ lookupRecord "R" ex_reader_then_writer =
      Some (1, {| readers := [("s1", 1%Z)]; writer := None;
                  queue := [request_of write "s2" 3 2; request_of read "s3" 4 3] |})
  ∧ ([("s1", 1%Z)] ≠ [] → @None (string * Z) = None).
Proof.
  split; [apply ex_reader_then_writer_reachable|].
  split; [vm_compute; reflexivity|].
  apply (C1_mutual_exclusion env0 ex_reader_then_writer "R" 1
           {| readers := [("s1", 1%Z)]; writer := None;
              queue := [request_of write "s2" 3 2; request_of read "s3" 4 3] |});
    [apply ex_reader_then_writer_reachable | vm_compute; reflexivity].
Defined.

Lemma schedule_prefix t record :
  queue record = (schedule t record).1 ++ queue (schedule t record).2.
Proof.
  unfold schedule. destruct (queue record) as [|next rest] eqn:Eq; simpl; [done|].
  destruct (writer record); simpl; [by rewrite Eq|].
  destruct (type next) eqn:Et; simpl.
  - by rewrite readPrefix_afterReads.
  - case_decide; simpl; by rewrite ?Eq.
Qed.

(** C2. The requests a scheduler pass grants are always a front part of the
    queue, and what it leaves queued is the rest in its order: no request is
    granted ahead of an earlier one.  A write request at the head of the
    queue of a resource without a writer is granted exactly when the reader
    set is empty: then it becomes the writer, leaves the queue, and is the
    only request granted; when there are readers the pass changes nothing
    at all, so the head stays queued and nothing behind it is granted. *)
Theorem C2_write_head i r w l record :
  lookupRecord r w = Some (l, record) →
  (∃ granted remaining,
     queue record = granted ++ remaining
     ∧ outbox (processQueue i r w) = outbox w ++ grantedEvents r granted
     ∧ ∀ l' record', lookupRecord r (processQueue i r w) = Some (l', record') →
         queue record' = remaining)
  ∧ ∀ next rest,
      writer record = None → queue record = next :: rest → type next = write →
      (readers record = [] →
         lookupRecord r (processQueue i r w) =
           Some (l, {| readers := []; writer := Some (sessionId next, now i);
                       queue := rest |})
         ∧ outbox (processQueue i r w) = outbox w ++ [Settled (Acquire r next) Fulfilled])
      ∧ (readers record ≠ [] → processQueue i r w = w).
Proof.
  intros Hl. rewrite (processQueue_schedule _ _ _ _ _ Hl).
  pose proof Hl as [Hg Hh]%lookupRecord_Some. split.
  - destruct (queue record) as [|q0 q] eqn:Hq.
    + exists [], []. split_and!; [done|by wsimpl; rewrite app_nil_r|].
      intros l' record' Hl'. apply cleanup_post in Hl' as [Hl' _].
      rewrite Hl in Hl'. by simplify_eq.
    + exists (schedule (now i) record).1, (queue (schedule (now i) record).2).
      split_and!; [by rewrite <- Hq; apply schedule_prefix | by wsimpl |].
      intros l' record' [Hg' Hh']%lookupRecord_Some. revert Hg' Hh'. wsimpl.
      intros Hg' Hh'. rewrite Hg in Hg'. simplify_eq.
      rewrite lookup_insert_eq in Hh'. by simplify_eq.
  - intros next rest Hw Hq Ht. rewrite Hq. unfold schedule. rewrite Hq, Hw, Ht. split.
    + intros Hrd. rewrite decide_True by done. cbn [fst snd]. split.
      * apply lookupRecord_Some. wsimpl. rewrite Hrd, lookup_insert_eq. done.
      * by wsimpl.
    + intros Hrd. rewrite decide_False by done. cbn [fst snd].
      by rewrite set_heap_id.
Qed.

Lemma C2_write_head_witness :
  lookupRecord "R" ex_reader_then_writer =
    Some (1, {| readers := [("s1", 1%Z)]; writer := None;
                queue := [request_of write "s2" 3 2; request_of read "s3" 4 3] |})
  ∧ processQueue (at_ 9) "R" ex_reader_then_writer = ex_reader_then_writer.
Proof.
  split; [vm_compute; reflexivity|].
  destruct (C2_write_head (at_ 9) "R" ex_reader_then_writer 1
              {| readers := [("s1", 1%Z)]; writer := None;
                 queue := [request_of write "s2" 3 2; request_of read "s3" 4 3] |})
    as [_ H]; [vm_compute; reflexivity|].
  destruct (H (request_of write "s2" 3 2) [request_of read "s3" 4 3]) as [_ H2];
    [reflexivity | reflexivity | reflexivity |].
  apply H2. discriminate.
Defined.

(** C3. When the head of the queue of a resource without a writer is a read
    request, one scheduler pass grants the head and with it exactly the
    longest run of read requests at the front of the queue: the queue is
    the granted run followed by what remains, every granted request is a
    read, each is entered in the reader set and resolved in queue order,
    and what remains is empty or starts with a write request and keeps its
    order. *)
Theorem C3_read_head i r w l record next rest :
  lookupRecord r w = Some (l, record) →
  writer record = None → queue record = next :: rest → type next = read →
  ∃ granted remaining,
    queue record = (next :: granted) ++ remaining
    ∧ Forall (λ req, type req = read) (next :: granted)
    ∧ (remaining = [] ∨ ∃ req q', remaining = req :: q' ∧ type req = write)
    ∧ lookupRecord r (processQueue i r w) =
        Some (l, {| readers := admitReaders (now i) (next :: granted) (readers record);
                    writer := None;
                    queue := remaining |})
    ∧ outbox (processQueue i r w) = outbox w ++ grantedEvents r (next :: granted).
Proof.
  intros Hl Hw Hq Ht. exists (readPrefix rest), (afterReads rest).
  pose proof Hl as [Hg Hh]%lookupRecord_Some.
  rewrite (processQueue_schedule _ _ _ _ _ Hl), Hq.
  unfold schedule. rewrite Hq, Hw, Ht. cbn [fst snd readPrefix afterReads]. rewrite Ht.
  split_and!.
  - simpl. by rewrite readPrefix_afterReads.
  - constructor; [done|apply readPrefix_all_read].
  - apply afterReads_head.
  - apply lookupRecord_Some. wsimpl. by rewrite lookup_insert_eq.
  - by wsimpl.
Qed.

Lemma C3_read_head_witness :
  lookupRecord "R" ex_release_suspended =
    Some (1, {| readers := []; writer := None;
                queue := [request_of read "s2" 3 2; request_of read "s3" 4 3;
                          request_of write "s4" 5 4] |})
  ∧ ∃ granted remaining,
      [request_of read "s2" 3 2; request_of read "s3" 4 3; request_of write "s4" 5 4]
        = (request_of read "s2" 3 2 :: granted) ++ remaining
      ∧ Forall (λ req, type req = read) (request_of read "s2" 3 2 :: granted)
      ∧ (remaining = [] ∨ ∃ req q', remaining = req :: q' ∧ type req = write)
      ∧ lookupRecord "R" (processQueue (at_ 9) "R" ex_release_suspended) =
          Some (1, {| readers := admitReaders 9 (request_of read "s2" 3 2 :: granted) [];
                      writer := None;
                      queue := remaining |})
      ∧ outbox (processQueue (at_ 9) "R" ex_release_suspended) =
          outbox ex_release_suspended
          ++ grantedEvents "R" (request_of read "s2" 3 2 :: granted).
Proof.
  split; [vm_compute; reflexivity|].
  apply (C3_read_head (at_ 9) "R" ex_release_suspended 1
           {| readers := []; writer := None;
              queue := [request_of read "s2" 3 2; request_of read "s3" 4 3;
                        request_of write "s4" 5 4] |}
           (request_of read "s2" 3 2)
           [request_of read "s3" 4 3; request_of write "s4" 5 4]);
    [vm_compute; reflexivity | reflexivity | reflexivity | reflexivity].
Defined.

(** ** C4: time-outs *)

(** The configuration never changes. *)

Lemma getRecord_processEnv r w : processEnv (getRecord r w).2 = processEnv w.
Proof. unfold getRecord. by case_match. Qed.

Lemma enqueue_processEnv i r s t timeout a w :
  processEnv (enqueue i r s t timeout a w) = processEnv w.
Proof.
  unfold enqueue. pose proof (getRecord_processEnv r w) as H.
  destruct (getRecord r w) as [l w1]. by wsimpl.
Qed.

Lemma releaseLock_processEnv i r sid w : processEnv (releaseLock i r sid w) = processEnv w.
Proof.
  unfold releaseLock, releaseLockResume.
  destruct (lookupRecord r w) as [[l record]|]; [|done].
  cbv zeta. destruct (_ || _); by wsimpl.
Qed.

Lemma forceUnlockReturn_processEnv r c o w :
  processEnv (forceUnlockReturn r c o w) = processEnv w.
Proof. unfold forceUnlockReturn. by repeat case_match. Qed.

Lemma forceUnlock_processEnv i r c w : processEnv (forceUnlock i r c w) = processEnv w.
Proof.
  unfold forceUnlock. destruct (lookupRecord r w) as [[l record]|];
    [by wsimpl | apply forceUnlockReturn_processEnv].
Qed.

Lemma clearAllLoop_processEnv i ids w : processEnv (clearAllLoop i ids w) = processEnv w.
Proof. destruct ids; simpl; [by wsimpl | apply forceUnlock_processEnv]. Qed.

Lemma runTask_processEnv i t w : processEnv (runTask i t w) = processEnv w.
Proof.
  destruct t as [line dir k|rest|t r s holdMs]; simpl.
  - unfold logResume. destruct dir; rewrite ?catch_ignore_Fulfilled;
      destruct k as [|r sid|r c|]; simpl; try done;
      unfold releaseLockResume, forceUnlockResume;
      rewrite ?forceUnlockReturn_processEnv; by wsimpl.
  - apply clearAllLoop_processEnv.
  - done.
Qed.

Lemma step_processEnv w w' : step w w' → processEnv w' = processEnv w.
Proof.
  intros Hs. destruct Hs; try apply enqueue_processEnv.
  - apply releaseLock_processEnv.
  - apply forceUnlock_processEnv.
  - apply clearAllLoop_processEnv.
  - done.
  - unfold fireTimer. destruct (callback t).
    + unfold onTimeout. by wsimpl.
    + by rewrite releaseLock_processEnv.
  - by rewrite runTask_processEnv.
Qed.

Lemma reachable_processEnv e w : reachable e w → processEnv w = e.
Proof. induction 1 as [|w w' _ IH Hs]; [done|]. by rewrite (step_processEnv _ _ Hs). Qed.

(** Taking one request out of a queue. *)

Lemma filter_remove_one (request : LockRequest) q :
  NoDup q → request ∈ q →
  ∃ q1 q2, q = q1 ++ request :: q2 ∧ (request ∉ q1 ++ q2)
           ∧ filter (λ req, req ≠ request) q = q1 ++ q2.
Proof.
  intros Hnd Hin. apply list_elem_of_split in Hin as (q1 & q2 & ->).
  exists q1, q2. apply NoDup_app in Hnd as (Hn1 & Hd & Hn2).
  apply NoDup_cons in Hn2 as [Hn2 _].
  assert (request ∉ q1) as Hq1. { intros Hin. apply (Hd _ Hin). left. }
  assert (∀ q : list LockRequest,
            request ∉ q → filter (λ req, req ≠ request) q = q) as Hf.
  { clear. induction q as [|x q IH]; intros Hq; [done|].
    apply not_elem_of_cons in Hq as [Hne Hq].
    rewrite filter_cons, decide_True by done. by rewrite IH. }
  split_and!; [done| |].
  - rewrite elem_of_app. tauto.
  - rewrite filter_app, filter_cons, decide_False by (intros H; by apply H).
    by rewrite !Hf.
Qed.

Lemma last_pushRecentLog line w : last (logBuffer (pushRecentLog line w)) = Some line.
Proof.
  unfold logBuffer, pushRecentLog. simpl. rewrite lookup_insert_eq. simpl.
  case_decide as Hlen; [|apply last_snoc].
  destruct (default [] (arrays w !! recentLogs w)) as [|x b]; simpl in *.
  - unfold MAX_LOG_ENTRIES in Hlen. lia.
  - apply last_snoc.
Qed.

(** X23. A request that is still queued when its timer fires (the timer is
    armed by the acquire, with the delay that [setTimeout] makes of the
    configured one, 5000 ms by default, and stays armed exactly as long as
    the request is queued): firing removes that request and only that
    request from the queue of its resource, rejects the pending acquire
    with the lock-timeout error that names the mode and the resource, hands
    the [TIMEOUT] audit line to [log], and runs [cleanup] and the scheduler
    on the resource.  When the [log] call resumes, the log directory being
    available, the line becomes the newest of the in-memory buffer. *)
Theorem request_timeout_fires e i i' h t l r request w :
  reachable e w →
  timers w !! h = Some t → callback t = RequestTimeout l r request →
  timeoutOutcome e i i' h t l r request w.
Proof.
  intros Hr Hth Hc. pose proof (reachable_processEnv _ _ Hr) as He.
  apply reachable_Inv in Hr.
  destruct (inv_armed _ Hr _ _ _ _ _ Hth Hc) as (Hh' & Hrl & (record & Hh & Hq) & Ha & Hd).
  destruct (filter_remove_one request (queue record)) as (q1 & q2 & Hq12 & Hnot & Hf);
    [by eapply inv_queue_nodup | done |].
  unfold timeoutOutcome. cbv zeta.
  set (line := (now i, timeoutMessage (type request) r (sessionId request))).
  set (w1 := log i line.2 NotAwaited
               (settleAcquire r request (Rejected (timeoutError (type request) r))
                  (set_heap <[l := {| readers := readers record; writer := writer record;
                                      queue := filter (λ req, req ≠ request) (queue record) |}]>
                     (clearTimeout h w)))).
  rewrite He in Hd.
  assert (Hw' : fireTimer i h t w = processQueue i r (cleanup r w1)).
  { unfold fireTimer. rewrite Hc. by apply onTimeout_unfold. }
  assert (Ht1 : tasks w1 = tasks w ++ [TLog line (dirOutcome i w) NotAwaited]).
  { destruct (settleAcquire_rejected_core r request (timeoutError (type request) r)
                (set_heap <[l := {| readers := readers record; writer := writer record;
                                    queue := filter (λ req, req ≠ request) (queue record) |}]>
                   (clearTimeout h w))) as (?&?&?&?&?&?&?&Hta&Hp&?).
    subst w1. wsimpl. rewrite Hta. unfold dirOutcome. by wsimpl. }
  assert (Hn : tasks (fireTimer i h t w) !! length (tasks w)
               = Some (TLog line (dirOutcome i w) NotAwaited)).
  { rewrite Hw'. destruct (extends_processQueue i r (cleanup r w1)) as [[ts Hts] _].
    rewrite Hts, cleanup_tasks, Ht1, <- (assoc_L (++)). by apply list_lookup_middle. }
  exists record, q1, q2, w1.
  edestruct (lookupRecord_insert r l
               {| readers := readers record; writer := writer record;
                  queue := filter (λ req, req ≠ request) (queue record) |} w w1) as [Hl1 Ho1];
    [exact Hr | exact Hrl | | | ].
  3:{ split_and!; try done.
      - by apply lookupRecord_elem_of.
      - intros Hn0. rewrite Hd. unfold LOCK_TIMEOUT_MS. by rewrite Hn0.
      - by rewrite <- Hf.
      - subst w1. by wsimpl.
      - destruct (settleAcquire_rejected_core r request (timeoutError (type request) r)
                    (set_heap <[l := {| readers := readers record; writer := writer record;
                                        queue := filter (λ req, req ≠ request) (queue record) |}]>
                       (clearTimeout h w))) as (?&?&?&?&?&?&?&?&?&Ho).
        subst w1. wsimpl. by rewrite Ho.
      - by apply step_task.
      - intros Hdir. rewrite Hdir. simpl. unfold logResume.
        rewrite catch_ignore_Fulfilled. simpl. apply last_pushRecentLog. }
  - subst w1. by wsimpl.
  - subst w1. by wsimpl.
Qed.

Lemma request_timeout_fires_witness :
  reachable env0 ex_reader_then_writer
  ∧ timers ex_reader_then_writer !! 3 =
      Some {| callback := RequestTimeout 1 "R" (request_of write "s2" 3 2);
              armedAt := 2; delay := 5000 |}
  ∧ timeoutOutcome env0 (at_ 6000) (at_ 6001) 3
      {| callback := RequestTimeout 1 "R" (request_of write "s2" 3 2);
         armedAt := 2; delay := 5000 |}
      1 "R" (request_of write "s2" 3 2) ex_reader_then_writer.
Proof.
  split; [apply ex_reader_then_writer_reachable|].
  split; [vm_compute; reflexivity|].
  apply (request_timeout_fires env0 (at_ 6000) (at_ 6001) 3
           {| callback := RequestTimeout 1 "R" (request_of write "s2" 3 2);
              armedAt := 2; delay := 5000 |}
           1 "R" (request_of write "s2" 3 2) ex_reader_then_writer);
    [apply ex_reader_then_writer_reachable | vm_compute; reflexivity | reflexivity].
Defined.

(** The write request of [s2] waits behind the reader [s1] and blocks the
    read request of [s3]; when it times out, [s3] is granted. *)
Example timeout_unblocks_reads :
  lookupRecord "R"
    (fireTimer (at_ 6000) 3
       {| callback := RequestTimeout 1 "R" (request_of write "s2" 3 2);
          armedAt := 2; delay := 5000 |}
       ex_reader_then_writer)
  = Some (1, {| readers := [("s1", 1%Z); ("s3", 6000%Z)]; writer := None; queue := [] |}).
Proof. vm_compute. reflexivity. Qed.

Lemma ex_nodir_queued_reachable : reachable env0 ex_nodir_queued.
Proof.
  eapply reachable_step; [|apply step_acquireReadLock].
  eapply reachable_step; [apply reachable_new | apply step_acquireWriteLock].
Qed.

(** ** C5: force-unlock *)

(** Snapshots list what the records of the table hold. *)

Section sort_facts.
Context {A : Type} (cmp : A → A → Z).

Lemma elem_of_insertSorted x y l : y ∈ insertSorted cmp x l ↔ y = x ∨ y ∈ l.
Proof.
  induction l as [|z l IH]; simpl.
  - rewrite list_elem_of_singleton. split; [by left|]. intros [?|H]; [done|].
    by apply elem_of_nil in H.
  - case_decide.
    + by rewrite elem_of_cons.
    + rewrite !elem_of_cons, IH. tauto.
Qed.

Lemma elem_of_sort y l : y ∈ sort cmp l ↔ y ∈ l.
Proof.
  unfold sort. induction l as [|x l IH]; simpl; [done|].
  by rewrite elem_of_insertSorted, IH, elem_of_cons.
Qed.

Lemma sort_Permutation l : sort cmp l ≡ₚ l.
Proof.
  unfold sort. induction l as [|x l IH]; simpl; [done|].
  rewrite <- IH at 2. generalize (foldr (insertSorted cmp) [] l). clear.
  intros k. induction k as [|z k IH]; simpl; [done|].
  case_decide; [done|]. rewrite IH. apply Permutation_swap.
Qed.
End sort_facts.

Lemma elem_of_getActiveLocks cmp w s :
  s ∈ (getActiveLocks cmp w).1 ↔ ∃ entry, entry ∈ locks w ∧ s ∈ recordLocks entry w.
Proof.
  unfold getActiveLocks. simpl. rewrite elem_of_sort, list_elem_of_bind. naive_solver.
Qed.

Lemma elem_of_getLockQueue cmp w s :
  s ∈ (getLockQueue cmp w).1 ↔ ∃ entry, entry ∈ locks w ∧ s ∈ recordQueue entry w.
Proof.
  unfold getLockQueue. simpl. rewrite elem_of_sort, list_elem_of_bind. naive_solver.
Qed.

Lemma recordLocks_resourceId entry w s :
  s ∈ recordLocks entry w → ActiveLockSnapshot.resourceId s = entry.1.
Proof.
  unfold recordLocks. destruct (heap w !! entry.2) as [record|]; [|by intros ?%elem_of_nil].
  rewrite elem_of_app. intros [H|H].
  - destruct (writer record) as [[sid at_time]|]; [|by apply elem_of_nil in H].
    apply list_elem_of_singleton in H. by subst.
  - apply list_elem_of_fmap in H as (x & -> & _). done.
Qed.

Lemma recordQueue_resourceId entry w s :
  s ∈ recordQueue entry w → QueueSnapshot.resourceId s = entry.1.
Proof.
  unfold recordQueue. destruct (heap w !! entry.2) as [record|]; [|by intros ?%elem_of_nil].
  intros H. apply list_elem_of_fmap in H as (x & -> & _). done.
Qed.

Lemma absentFromSnapshots_idle cmp r w :
  Inv w →
  (∀ l record, lookupRecord r w = Some (l, record) → record = emptyRecord) →
  absentFromSnapshots cmp r w.
Proof.
  intros HI Hidle.
  assert (∀ l, (r, l) ∈ locks w → heap w !! l = Some emptyRecord) as Hl.
  { intros l Hin. destruct (inv_alloc _ HI _ _ Hin) as [record Hh].
    rewrite Hh. f_equal. eapply Hidle. by apply lookupRecord_elem_of. }
  split; intros s.
  - rewrite elem_of_getActiveLocks. intros ([r0 l0] & Hin & Hs) <-.
    pose proof (recordLocks_resourceId _ _ _ Hs) as Hr. simpl in Hr. subst r0.
    unfold recordLocks in Hs. simpl in Hs. rewrite (Hl _ Hin) in Hs. simpl in Hs.
    by apply elem_of_nil in Hs.
  - rewrite elem_of_getLockQueue. intros ([r0 l0] & Hin & Hs) <-.
    pose proof (recordQueue_resourceId _ _ _ Hs) as Hr. simpl in Hr. subst r0.
    unfold recordQueue in Hs. simpl in Hs. rewrite (Hl _ Hin) in Hs. simpl in Hs.
    by apply elem_of_nil in Hs.
Qed.

Lemma rejectEvents_elem r err req (qs : list LockRequest) :
  req ∈ qs → Settled (Acquire r req) (Rejected (err req)) ∈ rejectEvents r err qs.
Proof.
  intros Hin. unfold rejectEvents. apply list_elem_of_bind. exists req. split; [|done].
  unfold acquireEvents. left.
Qed.



(** One writer and two queued readers: [forceUnlock] rejects both readers
    and, once its audit write is done, the table is empty. *)
Example forceUnlock_writer_and_two_readers :
  let w1 := forceUnlock (at_ 5) "R" FromOutside ex_writer_rr in
  outbox w1 =
    outbox ex_writer_rr
    ++ [Settled (Acquire "R" (request_of read "s2" 3 2))
          (Rejected "Force unlock flushed session s2");
        Settled (Acquire "R" (request_of read "s3" 4 3))
          (Rejected "Force unlock flushed session s3")]
  ∧ last (tasks w1) =
      Some (TLog (5%Z, "FORCE_UNLOCK resource=R sessions=s1") Fulfilled
              (InForceUnlock "R" FromOutside))
  ∧ locks (runTask (at_ 6)
             (TLog (5%Z, "FORCE_UNLOCK resource=R sessions=s1") Fulfilled
                (InForceUnlock "R" FromOutside))
             (set_tasks (delete 4) w1)) = [].
Proof. vm_compute. done. Qed.

Lemma ex_nodir_forced_reachable : reachable env0 ex_nodir_forced.
Proof.
  eapply reachable_step; [|by apply (step_task (failing_ 4) 3)].
  eapply reachable_step; [apply ex_nodir_queued_reachable | apply step_forceUnlock].
Qed.

(** ** C6: release *)

Lemma schedule_granted_time t t' record : (schedule t record).1 = (schedule t' record).1.
Proof. unfold schedule. by repeat case_match. Qed.

Lemma schedule_nothing t record : (schedule t record).1 = [] → (schedule t record).2 = record.
Proof.
  unfold schedule. destruct (queue record) as [|next rest] eqn:Eq; [done|].
  destruct (writer record); [done|]. destruct (type next) eqn:Et; simpl.
  - by rewrite Et.
  - by case_decide.
Qed.

Lemma settled_processQueue i r w l record :
  lookupRecord r w = Some (l, record) → settledRecord record →
  processQueue i r w = w ∧ cleanup r w = w.
Proof.
  intros Hl [Hni Hs]. assert (cleanup r w = w) as Hc.
  { unfold cleanup. by rewrite Hl, Hni. }
  split; [|done]. rewrite (processQueue_schedule _ _ _ _ _ Hl).
  destruct (queue record) eqn:Eq; [done|].
  rewrite (schedule_granted_time _ 0), Hs. simpl.
  rewrite schedule_nothing by (by rewrite (schedule_granted_time _ 0)).
  apply set_heap_id. by apply lookupRecord_Some in Hl as [_ ?].
Qed.

Lemma filter_session_none sid (q : list LockRequest) :
  (∀ req, req ∈ q → sessionId req ≠ sid) →
  filter (λ req, sessionId req ≠ sid) q = q ∧ filter (λ req, sessionId req = sid) q = [].
Proof.
  induction q as [|x q IH]; intros H; [done|].
  destruct IH as [IH1 IH2]. { intros req Hin. apply H. by right. }
  assert (sessionId x ≠ sid) as Hx. { apply H. left. }
  rewrite !filter_cons, decide_True, decide_False by done. by rewrite IH1, IH2.
Qed.

Lemma releaseLock_unfold i r sid w l record :
  lookupRecord r w = Some (l, record) →
  releaseLock i r sid w =
  let w1 :=
    rejectAll r (λ _, cancelError sid) (filter (λ req, sessionId req = sid) (queue record))
      (set_heap <[l := {| readers := JsMap.delete sid (readers record);
                          writer := if bool_decide (fst <$> writer record = Some sid)
                                    then None else writer record;
                          queue := filter (λ req, sessionId req ≠ sid) (queue record) |}]> w) in
  if bool_decide (fst <$> writer record = Some sid) || JsMap.has sid (readers record)
  then log i (releasedMessage r sid) (InReleaseLock r sid) w1
  else settle (Release r sid) Fulfilled (cleanup r (processQueue i r w1)).
Proof. intros Hl. unfold releaseLock. by rewrite Hl. Qed.

Lemma releaseLock_idle_session i r sid w :
  holdsNothing r sid w →
  releaseLock i r sid w = settle (Release r sid) Fulfilled (cleanup r (processQueue i r w)).
Proof.
  intros Hn. destruct (lookupRecord r w) as [[l record]|] eqn:Hl.
  2:{ unfold releaseLock, processQueue. rewrite Hl. unfold cleanup. by rewrite Hl. }
  rewrite (releaseLock_unfold _ _ _ _ _ _ Hl). cbv zeta.
  destruct (Hn _ _ Hl) as (Hrd & Hwr & Hq).
  destruct (filter_session_none sid (queue record) Hq) as [-> ->].
  rewrite (bool_decide_eq_false_2 _ Hwr).
  rewrite (proj2 (JsMap_has_false sid (readers record)) Hrd).
  rewrite (JsMap_delete_absent _ _ Hrd). rewrite rejectAll_nil. cbn [orb].
  assert ({| readers := readers record; writer := writer record; queue := queue record |}
          = record) as -> by (by destruct record).
  by rewrite set_heap_id by (by apply lookupRecord_Some in Hl as [_ ?]).
Qed.

(** C6 (as amended). Releasing for a session that holds nothing and has
    nothing queued on the resource ends in the same turn without error,
    after a scheduler pass and a [cleanup]; it leaves the whole manager as
    it was when the log directory is available and no [releaseLock] or
    [forceUnlock] of that resource is suspended at its audit write.  In
    general release removes the session's reader entry and writer slot,
    rejects its queued requests, and runs the scheduler and [cleanup]: at
    once when no lock was released, after the audit write otherwise. *)
Theorem C6_release e i r sid w :
  reachable e w → releaseOutcome i r sid w.
Proof.
  intros Hr. pose proof (reachable_Inv _ _ Hr) as HI. split_and!.
  - apply releaseLock_idle_session.
  - intros Hn Hd Hnr Hnf. rewrite (releaseLock_idle_session _ _ _ _ Hn).
    destruct (lookupRecord r w) as [[l record]|] eqn:Hl.
    2:{ unfold processQueue. rewrite Hl. unfold cleanup. by rewrite Hl. }
    assert (settledRecord record) as Hs.
    { destruct (reachable_Covered _ _ Hr Hd r l record Hl) as [?|[?|[_ ?]]]; done. }
    by destruct (settled_processQueue i r w l record Hl Hs) as [-> ->].
  - intros l record Hl. eexists. split_and!; [| | |by apply releaseLock_unfold|done].
    + apply lookupRecord_Some. wsimpl. rewrite lookup_insert_eq.
      by apply lookupRecord_Some in Hl as [? _].
    + pose proof Hl as [Hrl Hh]%(lookupRecord_elem_of _ _ _ _ HI).
      eapply (lookupRecord_insert r l _ w); [done|done|by wsimpl|by wsimpl].
    + by wsimpl.
Qed.

Lemma ex_reader_then_writer_tasks :
  tasks ex_reader_then_writer =
    [TLog (1%Z, "QUEUED type=read resource=R session=s1") Fulfilled NotAwaited;
     TLog (1%Z, "ACQUIRED type=read resource=R session=s1") Fulfilled NotAwaited;
     TLog (2%Z, "QUEUED type=write resource=R session=s2") Fulfilled NotAwaited;
     TLog (3%Z, "QUEUED type=read resource=R session=s3") Fulfilled NotAwaited].
Proof. vm_compute. reflexivity. Qed.

Lemma C6_release_witness :
  reachable env0 ex_reader_then_writer
  ∧ releaseOutcome (at_ 9) "R" "s9" ex_reader_then_writer
  ∧ releaseLock (at_ 9) "R" "s9" ex_reader_then_writer
    = settle (Release "R" "s9") Fulfilled ex_reader_then_writer.
Proof.
  split; [apply ex_reader_then_writer_reachable|].
  pose proof (C6_release env0 (at_ 9) "R" "s9" ex_reader_then_writer
                ex_reader_then_writer_reachable) as H.
  split; [exact H|]. destruct H as (_ & H & _). apply H.
  - intros l record Hl. rewrite ex_reader_then_writer_record in Hl.
    injection Hl as <- <-. split_and!; [done|done|].
    intros req Hin. simpl in Hin.
    repeat (apply elem_of_cons in Hin as [->|Hin]; [done|]).
    by apply elem_of_nil in Hin.
  - intros e He. vm_compute in He. discriminate He.
  - intros (line & dir & sid & Hin). rewrite ex_reader_then_writer_tasks in Hin.
    repeat (apply elem_of_cons in Hin as [Hin|Hin]; [discriminate Hin|]).
    by apply elem_of_nil in Hin.
  - intros (line & dir & caller & Hin). rewrite ex_reader_then_writer_tasks in Hin.
    repeat (apply elem_of_cons in Hin as [Hin|Hin]; [discriminate Hin|]).
    by apply elem_of_nil in Hin.
Defined.

(** The claim as the specification states it fails while a release is
    suspended: [s9] holds nothing and has nothing queued on [R], yet its
    [releaseLock] runs the scheduler, which grants the two queued readers. *)
Lemma C6_release_counterexample :
  reachable env0 ex_release_suspended
  ∧ holdsNothing "R" "s9" ex_release_suspended
  ∧ lockTable (releaseLock (at_ 6) "R" "s9" ex_release_suspended)
    ≠ lockTable ex_release_suspended.
Proof.
  split; [apply ex_release_suspended_reachable|]. split.
  - intros l record Hl. rewrite ex_release_suspended_record in Hl.
    injection Hl as <- <-. split_and!; [done|done|].
    intros req Hin. simpl in Hin.
    repeat (apply elem_of_cons in Hin as [->|Hin]; [done|]).
    by apply elem_of_nil in Hin.
  - vm_compute. discriminate.
Qed.

(** ** C7: simulated locks *)

Lemma simulatedGrant_app t r sid h evs evs' :
  simulatedGrant t r sid h evs → simulatedGrant t r sid h (evs ++ evs').
Proof. intros (req & Hin & ?). exists req. split; [|done]. apply elem_of_app. by left. Qed.

Lemma returnsAfterGrant_app evs evs' :
  returnsAfterGrant evs → (∀ t r sid, Settled (Simulate t r sid) Fulfilled ∉ evs') →
  returnsAfterGrant (evs ++ evs').
Proof.
  intros Hr Hn pre post t r sid Heq.
  apply app_eq_app in Heq as [k [[Hk1 Hk2]|[Hk1 Hk2]]].
  - destruct k as [|x k]; simpl in Hk2.
    + exfalso. apply (Hn t r sid). rewrite <- Hk2. left.
    + injection Hk2 as Hx Hp. subst x. by apply (Hr pre k t r sid).
  - exfalso. apply (Hn t r sid). rewrite Hk2. apply elem_of_app. right. left.
Qed.

Lemma returnsAfterGrant_snoc evs t r sid h :
  returnsAfterGrant evs → simulatedGrant t r sid h evs →
  returnsAfterGrant (evs ++ [Settled (Simulate t r sid) Fulfilled]).
Proof.
  intros Hr Hg pre post t' r' sid' Heq.
  apply app_eq_app in Heq as [k [[Hk1 Hk2]|[Hk1 Hk2]]].
  - destruct k as [|x k]; simpl in Hk2.
    + injection Hk2 as -> -> -> _. rewrite app_nil_r in Hk1. subst pre. by exists h.
    + injection Hk2 as Hx Hp. subst x. by apply (Hr pre k t' r' sid').
  - destruct k as [|x k]; simpl in Hk2.
    + injection Hk2 as <- <- <- _. rewrite app_nil_r in Hk1. subst pre. by exists h.
    + injection Hk2 as _ Hp. by destruct k.
Qed.

Ltac solve_nil :=
  intros;
  first [ by apply not_elem_of_nil
        | by match goal with H : _ ∈ [] |- _ => apply elem_of_nil in H end ].

Lemma simStep_refl w : simStep w w.
Proof.
  exists [], []. rewrite !app_nil_r. split_and!; try done; solve_nil.
Qed.

Lemma simStep_trans w1 w2 w3 : simStep w1 w2 → simStep w2 w3 → simStep w1 w3.
Proof.
  intros (e1 & t1 & Ho1 & Ht1 & Hn1 & Hg1) (e2 & t2 & Ho2 & Ht2 & Hn2 & Hg2).
  exists (e1 ++ e2), (t1 ++ t2). split_and!.
  - by rewrite Ho2, Ho1, (assoc_L (++)).
  - by rewrite Ht2, Ht1, (assoc_L (++)).
  - intros t r sid [H|H]%elem_of_app; [by eapply Hn1 | by eapply Hn2].
  - intros t r sid h [H|H]%elem_of_app; [|by apply Hg2].
    rewrite Ho2. by apply simulatedGrant_app, Hg1.
Qed.

Lemma simStep_same w w' : outbox w' = outbox w → tasks w' = tasks w → simStep w w'.
Proof.
  intros Ho Ht. exists [], []. rewrite !app_nil_r.
  split_and!; try done; solve_nil.
Qed.

Lemma simStep_events w w' evs :
  outbox w' = outbox w ++ evs → tasks w' = tasks w →
  (∀ t r sid, Settled (Simulate t r sid) Fulfilled ∉ evs) → simStep w w'.
Proof.
  intros Ho Ht Hn. exists evs, []. rewrite !app_nil_r.
  split_and!; try done. solve_nil.
Qed.

Lemma simStep_tasks w w' ts :
  outbox w' = outbox w → tasks w' = tasks w ++ ts →
  (∀ t r sid h, TSimulate t r sid h ∉ ts) → simStep w w'.
Proof.
  intros Ho Ht Hn. exists [], ts. rewrite !app_nil_r.
  split_and!; try done; [solve_nil|].
  intros t r sid h Hin. by apply Hn in Hin.
Qed.

Lemma SimInv_simStep w w' : SimInv w → simStep w w' → SimInv w'.
Proof.
  intros [H1 H2] (evs & ts & Ho & Ht & Hn & Hg). split.
  - intros t r sid h. rewrite Ht. intros [Hin|Hin]%elem_of_app; [|by apply Hg].
    rewrite Ho. by apply simulatedGrant_app, H1.
  - rewrite Ho. by apply returnsAfterGrant_app.
Qed.

Lemma simStep_log i m k w : simStep w (log i m k w).
Proof.
  eapply simStep_tasks; wsimpl; [done|done|].
  intros t r sid h Hin. by apply list_elem_of_singleton in Hin.
Qed.

Lemma simStep_settleAcquire r q o w : simStep w (settleAcquire r q o w).
Proof.
  unfold settleAcquire, settle. destruct (awaiter q) as [|h] eqn:Ha.
  - eapply simStep_events; simpl; [done|done|].
    intros t r0 sid Hin. by apply list_elem_of_singleton in Hin.
  - destruct o as [|err].
    + exists [Settled (Acquire r q) Fulfilled], [TSimulate (type q) r (sessionId q) h].
      simpl. split_and!; try done.
      * intros t r0 sid Hin. by apply list_elem_of_singleton in Hin.
      * intros t r0 sid h0 Hin. apply list_elem_of_singleton in Hin. simplify_eq.
        exists q. split_and!; try done. apply elem_of_app. right. left.
    + eapply simStep_events; simpl; [by rewrite <- (assoc_L (++))|done|].
      intros t r0 sid Hin. repeat (apply elem_of_cons in Hin as [?|Hin]; [done|]).
      by apply elem_of_nil in Hin.
Qed.

Lemma simStep_resolve i r q w : simStep w (resolve i r q w).
Proof.
  unfold resolve. eapply simStep_trans; [|apply simStep_settleAcquire].
  eapply simStep_trans; [|apply simStep_log]. by apply simStep_same.
Qed.

Lemma simStep_resolveAll i r qs w : simStep w (resolveAll i r qs w).
Proof.
  revert w. induction qs as [|q qs IH]; intros w; [apply simStep_refl|].
  change (resolveAll i r (q :: qs) w) with (resolveAll i r qs (resolve i r q w)).
  eapply simStep_trans; [apply simStep_resolve | apply IH].
Qed.

Lemma simStep_reject r q err w : simStep w (reject r q err w).
Proof.
  unfold reject. eapply simStep_trans; [|apply simStep_settleAcquire]. by apply simStep_same.
Qed.

Lemma simStep_rejectAll r err qs w : simStep w (rejectAll r err qs w).
Proof.
  revert w. induction qs as [|q qs IH]; intros w; [apply simStep_refl|].
  rewrite rejectAll_cons. eapply simStep_trans; [apply simStep_reject | apply IH].
Qed.

Lemma simStep_cleanup r w : simStep w (cleanup r w).
Proof. apply simStep_same; by wsimpl. Qed.

Lemma simStep_processQueue i r w : simStep w (processQueue i r w).
Proof.
  destruct (lookupRecord r w) as [[l record]|] eqn:Hl.
  2:{ unfold processQueue. rewrite Hl. apply simStep_refl. }
  rewrite (processQueue_schedule _ _ _ _ _ Hl).
  destruct (queue record); [apply simStep_cleanup|].
  eapply simStep_trans; [|apply simStep_resolveAll]. by apply simStep_same.
Qed.

Lemma simStep_enqueue i r s t timeout a w : simStep w (enqueue i r s t timeout a w).
Proof.
  unfold enqueue. destruct (getRecord r w) as [l w1] eqn:Eg.
  assert (simStep w w1).
  { unfold getRecord in Eg. destruct (JsMap.get r (locks w)); simplify_eq;
      [apply simStep_refl | by apply simStep_same]. }
  simpl. eapply simStep_trans; [|apply simStep_processQueue].
  eapply simStep_trans; [|apply simStep_log].
  eapply simStep_trans; [done|]. by apply simStep_same.
Qed.

Lemma simStep_settle_other c o w :
  (∀ t r sid, c ≠ Simulate t r sid) → simStep w (settle c o w).
Proof.
  intros Hc. eapply simStep_events; simpl; [done|done|].
  intros t r sid Hin. apply list_elem_of_singleton in Hin. simplify_eq. by eapply Hc.
Qed.

Lemma simStep_releaseLockResume i r sid w : simStep w (releaseLockResume i r sid w).
Proof.
  unfold releaseLockResume. eapply simStep_trans; [|by apply simStep_settle_other].
  eapply simStep_trans; [apply simStep_processQueue | apply simStep_cleanup].
Qed.

Lemma simStep_releaseLock i r sid w : simStep w (releaseLock i r sid w).
Proof.
  unfold releaseLock.
  destruct (lookupRecord r w) as [[l record]|]; [|by apply simStep_settle_other].
  cbv zeta.
  match goal with |- context [rejectAll ?a ?b ?c ?d] =>
    assert (simStep w (rejectAll a b c d)) as He
  end.
  { eapply simStep_trans; [|apply simStep_rejectAll]. by apply simStep_same. }
  destruct (_ || _).
  - eapply simStep_trans; [exact He | apply simStep_log].
  - eapply simStep_trans; [exact He | apply simStep_releaseLockResume].
Qed.

Lemma simStep_forceUnlockReturn r c o w : simStep w (forceUnlockReturn r c o w).
Proof.
  unfold forceUnlockReturn. destruct c; [by apply simStep_settle_other|].
  destruct o; [|by apply simStep_settle_other].
  eapply simStep_tasks; simpl; [done|done|].
  intros t r0 sid h Hin. by apply list_elem_of_singleton in Hin.
Qed.

Lemma simStep_forceUnlock i r c w : simStep w (forceUnlock i r c w).
Proof.
  unfold forceUnlock.
  destruct (lookupRecord r w) as [[l record]|]; [|apply simStep_forceUnlockReturn].
  cbv zeta. eapply simStep_trans; [|apply simStep_log].
  eapply simStep_trans; [|by apply simStep_same].
  eapply simStep_trans; [|apply simStep_rejectAll]. by apply simStep_same.
Qed.

Lemma simStep_clearAllLoop i ids w : simStep w (clearAllLoop i ids w).
Proof. destruct ids; simpl; [apply simStep_log | apply simStep_forceUnlock]. Qed.

Lemma simStep_onTimeout i l r request w : simStep w (onTimeout i l r request w).
Proof.
  unfold onTimeout. eapply simStep_trans; [|apply simStep_processQueue].
  eapply simStep_trans; [|apply simStep_cleanup].
  eapply simStep_trans; [|apply simStep_log].
  eapply simStep_trans; [|apply simStep_settleAcquire]. by apply simStep_same.
Qed.

Lemma simStep_fireTimer i h t w : simStep w (fireTimer i h t w).
Proof.
  unfold fireTimer. destruct (callback t).
  - eapply simStep_trans; [|apply simStep_onTimeout]. by apply simStep_same.
  - eapply simStep_trans; [|apply simStep_releaseLock]. by apply simStep_same.
Qed.

Lemma simStep_logAwaiterResume i k o w : simStep w (logAwaiterResume i k o w).
Proof.
  destruct k, o; simpl; try apply simStep_refl; try (by apply simStep_settle_other).
  - apply simStep_releaseLockResume.
  - unfold forceUnlockResume. eapply simStep_trans; [apply simStep_cleanup|].
    apply simStep_forceUnlockReturn.
  - apply simStep_forceUnlockReturn.
Qed.

Lemma SimInv_delete n w : SimInv w → SimInv (set_tasks (delete n) w).
Proof.
  intros [H1 H2]. split; [|done]. intros t r sid h Hin. simpl in *. apply H1.
  eapply elem_of_sublist; [done|]. apply sublist_delete.
Qed.

Lemma SimInv_runTask i n t w :
  SimInv w → tasks w !! n = Some t → SimInv (runTask i t (set_tasks (delete n) w)).
Proof.
  intros HS Hn. pose proof (SimInv_delete n w HS) as HS0.
  destruct t as [line dir k|rest|t r s holdMs]; simpl.
  - eapply SimInv_simStep; [exact HS0|]. unfold logResume.
    destruct dir; simpl; [|apply simStep_logAwaiterResume].
    rewrite catch_ignore_Fulfilled.
    eapply simStep_trans; [|apply simStep_logAwaiterResume]. by apply simStep_same.
  - eapply SimInv_simStep; [exact HS0|apply simStep_clearAllLoop].
  - destruct HS as [H1 H2]. split.
    + intros t' r' sid' h' Hin. simpl in *. apply simulatedGrant_app.
      apply H1. eapply elem_of_sublist; [done|]. apply sublist_delete.
    + simpl. eapply returnsAfterGrant_snoc; [done|]. apply H1.
      by eapply list_elem_of_lookup_2.
Qed.

Lemma SimInv_step w w' : SimInv w → step w w' → SimInv w'.
Proof.
  intros HS Hs. destruct Hs.
  - eapply SimInv_simStep; [done|apply simStep_enqueue].
  - eapply SimInv_simStep; [done|apply simStep_enqueue].
  - eapply SimInv_simStep; [done|apply simStep_releaseLock].
  - eapply SimInv_simStep; [done|apply simStep_forceUnlock].
  - eapply SimInv_simStep; [done|apply simStep_clearAllLoop].
  - eapply SimInv_simStep; [done|apply simStep_enqueue].
  - eapply SimInv_simStep; [done|apply simStep_enqueue].
  - done.
  - eapply SimInv_simStep; [done|apply simStep_fireTimer].
  - by apply SimInv_runTask.
Qed.

Lemma reachable_SimInv e w : reachable e w → SimInv w.
Proof.
  induction 1; [|by eapply SimInv_step]. split.
  - intros t r sid h Hin. by apply elem_of_nil in Hin.
  - intros pre post t r sid Heq. simpl in Heq. by destruct pre.
Qed.

Lemma processQueue_outbox i r w :
  ∃ granted, outbox (processQueue i r w) = outbox w ++ grantedEvents r granted.
Proof.
  destruct (lookupRecord r w) as [[l record]|] eqn:Hl.
  2:{ unfold processQueue. rewrite Hl. exists []. by rewrite app_nil_r. }
  rewrite (processQueue_schedule _ _ _ _ _ Hl).
  destruct (queue record).
  - exists []. wsimpl. by rewrite app_nil_r.
  - eexists. by wsimpl.
Qed.

Lemma enqueue_outbox i r s t timeout a w :
  ∃ granted, outbox (enqueue i r s t timeout a w) = outbox w ++ grantedEvents r granted.
Proof.
  unfold enqueue. destruct (getRecord r w) as [l w1] eqn:Eg.
  assert (outbox w1 = outbox w) as Ho.
  { unfold getRecord in Eg. by destruct (JsMap.get r (locks w)); simplify_eq. }
  simpl. edestruct processQueue_outbox as [g ->]. exists g. wsimpl. by rewrite Ho.
Qed.

(** Every granted simulate request keeps its continuation. *)

Lemma resumeStep_refl w : resumeStep w w.
Proof. exists [], []. rewrite !app_nil_r. split_and!; try done; solve_nil. Qed.

Lemma resumeStep_trans w1 w2 w3 : resumeStep w1 w2 → resumeStep w2 w3 → resumeStep w1 w3.
Proof.
  intros (e1 & t1 & Ho1 & Ht1 & Hg1) (e2 & t2 & Ho2 & Ht2 & Hg2).
  exists (e1 ++ e2), (t1 ++ t2). split_and!.
  - by rewrite Ho2, Ho1, (assoc_L (++)).
  - by rewrite Ht2, Ht1, (assoc_L (++)).
  - intros r req h [H|H]%elem_of_app Ha; apply elem_of_app; [left|right]; eauto.
Qed.

Lemma resumeStep_same w w' : outbox w' = outbox w → tasks w' = tasks w → resumeStep w w'.
Proof.
  intros Ho Ht. exists [], []. rewrite !app_nil_r. split_and!; try done; solve_nil.
Qed.

Lemma resumeStep_events w w' evs :
  outbox w' = outbox w ++ evs → tasks w' = tasks w →
  (∀ r req, Settled (Acquire r req) Fulfilled ∉ evs) → resumeStep w w'.
Proof.
  intros Ho Ht Hn. exists evs, []. rewrite !app_nil_r. split_and!; try done.
  intros r req h Hin. by apply Hn in Hin.
Qed.

Lemma resumeStep_tasks w w' ts :
  outbox w' = outbox w → tasks w' = tasks w ++ ts → resumeStep w w'.
Proof.
  intros Ho Ht. exists [], ts. rewrite !app_nil_r. split_and!; try done; solve_nil.
Qed.

Lemma ResumeInv_resumeStep w w' : ResumeInv w → resumeStep w w' → ResumeInv w'.
Proof.
  intros HR (evs & ts & Ho & Ht & Hg) r req h. rewrite Ho, Ht.
  intros [Hin|Hin]%elem_of_app Ha.
  - destruct (HR r req h Hin Ha) as [?|?]; [left|right]; apply elem_of_app; by left.
  - left. apply elem_of_app. right. by eapply Hg.
Qed.

Lemma resumeStep_log i m k w : resumeStep w (log i m k w).
Proof. eapply resumeStep_tasks; by wsimpl. Qed.

Lemma resumeStep_settleAcquire r q o w : resumeStep w (settleAcquire r q o w).
Proof.
  unfold settleAcquire, settle. destruct (awaiter q) as [|h] eqn:Ha.
  - exists [Settled (Acquire r q) o], []. simpl. rewrite app_nil_r. split_and!; try done.
    intros r0 req h Hin Hreq. apply list_elem_of_singleton in Hin. simplify_eq. congruence.
  - destruct o as [|err].
    + exists [Settled (Acquire r q) Fulfilled], [TSimulate (type q) r (sessionId q) h].
      simpl. split_and!; try done.
      intros r0 req h0 Hin Hreq. apply list_elem_of_singleton in Hin. simplify_eq.
      apply list_elem_of_singleton. congruence.
    + eapply resumeStep_events; simpl; [by rewrite <- (assoc_L (++))|done|].
      intros r0 req Hin. repeat (apply elem_of_cons in Hin as [?|Hin]; [done|]).
      by apply elem_of_nil in Hin.
Qed.

Lemma resumeStep_resolve i r q w : resumeStep w (resolve i r q w).
Proof.
  unfold resolve. eapply resumeStep_trans; [|apply resumeStep_settleAcquire].
  eapply resumeStep_trans; [|apply resumeStep_log]. by apply resumeStep_same.
Qed.

Lemma resumeStep_resolveAll i r qs w : resumeStep w (resolveAll i r qs w).
Proof.
  revert w. induction qs as [|q qs IH]; intros w; [apply resumeStep_refl|].
  change (resolveAll i r (q :: qs) w) with (resolveAll i r qs (resolve i r q w)).
  eapply resumeStep_trans; [apply resumeStep_resolve | apply IH].
Qed.

Lemma resumeStep_reject r q err w : resumeStep w (reject r q err w).
Proof.
  unfold reject. eapply resumeStep_trans; [|apply resumeStep_settleAcquire].
  by apply resumeStep_same.
Qed.

Lemma resumeStep_rejectAll r err qs w : resumeStep w (rejectAll r err qs w).
Proof.
  revert w. induction qs as [|q qs IH]; intros w; [apply resumeStep_refl|].
  rewrite rejectAll_cons. eapply resumeStep_trans; [apply resumeStep_reject | apply IH].
Qed.

Lemma resumeStep_cleanup r w : resumeStep w (cleanup r w).
Proof. apply resumeStep_same; by wsimpl. Qed.

Lemma resumeStep_processQueue i r w : resumeStep w (processQueue i r w).
Proof.
  destruct (lookupRecord r w) as [[l record]|] eqn:Hl.
  2:{ unfold processQueue. rewrite Hl. apply resumeStep_refl. }
  rewrite (processQueue_schedule _ _ _ _ _ Hl).
  destruct (queue record); [apply resumeStep_cleanup|].
  eapply resumeStep_trans; [|apply resumeStep_resolveAll]. by apply resumeStep_same.
Qed.

Lemma resumeStep_enqueue i r s t timeout a w : resumeStep w (enqueue i r s t timeout a w).
Proof.
  unfold enqueue. destruct (getRecord r w) as [l w1] eqn:Eg.
  assert (resumeStep w w1).
  { unfold getRecord in Eg. destruct (JsMap.get r (locks w)); simplify_eq;
      [apply resumeStep_refl | by apply resumeStep_same]. }
  simpl. eapply resumeStep_trans; [|apply resumeStep_processQueue].
  eapply resumeStep_trans; [|apply resumeStep_log].
  eapply resumeStep_trans; [done|]. by apply resumeStep_same.
Qed.

Lemma resumeStep_settle_other c o w :
  (∀ r req, c ≠ Acquire r req) → resumeStep w (settle c o w).
Proof.
  intros Hc. eapply resumeStep_events; simpl; [done|done|].
  intros r req Hin. apply list_elem_of_singleton in Hin. simplify_eq. by eapply Hc.
Qed.

Lemma resumeStep_releaseLockResume i r sid w : resumeStep w (releaseLockResume i r sid w).
Proof.
  unfold releaseLockResume. eapply resumeStep_trans; [|by apply resumeStep_settle_other].
  eapply resumeStep_trans; [apply resumeStep_processQueue | apply resumeStep_cleanup].
Qed.

Lemma resumeStep_releaseLock i r sid w : resumeStep w (releaseLock i r sid w).
Proof.
  unfold releaseLock.
  destruct (lookupRecord r w) as [[l record]|]; [|by apply resumeStep_settle_other].
  cbv zeta.
  match goal with |- context [rejectAll ?a ?b ?c ?d] =>
    assert (resumeStep w (rejectAll a b c d)) as He
  end.
  { eapply resumeStep_trans; [|apply resumeStep_rejectAll]. by apply resumeStep_same. }
  destruct (_ || _).
  - eapply resumeStep_trans; [exact He | apply resumeStep_log].
  - eapply resumeStep_trans; [exact He | apply resumeStep_releaseLockResume].
Qed.

Lemma resumeStep_forceUnlockReturn r c o w : resumeStep w (forceUnlockReturn r c o w).
Proof.
  unfold forceUnlockReturn. destruct c; [by apply resumeStep_settle_other|].
  destruct o; [|by apply resumeStep_settle_other].
  eapply resumeStep_tasks; simpl; done.
Qed.

Lemma resumeStep_forceUnlock i r c w : resumeStep w (forceUnlock i r c w).
Proof.
  unfold forceUnlock.
  destruct (lookupRecord r w) as [[l record]|]; [|apply resumeStep_forceUnlockReturn].
  cbv zeta. eapply resumeStep_trans; [|apply resumeStep_log].
  eapply resumeStep_trans; [|by apply resumeStep_same].
  eapply resumeStep_trans; [|apply resumeStep_rejectAll]. by apply resumeStep_same.
Qed.

Lemma resumeStep_clearAllLoop i ids w : resumeStep w (clearAllLoop i ids w).
Proof. destruct ids; simpl; [apply resumeStep_log | apply resumeStep_forceUnlock]. Qed.

Lemma resumeStep_onTimeout i l r request w : resumeStep w (onTimeout i l r request w).
Proof.
  unfold onTimeout. eapply resumeStep_trans; [|apply resumeStep_processQueue].
  eapply resumeStep_trans; [|apply resumeStep_cleanup].
  eapply resumeStep_trans; [|apply resumeStep_log].
  eapply resumeStep_trans; [|apply resumeStep_settleAcquire]. by apply resumeStep_same.
Qed.

Lemma resumeStep_fireTimer i h t w : resumeStep w (fireTimer i h t w).
Proof.
  unfold fireTimer. destruct (callback t).
  - eapply resumeStep_trans; [|apply resumeStep_onTimeout]. by apply resumeStep_same.
  - eapply resumeStep_trans; [|apply resumeStep_releaseLock]. by apply resumeStep_same.
Qed.

Lemma resumeStep_logAwaiterResume i k o w : resumeStep w (logAwaiterResume i k o w).
Proof.
  destruct k, o; simpl; try apply resumeStep_refl; try (by apply resumeStep_settle_other).
  - apply resumeStep_releaseLockResume.
  - unfold forceUnlockResume. eapply resumeStep_trans; [apply resumeStep_cleanup|].
    apply resumeStep_forceUnlockReturn.
  - apply resumeStep_forceUnlockReturn.
Qed.

Lemma ResumeInv_runTask i n t w :
  ResumeInv w → tasks w !! n = Some t → ResumeInv (runTask i t (set_tasks (delete n) w)).
Proof.
  intros HR Hn.
  assert (Hother : (∀ t0 r s h, t ≠ TSimulate t0 r s h) → ResumeInv (set_tasks (delete n) w)).
  { intros Hne r req h Hin Ha. destruct (HR r req h Hin Ha) as [Ht|?]; [left|by right].
    simpl. eapply elem_of_delete_other; [done|done|]. intros <-. by eapply Hne. }
  destruct t as [line dir k|rest|t r s holdMs]; simpl.
  - eapply ResumeInv_resumeStep; [by apply Hother|]. unfold logResume.
    destruct dir; simpl; [|apply resumeStep_logAwaiterResume].
    rewrite catch_ignore_Fulfilled.
    eapply resumeStep_trans; [|apply resumeStep_logAwaiterResume]. by apply resumeStep_same.
  - eapply ResumeInv_resumeStep; [by apply Hother|apply resumeStep_clearAllLoop].
  - intros r' req h Hin Ha. unfold simulateResume, setTimeout, settle in *. simpl in *.
    apply elem_of_app in Hin as [Hin|Hin].
    2:{ apply list_elem_of_singleton in Hin. discriminate Hin. }
    destruct (HR r' req h Hin Ha) as [Ht|?].
    2:{ right. apply elem_of_app. by left. }
    destruct (decide (type req = t ∧ r' = r ∧ sessionId req = s ∧ h = holdMs))
      as [(<- & -> & <- & ->)|Hne].
    + right. apply elem_of_app. right. by left.
    + left. eapply elem_of_delete_other; [done|done|].
      intros [= ? ? ? ?]. by apply Hne.
Qed.

Lemma ResumeInv_step w w' : ResumeInv w → step w w' → ResumeInv w'.
Proof.
  intros HS Hs. destruct Hs.
  - eapply ResumeInv_resumeStep; [done|apply resumeStep_enqueue].
  - eapply ResumeInv_resumeStep; [done|apply resumeStep_enqueue].
  - eapply ResumeInv_resumeStep; [done|apply resumeStep_releaseLock].
  - eapply ResumeInv_resumeStep; [done|apply resumeStep_forceUnlock].
  - eapply ResumeInv_resumeStep; [done|apply resumeStep_clearAllLoop].
  - eapply ResumeInv_resumeStep; [done|apply resumeStep_enqueue].
  - eapply ResumeInv_resumeStep; [done|apply resumeStep_enqueue].
  - done.
  - eapply ResumeInv_resumeStep; [done|apply resumeStep_fireTimer].
  - by apply ResumeInv_runTask.
Qed.

Lemma reachable_ResumeInv e w : reachable e w → ResumeInv w.
Proof.
  induction 1; [|by eapply ResumeInv_step].
  intros r req h Hin. by apply elem_of_nil in Hin.
Qed.

Lemma timerDelay_ms z : (1 ≤ z ≤ TIMEOUT_MAX)%Z → timerDelay (ms z) = z.
Proof.
  intros [H1 H2]. unfold timerDelay, ms.
  assert (Qle_bool 1 (inject_Z z) = true) as ->.
  { apply Qle_bool_iff. change 1%Q with (inject_Z 1). by rewrite <- Zle_Qle. }
  assert (Qle_bool (inject_Z z) (inject_Z TIMEOUT_MAX) = true) as ->.
  { apply Qle_bool_iff. by rewrite <- Zle_Qle. }
  simpl. apply Qfloor_Z.
Qed.

(** C7 (as amended). A simulate call generates a new session id and
    enqueues a request for it under the normal queueing and time-out rules;
    it returns nothing when it is made.  When the request is granted, the
    continuation of the call is left to run, and only then does it run: it
    arms the timer of the automatic release, with the delay that
    [setTimeout] makes of the hold time, and returns the session id.  So
    every session id a simulate call has returned was returned after its
    grant, and every granted simulate request has its continuation waiting
    unless the call has returned.  When the request is rejected instead,
    the call is rejected with the same error, returns no id and arms no
    timer. *)
Theorem C7_simulate e t i uuid r holdMs w :
  reachable e w → simulateOutcome e t i uuid r holdMs w.
Proof.
  intros Hr. pose proof (reachable_processEnv _ _ Hr) as He.
  unfold simulateOutcome. cbv zeta. split_and!.
  - unfold simulateLock. by rewrite He.
  - apply enqueue_outbox.
  - eapply SimInv_simStep; [by eapply reachable_SimInv | apply simStep_enqueue].
  - eapply ResumeInv_resumeStep; [by eapply reachable_ResumeInv | apply resumeStep_enqueue].
  - intros i' req w1 Ha. unfold resolve, settleAcquire, settle. rewrite Ha. simpl.
    split; [by wsimpl|]. wsimpl. unfold dirOutcome. wsimpl.
    by rewrite <- (assoc_L (++)).
  - intros i' n w1 Hn. split_and!; [by apply step_task| |done|done].
    unfold simulateResume, setTimeout. done.
  - intros z -> Hz. by apply timerDelay_ms.
  - intros req err w1 Ha.
    destruct (settleAcquire_rejected_core r req err w1) as (?&?&?&?&?&?&?&?&?&Ho).
    split_and!; try done. rewrite Ho. unfold acquireEvents. by rewrite Ha.
Qed.

Lemma C7_simulate_witness :
  reachable env0 ex_writer
  ∧ simulateOutcome env0 read (at_ 2) "u1" "R" None ex_writer.
Proof.
  split; [apply ex_writer_reachable|].
  apply (C7_simulate env0 read (at_ 2) "u1" "R" None ex_writer).
  apply ex_writer_reachable.
Defined.

(** The claim as the specification states it fails: a simulated read on a
    resource held by a writer is queued, and the call has returned nothing;
    when the request times out the call is rejected, so the session id is
    never returned. *)
Lemma C7_simulate_counterexample :
  reachable env0 ex_simulate_queued
  ∧ lookupRecord "R" ex_simulate_queued =
    Some (1, {| readers := []; writer := Some ("s1", 1%Z); queue := [ex_simulate_request] |})
  ∧ outbox ex_simulate_queued = outbox ex_writer
  ∧ (Settled (Simulate read "R" "sim-read-u1") Fulfilled ∉ outbox ex_simulate_queued)
  ∧ timers ex_simulate_queued !! 3 = Some ex_simulate_timer
  ∧ outbox (fireTimer (at_ 5002) 3 ex_simulate_timer ex_simulate_queued) =
      outbox ex_writer
      ++ [Settled (Acquire "R" ex_simulate_request)
            (Rejected "Lock acquisition timeout for read lock on R");
          Settled (Simulate read "R" "sim-read-u1")
            (Rejected "Lock acquisition timeout for read lock on R")].
Proof.
  split.
  { eapply reachable_step; [apply ex_writer_reachable | apply step_simulateReadLock]. }
  split_and!; try (vm_compute; reflexivity).
  vm_compute. intros Hin.
  repeat (apply elem_of_cons in Hin as [Hin|Hin]; [discriminate Hin|]).
  by apply elem_of_nil in Hin.
Qed.

(** ** C8: failures of the audit write *)

(** A failing [fs.appendFile] is swallowed by the [catch]: the line goes to
    the in-memory buffer and the awaiting operation goes on, whatever
    [appendFile] does. *)
Lemma appendFile_failure_ignored i line w :
  logResume i line Fulfilled w = (Fulfilled, pushRecentLog line w).
Proof. unfold logResume. by rewrite catch_ignore_Fulfilled. Qed.

(** A failing [fs.mkdir] is not: the promise of [ensureLogDir] is awaited
    outside the [catch], so [log] throws, nothing is pushed, and what awaits
    the [log] call is rejected without running. *)
Lemma mkdir_failure_propagates i line e k w :
  runTask i (TLog line (Rejected e) k) w =
  match k with
  | NotAwaited => settle Unawaited (Rejected e) w
  | InReleaseLock r sid => settle (Release r sid) (Rejected e) w
  | InForceUnlock r caller => forceUnlockReturn r caller (Rejected e) w
  | InClearAll => settle ClearAll (Rejected e) w
  end.
Proof. by destruct k. Qed.

Lemma ex_nodir_released_reachable : reachable env0 ex_nodir_released.
Proof.
  eapply reachable_step; [|by apply (step_task (failing_ 4) 3)].
  eapply reachable_step; [|apply step_releaseLock].
  eapply reachable_step; [|apply step_acquireReadLock].
  eapply reachable_step; [apply reachable_new | apply step_acquireWriteLock].
Qed.

(** C8, evaluated where the code departs from it: in a process that cannot
    create its log directory, [releaseLock] by the writer [s1] is rejected
    with the error of [fs.mkdir]; the scheduler is not run, so the reader
    [s2] stays queued on a resource that nobody holds; and the in-memory
    buffer has no line.  Where the directory can be created the same run
    ends without error, [s2] holds the lock and the buffer has the
    [RELEASED] line. *)
Theorem C8_mkdir_failure_rejects_release :
  reachable env0 ex_nodir_released
  ∧ last (outbox ex_nodir_released) =
      Some (Settled (Release "R" "s1") (Rejected mkdirError))
  ∧ lookupRecord "R" ex_nodir_released =
      Some (1, {| readers := []; writer := None;
                  queue := [request_of read "s2" 3 2] |})
  ∧ logBuffer ex_nodir_released = []
  ∧ last (outbox ex_dir_released) = Some (Settled (Release "R" "s1") Fulfilled)
  ∧ lookupRecord "R" ex_dir_released =
      Some (1, {| readers := [("s2", 4%Z)]; writer := None; queue := [] |})
  ∧ logBuffer ex_dir_released = [(3%Z, "RELEASED resource=R session=s1")].
Proof.
  split; [apply ex_nodir_released_reachable|].
  split_and!; vm_compute; reflexivity.
Qed.

(** ** C9: table entries *)

Lemma ex_sole_release_reachable : reachable env0 ex_sole_release.
Proof. eapply reachable_step; [apply ex_writer_reachable | apply step_releaseLock]. Qed.

(** C9 (as amended). In every reachable world a record with a reader, a
    writer or a queued request is in the table.  Where the log directory is
    available, every table entry has a reader, a writer or a queued request
    unless a [releaseLock] or [forceUnlock] of its resource is suspended at
    its audit write; and when nothing is suspended a resource has an entry
    if and only if it has a reader, a writer or a queued request. *)
Theorem C9_table_entries e w :
  reachable e w → entriesOutcome w.
Proof.
  intros Hr. pose proof (reachable_Inv _ _ Hr) as HI. split.
  { intros l record Hh Hni. destruct (inv_detached _ HI _ _ Hh) as [[r Hin]| ->].
    - exists r. apply JsMap_elem_of_get; [by apply inv_keys|done].
    - by apply not_true_iff_false in Hni. }
  intros Hd. pose proof (reachable_Covered _ _ Hr Hd) as Hc.
  assert (Hentry : ∀ r l, JsMap.get r (locks w) = Some l →
            ∃ record, heap w !! l = Some record
              ∧ (isIdle record = false ∨ releasePending r w ∨ forcePending r w)).
  { intros r l Hg. pose proof (JsMap_get_Some_elem_of _ _ _ Hg) as Hin.
    destruct (inv_alloc _ HI _ _ Hin) as [record Hh]. exists record. split; [done|].
    destruct (Hc r l record) as [[? _]|[?|[_ ?]]]; [by apply lookupRecord_Some| | |]; tauto. }
  split; [done|].
  intros Hq r. split.
  - intros [l Hg]. destruct (Hentry _ _ Hg) as (record & Hh & [?|[?|?]]).
    + exists l, record. split; [by apply lookupRecord_Some|done].
    + by destruct (Hq r) as [? _].
    + by destruct (Hq r) as [_ ?].
  - intros (l & record & [Hg _]%lookupRecord_Some & _). eauto.
Qed.

Lemma C9_table_entries_witness :
  reachable env0 ex_reader_then_writer
  ∧ entriesOutcome ex_reader_then_writer.
Proof.
  split; [apply ex_reader_then_writer_reachable|].
  apply (C9_table_entries env0 ex_reader_then_writer).
  apply ex_reader_then_writer_reachable.
Defined.

(** The claim as the specification states it fails while the release of
    the only holder is suspended at its audit write: [R] has its table
    entry, and neither a reader, nor a writer, nor a queued request. *)
Lemma C9_table_entries_counterexample :
  reachable env0 ex_sole_release
  ∧ is_Some (JsMap.get "R" (locks ex_sole_release))
  ∧ lookupRecord "R" ex_sole_release =
      Some (1, {| readers := []; writer := None; queue := [] |}).
Proof.
  split; [apply ex_sole_release_reachable|].
  split; [by exists 1|]. vm_compute. reflexivity.
Qed.

(** ** C10: snapshot queries *)

Lemma sameManager_refl w : sameManager w w.
Proof. unfold sameManager. by split_and!. Qed.

Lemma sameManager_getRecentLogs w w' :
  recentLogs w < fresh w → fresh w ≤ fresh w' → sameManager w w' →
  sameManager w (getRecentLogs w').2 ∧ fresh w' ≤ fresh (getRecentLogs w').2.
Proof.
  intros Hlt Hle (?&?&?&Hr&Hb&?&?&?&?&Ha). unfold sameManager, logBuffer in *. simpl.
  split; [|lia]. split_and!; try done.
  - rewrite <- Hb. f_equal. rewrite lookup_alter_ne by (rewrite Hr; lia).
    rewrite lookup_insert_ne by (rewrite Hr; lia). done.
  - intros a Hlta. rewrite lookup_alter_ne by lia. rewrite lookup_insert_ne by lia.
    by apply Ha.
Qed.

Lemma sameManager_queries w qs w' :
  recentLogs w < fresh w → fresh w ≤ fresh w' → sameManager w w' →
  sameManager w (foldl runQuery w' qs).
Proof.
  intros Hlt. revert w'. induction qs as [|q qs IH]; intros w' Hle Hs; [done|].
  simpl. destruct q; simpl; try by apply IH.
  destruct (sameManager_getRecentLogs w w' Hlt Hle Hs) as [Hs' Hle'].
  apply IH; [|done]. simpl in *. lia.
Qed.

(** C10. The snapshot queries change nothing of the manager: after any
    number of them, in any order, the table, every record and queue, the
    timers, the suspended work and the log buffer with its contents are as
    before; [getActiveLocks] and [getLockQueue] leave the whole world as it
    is, and [getRecentLogs] only allocates the array it returns, which is
    not the internal buffer: it holds the buffer's lines in reverse, and
    whatever the caller writes into it leaves the buffer as it is. *)
Theorem C10_queries_do_not_mutate e w :
  reachable e w → queriesOutcome w.
Proof.
  intros Hr. apply reachable_Inv in Hr. pose proof (inv_recentLogs _ Hr) as Hlt.
  unfold queriesOutcome. split_and!.
  - intros qs. apply sameManager_queries; [done|done|apply sameManager_refl].
  - done.
  - done.
  - simpl. lia.
  - simpl. rewrite lookup_alter_eq, lookup_insert_eq. done.
  - intros contents. unfold logBuffer. simpl.
    rewrite lookup_insert_ne by lia. rewrite lookup_alter_ne by lia.
    rewrite lookup_insert_ne by lia. done.
Qed.

Lemma C10_queries_do_not_mutate_witness :
  reachable env0 ex_reader_then_writer
  ∧ queriesOutcome ex_reader_then_writer.
Proof.
  split; [apply ex_reader_then_writer_reachable|].
  apply (C10_queries_do_not_mutate env0 ex_reader_then_writer).
  apply ex_reader_then_writer_reachable.
Defined.

(** * Further properties *)

(** ** The example runs *)

Lemma ex_simulated_reachable : reachable env0 ex_simulated.
Proof.
  eapply reachable_step; [eapply reachable_step; [apply reachable_new|]|].
  - apply (step_simulateWriteLock (at_ 1) "u1" "R" None).
  - by apply (step_task (at_ 2) 2 (TSimulate write "R" "sim-write-u1" (ms 15000))).
Qed.

Lemma ex_timed_out_step : step ex_reader_then_writer ex_timed_out.
Proof. apply step_timer; [vm_compute; reflexivity|simpl; lia]. Qed.

Lemma ex_reader_then_writer_lookup :
  lookupRecord "R" ex_reader_then_writer = Some (1, ex_reader_record).
Proof. vm_compute. reflexivity. Qed.

Lemma ex_writer_rrw_lookup : lookupRecord "R" ex_writer_rrw = Some (1, ex_writer_record).
Proof. vm_compute. reflexivity. Qed.

Lemma ex_reader_uncontended : uncontended "R" ex_reader.
Proof. intros l record. vm_compute. by intros [= <- <-]. Qed.

(** ** Every acquire promise is settled exactly once *)

Lemma settledRequests_app evs evs' :
  settledRequests (evs ++ evs') = settledRequests evs ++ settledRequests evs'.
Proof. unfold settledRequests. by rewrite bind_app. Qed.

Lemma settledRequests_granted r qs :
  settledRequests (grantedEvents r qs) = (λ req, (r, req)) <$> qs.
Proof.
  unfold settledRequests, grantedEvents. induction qs as [|q qs IH]; [done|].
  cbn [map]. rewrite bind_cons, fmap_cons, IH. done.
Qed.

Lemma settledRequests_rejected r err qs :
  settledRequests (rejectEvents r err qs) = (λ req, (r, req)) <$> qs.
Proof.
  unfold rejectEvents. induction qs as [|q qs IH]; [done|].
  rewrite bind_cons, settledRequests_app, IH. rewrite fmap_cons.
  replace (settledRequests (acquireEvents r q (Rejected (err q)))) with [(r, q)]; [done|].
  unfold acquireEvents, settledRequests. destruct (awaiter q); done.
Qed.

Lemma ledgerStep_refl w : ledgerStep w w.
Proof. split; [done|]. exists []. split_and!; [done|constructor|]. by intros p ?%elem_of_nil. Qed.

Lemma ledgerStep_trans w1 w2 w3 : ledgerStep w1 w2 → ledgerStep w2 w3 → ledgerStep w1 w3.
Proof.
  intros (Hf1 & n1 & Hp1 & Hn1 & Ht1) (Hf2 & n2 & Hp2 & Hn2 & Ht2).
  split; [lia|]. exists (n2 ++ n1). split_and!.
  - rewrite Hp2, Hp1. by rewrite (assoc_L (++)).
  - apply NoDup_app. split_and!; [done| |done].
    intros p H2 H1. apply Ht1 in H1. apply Ht2 in H2. lia.
  - intros p [H|H]%elem_of_app; [apply Ht2 in H|apply Ht1 in H]; lia.
Qed.

Lemma ledgerStep_perm w w' :
  fresh w ≤ fresh w' → ledger w' ≡ₚ ledger w → ledgerStep w w'.
Proof.
  intros Hf Hp. split; [done|]. exists []. split_and!; [done|constructor|].
  by intros p ?%elem_of_nil.
Qed.

Lemma ledgerStep_same w w' :
  locks w' = locks w → heap w' = heap w → outbox w' = outbox w → fresh w ≤ fresh w' →
  ledgerStep w w'.
Proof.
  intros Hl Hh Ho Hf. apply ledgerStep_perm; [done|].
  unfold ledger, queuedRequests, recordRequests. by rewrite Hl, Hh, Ho.
Qed.

Lemma recordRequests_insert_ne entry l x w w' :
  entry.2 ≠ l → heap w' = <[l := x]> (heap w) →
  recordRequests entry w' = recordRequests entry w.
Proof. intros Hne Hh. unfold recordRequests. by rewrite Hh, lookup_insert_ne. Qed.

(** The requests queued in a world, with those of one record set apart. *)
Lemma queuedRequests_insert w w' r l record record' :
  NoDup (locks w).*2 → (r, l) ∈ locks w → heap w !! l = Some record →
  locks w' = locks w → heap w' = <[l := record']> (heap w) →
  ∃ others,
    queuedRequests w ≡ₚ ((λ req, (r, req)) <$> queue record) ++ others
    ∧ queuedRequests w' ≡ₚ ((λ req, (r, req)) <$> queue record') ++ others.
Proof.
  intros Hnd Hin Hh Hl Hh'. unfold queuedRequests. rewrite Hl. clear Hl.
  revert Hnd Hin. generalize (locks w). intros m.
  induction m as [|[r0 l0] m IH]; intros Hnd Hin; [by apply elem_of_nil in Hin|].
  rewrite fmap_cons in Hnd. apply NoDup_cons in Hnd as [Hnotin Hnd].
  rewrite !bind_cons. apply elem_of_cons in Hin as [[= <- <-]|Hin].
  - exists (m ≫= λ entry, recordRequests entry w). split.
    + unfold recordRequests at 1. simpl. by rewrite Hh.
    + unfold recordRequests at 1. simpl. rewrite Hh', lookup_insert_eq.
      apply Permutation_app_head. clear IH Hnd.
      induction m as [|[r1 l1] m IH]; [done|]. rewrite !bind_cons.
      rewrite IH by (intros ?; apply Hnotin; rewrite fmap_cons; by right).
      rewrite (recordRequests_insert_ne (r1, l1) l record' w w'); [done| |done].
      simpl. intros ->. apply Hnotin. rewrite fmap_cons. by left.
  - destruct (IH Hnd Hin) as (others & H1 & H2).
    assert (l0 ≠ l) as Hne.
    { intros ->. apply Hnotin. apply list_elem_of_fmap. by exists (r, l). }
    exists (recordRequests (r0, l0) w ++ others). split.
    + rewrite H1. by rewrite !(assoc (++)), (Permutation_app_comm (recordRequests _ _)).
    + rewrite H2, (recordRequests_insert_ne (r0, l0) l record' w w') by done.
      by rewrite !(assoc (++)), (Permutation_app_comm (_ <$> _)).
Qed.

(** Requests leave a queue only by being settled. *)
Lemma ledgerStep_dequeue w w' r l record record' evs gone :
  Inv w → (r, l) ∈ locks w → heap w !! l = Some record →
  locks w' = locks w → heap w' = <[l := record']> (heap w) → fresh w ≤ fresh w' →
  outbox w' = outbox w ++ evs →
  settledRequests evs = (λ req, (r, req)) <$> gone →
  queue record ≡ₚ queue record' ++ gone →
  ledgerStep w w'.
Proof.
  intros HI Hin Hh Hl Hh' Hf Ho Hev Hq. apply ledgerStep_perm; [done|].
  destruct (queuedRequests_insert w w' r l record record' (inv_refs _ HI) Hin Hh Hl Hh')
    as (others & H1 & H2).
  unfold ledger. rewrite Ho, settledRequests_app, Hev, H1, H2, Hq, fmap_app.
  rewrite <- !(assoc_L (++)). apply Permutation_app_head.
  rewrite (Permutation_app_comm (_ <$> gone)). by rewrite <- (assoc_L (++)).
Qed.

Lemma ledgerStep_events w w' evs :
  locks w' = locks w → heap w' = heap w → fresh w ≤ fresh w' →
  outbox w' = outbox w ++ evs → settledRequests evs = [] →
  ledgerStep w w'.
Proof.
  intros Hl Hh Hf Ho He. apply ledgerStep_perm; [done|].
  unfold ledger, queuedRequests, recordRequests.
  by rewrite Hl, Hh, Ho, settledRequests_app, He, app_nil_r.
Qed.

Lemma ledgerStep_log i m k w : ledgerStep w (log i m k w).
Proof. apply ledgerStep_same; by wsimpl. Qed.

Lemma ledgerStep_settle c o w :
  (∀ r req, c ≠ Acquire r req) → ledgerStep w (settle c o w).
Proof.
  intros Hc. apply (ledgerStep_events _ _ [Settled c o]); try done.
  destruct c; try done. by destruct (Hc resourceId request).
Qed.

Lemma queuedRequests_delete r l w :
  Inv w → lookupRecord r w = Some (l, emptyRecord) →
  queuedRequests (set_locks (JsMap.delete r) w) = queuedRequests w.
Proof.
  intros HI Hl. apply (lookupRecord_elem_of _ _ _ _ HI) in Hl as [Hin Hh].
  unfold queuedRequests, JsMap.delete. simpl.
  assert (∀ entry, entry ∈ locks w → entry.1 = r → recordRequests entry w = []) as He.
  { intros [r0 l0] Hin0 Hr. simpl in Hr. subst r0.
    rewrite (locks_key_inj w r l0 l HI Hin0 Hin).
    unfold recordRequests. simpl. by rewrite Hh. }
  revert He. generalize (locks w). intros m. induction m as [|entry m IH]; intros He; [done|].
  rewrite filter_cons. case_decide as Hk.
  - rewrite !bind_cons, IH; [done|]. intros e ?. apply He. by right.
  - rewrite bind_cons, IH by (intros e ?; apply He; by right).
    rewrite (He entry); [done|by left|]. by destruct (decide (entry.1 = r)).
Qed.

Lemma ledgerStep_cleanup r w : Inv w → ledgerStep w (cleanup r w).
Proof.
  intros HI. destruct (cleanup_cases r w) as [[-> _]|(l & Hl & ->)]; [apply ledgerStep_refl|].
  apply ledgerStep_perm; [done|]. unfold ledger. by rewrite (queuedRequests_delete r l).
Qed.

Lemma ledgerStep_processQueue i r w : Inv w → ledgerStep w (processQueue i r w).
Proof.
  intros HI. destruct (lookupRecord r w) as [[l record]|] eqn:Hl.
  - rewrite (processQueue_schedule i r w l record Hl).
    destruct (queue record) as [|next rest] eqn:Eq; [by apply ledgerStep_cleanup|].
    pose proof (schedule_prefix (now i) record) as Hp.
    apply (lookupRecord_elem_of _ _ _ _ HI) in Hl as [Hin Hh].
    apply (ledgerStep_dequeue w _ r l record (schedule (now i) record).2
             (grantedEvents r (schedule (now i) record).1) (schedule (now i) record).1);
      try done; wsimpl; try done.
    + apply settledRequests_granted.
    + rewrite Hp at 1. apply Permutation_app_comm.
  - unfold processQueue. rewrite Hl. apply ledgerStep_refl.
Qed.

Lemma ledgerStep_getRecord r w : Inv w → ledgerStep w (getRecord r w).2.
Proof.
  intros HI. destruct (getRecord_cases r w) as [(l & _ & ->)|[_ ->]]; [apply ledgerStep_refl|].
  simpl. apply ledgerStep_perm; [simpl; lia|].
  unfold ledger, queuedRequests. simpl. rewrite bind_app, bind_cons. simpl.
  unfold recordRequests at 2. simpl. rewrite lookup_insert_eq. simpl. rewrite app_nil_r.
  apply Permutation_app_tail.
  assert (∀ entry, entry ∈ locks w → entry.2 ≠ fresh w) as Hne.
  { intros [r0 l0] Hin0 Heq. simpl in Heq. subst l0.
    pose proof (inv_heap_fresh _ HI _ (inv_alloc _ HI _ _ Hin0)). lia. }
  revert Hne. generalize (locks w). intros m. induction m as [|entry m IH]; intros Hne; [done|].
  rewrite !bind_cons, IH by (intros e ?; apply Hne; by right).
  rewrite (recordRequests_insert_ne entry (fresh w) emptyRecord w); [done| |done].
  apply Hne. by left.
Qed.

(** [enqueue] from [setTimeout] to [record.queue.push(request)]. *)
Lemma ledger_push i r l t s a timeout w :
  Inv w → (r, l) ∈ locks w →
  let request := {| type := t; sessionId := s; timer := fresh w;
                    requestedAt := now i; awaiter := a |} in
  let w' := set_heap (alter (λ record, {| readers := readers record; writer := writer record;
                                          queue := queue record ++ [request] |}) l)
              (setTimeout (RequestTimeout l r request) timeout i w).2 in
  ledger w' ≡ₚ (r, request) :: ledger w.
Proof.
  intros HI Hin request w'.
  destruct (inv_alloc _ HI _ _ Hin) as [record Hh].
  destruct (queuedRequests_insert w w' r l record
              {| readers := readers record; writer := writer record;
                 queue := queue record ++ [request] |} (inv_refs _ HI) Hin Hh)
    as (others & H1 & H2); [done| |].
  { subst w'. simpl. by rewrite (alter_lookup_insert _ _ _ _ Hh). }
  unfold ledger. rewrite H1, H2. simpl. rewrite fmap_app. simpl.
  rewrite <- !(assoc_L (++)). simpl.
  by rewrite <- Permutation_middle.
Qed.

Lemma ledgerStep_enqueue i r s t a w :
  Inv w → ledgerStep w (enqueue i r s t (LOCK_TIMEOUT_MS (processEnv w)) a w).
Proof.
  intros HI. unfold enqueue.
  pose proof (ledgerStep_getRecord r w HI) as H1.
  destruct (Inv_getRecord r w HI) as (HI1 & Hrl & He).
  destruct (getRecord r w) as [l w1]. simpl in *. rewrite <- He.
  pose proof (Inv_push i r l t s a w1 HI1 Hrl) as HI3.
  pose proof (ledger_push i r l t s a (LOCK_TIMEOUT_MS (processEnv w1)) w1 HI1 Hrl) as Hp.
  cbv zeta in HI3, Hp. simpl in HI3, Hp.
  eapply ledgerStep_trans; [exact H1|].
  eapply ledgerStep_trans; [|apply ledgerStep_processQueue, Inv_log, HI3].
  eapply ledgerStep_trans; [|apply ledgerStep_log].
  split; [simpl; lia|].
  eexists [(r, _)]. split_and!; [exact Hp|apply NoDup_singleton|].
  intros p ->%list_elem_of_singleton. simpl. lia.
Qed.

Lemma ledgerStep_releaseLockResume i r sid w :
  Inv w → ledgerStep w (releaseLockResume i r sid w).
Proof.
  intros HI. unfold releaseLockResume.
  eapply ledgerStep_trans; [apply (ledgerStep_processQueue i r), HI|].
  eapply ledgerStep_trans; [apply (ledgerStep_cleanup r), Inv_processQueue, HI|].
  by apply ledgerStep_settle.
Qed.

Lemma ledgerStep_releaseLock i r sid w : Inv w → ledgerStep w (releaseLock i r sid w).
Proof.
  intros HI. destruct (lookupRecord r w) as [[l record]|] eqn:Hl.
  - rewrite (releaseLock_unfold i r sid w l record Hl). cbv zeta.
    pose proof (Inv_release_core r sid l record w HI Hl) as HI1.
    apply (lookupRecord_elem_of _ _ _ _ HI) in Hl as [Hin Hh].
    match goal with
    | |- ledgerStep _ (if _ then log _ _ _ ?w1 else _) => apply (ledgerStep_trans w w1)
    end.
    + apply (ledgerStep_dequeue w _ r l record
               {| readers := JsMap.delete sid (readers record);
                  writer := if bool_decide (fst <$> writer record = Some sid)
                            then None else writer record;
                  queue := filter (λ req, sessionId req ≠ sid) (queue record) |}
               (rejectEvents r (λ _, cancelError sid)
                  (filter (λ req, sessionId req = sid) (queue record)))
               (filter (λ req, sessionId req = sid) (queue record)) HI Hin Hh);
        wsimpl; try done.
      * apply settledRequests_rejected.
      * rewrite (Permutation_app_comm (filter _ _)).
        symmetry. apply (filter_app_complement (λ req, sessionId req = sid)).
    + destruct (bool_decide (fst <$> writer record = Some sid) || JsMap.has sid (readers record)).
      * apply ledgerStep_log.
      * by apply ledgerStep_releaseLockResume.
  - unfold releaseLock. rewrite Hl. by apply ledgerStep_settle.
Qed.

Lemma ledgerStep_forceUnlockReturn r c o w : ledgerStep w (forceUnlockReturn r c o w).
Proof.
  unfold forceUnlockReturn. destruct c; [by apply ledgerStep_settle|].
  destruct o; [by apply ledgerStep_same|by apply ledgerStep_settle].
Qed.

Lemma ledgerStep_forceUnlock i r c w : Inv w → ledgerStep w (forceUnlock i r c w).
Proof.
  intros HI. unfold forceUnlock.
  destruct (lookupRecord r w) as [[l record]|] eqn:Hl; [|apply ledgerStep_forceUnlockReturn].
  apply (lookupRecord_elem_of _ _ _ _ HI) in Hl as [Hin Hh]. cbv zeta.
  eapply ledgerStep_trans; [|apply ledgerStep_log].
  apply (ledgerStep_dequeue w _ r l record emptyRecord
           (rejectEvents r flushError (queue record)) (queue record) HI Hin Hh);
    wsimpl; try done.
  - rewrite (alter_lookup_insert _ _ {| readers := JsMap.clear; writer := None;
                                        queue := queue record |});
      [|by rewrite lookup_insert_eq].
    simpl. by rewrite insert_insert_eq.
  - apply settledRequests_rejected.
Qed.

Lemma ledgerStep_clearAllLoop i ids w : Inv w → ledgerStep w (clearAllLoop i ids w).
Proof.
  intros HI. destruct ids; simpl; [apply ledgerStep_log|by apply ledgerStep_forceUnlock].
Qed.

Lemma ledgerStep_clearTimeout h w : ledgerStep w (clearTimeout h w).
Proof. by apply ledgerStep_same. Qed.

Lemma ledgerStep_onTimeout i h t l r request w :
  Inv w → timers w !! h = Some t → callback t = RequestTimeout l r request →
  ledgerStep w (onTimeout i l r request (clearTimeout h w)).
Proof.
  intros HI Hth Hc.
  destruct (Inv_timeout_core h t l r request w HI Hth Hc) as (record & Hrl & Hh & Hq & HI1).
  rewrite (onTimeout_unfold _ _ _ _ _ _ _ Hh).
  pose proof HI1 as HI2.
  apply (Inv_settleAcquire r request (Rejected (timeoutError (type request) r))) in HI2.
  apply (Inv_log i (timeoutMessage (type request) r (sessionId request)) NotAwaited) in HI2.
  eapply ledgerStep_trans; [|apply ledgerStep_processQueue, Inv_cleanup, HI2].
  eapply ledgerStep_trans; [|apply ledgerStep_cleanup, HI2].
  eapply ledgerStep_trans; [|apply ledgerStep_log].
  destruct (filter_remove_one request (queue record) (inv_queue_nodup _ HI _ _ Hh) Hq)
    as (q1 & q2 & Hq12 & _ & Hf).
  destruct (settleAcquire_rejected_core r request (timeoutError (type request) r)
              (set_heap <[l := {| readers := readers record; writer := writer record;
                                  queue := filter (λ req, req ≠ request) (queue record) |}]>
                 (clearTimeout h w)))
    as (_ & Hl' & Hh' & _ & _ & Hf' & _ & _ & _ & Ho').
  apply (ledgerStep_dequeue w _ r l record
           {| readers := readers record; writer := writer record;
              queue := filter (λ req, req ≠ request) (queue record) |}
           (acquireEvents r request (Rejected (timeoutError (type request) r))) [request]
           HI Hrl Hh); try done.
  - by rewrite Hf'.
  - unfold acquireEvents, settledRequests. destruct (awaiter request); done.
  - simpl. rewrite Hf, Hq12. rewrite <- (assoc_L (++)).
    by rewrite (Permutation_app_comm q2 [request]).
Qed.

Lemma ledgerStep_fireTimer i h t w :
  Inv w → timers w !! h = Some t → ledgerStep w (fireTimer i h t w).
Proof.
  intros HI Hth. unfold fireTimer. destruct (callback t) as [l r request|r sid] eqn:Hc.
  - by eapply ledgerStep_onTimeout.
  - eapply ledgerStep_trans; [apply (ledgerStep_clearTimeout h)|].
    apply ledgerStep_releaseLock. by eapply Inv_clear_simulated.
Qed.

Lemma ledgerStep_logAwaiterResume i k o w : Inv w → ledgerStep w (logAwaiterResume i k o w).
Proof.
  intros HI. destruct k, o; simpl; try apply ledgerStep_refl; try (by apply ledgerStep_settle).
  - by apply ledgerStep_releaseLockResume.
  - eapply ledgerStep_trans; [by apply (ledgerStep_cleanup resourceId)|].
    apply ledgerStep_forceUnlockReturn.
  - apply ledgerStep_forceUnlockReturn.
Qed.

Lemma ledgerStep_runTask i t w : Inv w → ledgerStep w (runTask i t w).
Proof.
  intros HI. destruct t as [line dir k|rest|t r s holdMs]; simpl.
  - unfold logResume. destruct dir; simpl; [|by apply ledgerStep_logAwaiterResume].
    rewrite catch_ignore_Fulfilled.
    eapply ledgerStep_trans; [|apply ledgerStep_logAwaiterResume, Inv_pushRecentLog, HI].
    by apply ledgerStep_same.
  - by apply ledgerStep_clearAllLoop.
  - unfold simulateResume, setTimeout.
    eapply ledgerStep_trans; [|by apply ledgerStep_settle].
    apply ledgerStep_same; simpl; try done. lia.
Qed.

Lemma ledgerStep_step w w' : Inv w → step w w' → ledgerStep w w'.
Proof.
  intros HI Hs. destruct Hs.
  - by apply ledgerStep_enqueue.
  - by apply ledgerStep_enqueue.
  - by apply ledgerStep_releaseLock.
  - by apply ledgerStep_forceUnlock.
  - by apply ledgerStep_clearAllLoop.
  - by apply ledgerStep_enqueue.
  - by apply ledgerStep_enqueue.
  - apply ledgerStep_same; simpl; try done. lia.
  - by apply ledgerStep_fireTimer.
  - eapply ledgerStep_trans; [|apply ledgerStep_runTask; by apply (Inv_ext w)].
    by apply ledgerStep_same.
Qed.

Lemma LedgerInv_step w w' : ledgerStep w w' → LedgerInv w → LedgerInv w'.
Proof.
  intros (Hf & new & Hp & Hnd & Hnew) [Hn Ht]. split.
  - rewrite Hp. apply NoDup_app. split_and!; [done| |done].
    intros p Hin Hin'. apply Hnew in Hin. apply Ht in Hin'. lia.
  - intros p. rewrite Hp. intros [Hin|Hin]%elem_of_app.
    + apply Hnew in Hin. lia.
    + apply Ht in Hin. lia.
Qed.

Lemma reachable_LedgerInv e w : reachable e w → LedgerInv w.
Proof.
  induction 1 as [|w w' Hr IH Hs].
  - split; [constructor|]. by intros p ?%elem_of_nil.
  - eapply LedgerInv_step; [|exact IH]. apply ledgerStep_step; [|done].
    by eapply reachable_Inv.
Qed.

Lemma elem_of_settledRequests r req evs :
  (r, req) ∈ settledRequests evs ↔ ∃ o, Settled (Acquire r req) o ∈ evs.
Proof.
  unfold settledRequests. rewrite list_elem_of_bind. split.
  - intros ([c o] & Hin & Hev). destruct c; try (by apply elem_of_nil in Hin).
    apply list_elem_of_singleton in Hin. simplify_eq. eauto.
  - intros [o Hev]. exists (Settled (Acquire r req) o). split; [|done].
    by apply list_elem_of_singleton.
Qed.

Lemma elem_of_queuedRequests r req w :
  Inv w →
  (r, req) ∈ queuedRequests w
  ↔ ∃ l record, lookupRecord r w = Some (l, record) ∧ req ∈ queue record.
Proof.
  intros HI. unfold queuedRequests. rewrite list_elem_of_bind. split.
  - intros ([r0 l0] & Hin & Hl). unfold recordRequests in Hin. simpl in Hin.
    destruct (heap w !! l0) as [record|] eqn:Hh; [|by apply elem_of_nil in Hin].
    apply list_elem_of_fmap in Hin as (req0 & [= -> ->] & Hq).
    exists l0, record. split; [|done]. by apply lookupRecord_elem_of.
  - intros (l & record & Hl & Hq).
    apply (lookupRecord_elem_of _ _ _ _ HI) in Hl as [Hin Hh].
    exists (r, l). split; [|done]. unfold recordRequests. simpl. rewrite Hh.
    apply list_elem_of_fmap. eauto.
Qed.

(** X1. Every promise made by [enqueue] is settled at most once, whether by a
    grant, a time-out, a release or a force-unlock: in every world the event
    loop can reach, no two events of the outbox settle the same acquire; a
    request whose acquire is settled is in no queue; and a request whose
    time-out timer is armed is queued and not settled. *)
Theorem acquire_settled_once e w :
  reachable e w →
  NoDup (settledRequests (outbox w))
  ∧ (∀ r req o l record,
       Settled (Acquire r req) o ∈ outbox w →
       lookupRecord r w = Some (l, record) → req ∉ queue record)
  ∧ (∀ h t l r req,
       timers w !! h = Some t → callback t = RequestTimeout l r req →
       (∃ record, lookupRecord r w = Some (l, record) ∧ req ∈ queue record)
       ∧ ∀ o, Settled (Acquire r req) o ∉ outbox w).
Proof.
  intros Hr. pose proof (reachable_Inv _ _ Hr) as HI.
  destruct (reachable_LedgerInv _ _ Hr) as [Hnd _].
  unfold ledger in Hnd. apply NoDup_app in Hnd as (_ & Hdisj & Hs).
  split_and!; [done| |].
  - intros r req o l record Hev Hl Hq. apply (Hdisj (r, req)).
    + apply elem_of_queuedRequests; eauto.
    + apply elem_of_settledRequests; eauto.
  - intros h t l r req Hth Hc.
    destruct (inv_armed _ HI _ _ _ _ _ Hth Hc) as (_ & Hin & (record & Hh & Hq) & _).
    assert (lookupRecord r w = Some (l, record)) as Hl by by apply lookupRecord_elem_of.
    split; [eauto|]. intros o Hev. apply (Hdisj (r, req)).
    + apply elem_of_queuedRequests; eauto.
    + apply elem_of_settledRequests; eauto.
Qed.

Lemma acquire_settled_once_witness :
  reachable env0 ex_reader_then_writer
  ∧ NoDup (settledRequests (outbox ex_reader_then_writer))
  ∧ (∀ r req o l record,
       Settled (Acquire r req) o ∈ outbox ex_reader_then_writer →
       lookupRecord r ex_reader_then_writer = Some (l, record) → req ∉ queue record)
  ∧ (∀ h t l r req,
       timers ex_reader_then_writer !! h = Some t → callback t = RequestTimeout l r req →
       (∃ record, lookupRecord r ex_reader_then_writer = Some (l, record)
                  ∧ req ∈ queue record)
       ∧ ∀ o, Settled (Acquire r req) o ∉ outbox ex_reader_then_writer).
Proof.
  split; [apply ex_reader_then_writer_reachable|].
  apply (acquire_settled_once env0 ex_reader_then_writer), ex_reader_then_writer_reachable.
Defined.

(** X2. A request is never dropped: once queued it stays queued, turn after
    turn of the event loop, until its acquire is settled. *)
Theorem queued_until_settled e w w' r l record req :
  reachable e w → rtc step w w' →
  lookupRecord r w = Some (l, record) → req ∈ queue record →
  (∃ l' record', lookupRecord r w' = Some (l', record') ∧ req ∈ queue record')
  ∨ (∃ o, Settled (Acquire r req) o ∈ outbox w').
Proof.
  intros Hr Hs Hl Hq.
  assert (reachable e w' ∧ (r, req) ∈ ledger w') as [Hr' Hin].
  { assert ((r, req) ∈ ledger w) as Hin.
    { apply elem_of_app. left. apply elem_of_queuedRequests; [by eapply reachable_Inv|eauto]. }
    clear Hl Hq. induction Hs as [w|w w1 w2 H1 _ IH]; [done|].
    apply IH; [by eapply reachable_step|].
    destruct (ledgerStep_step w w1 (reachable_Inv _ _ Hr) H1) as (_ & new & Hp & _).
    rewrite Hp. apply elem_of_app. by right. }
  apply elem_of_app in Hin as [Hin|Hin].
  - left. by apply (elem_of_queuedRequests r req w' (reachable_Inv _ _ Hr')).
  - right. by apply elem_of_settledRequests.
Qed.

Lemma queued_until_settled_witness :
  reachable env0 ex_reader_then_writer
  ∧ rtc step ex_reader_then_writer ex_timed_out
  ∧ lookupRecord "R" ex_reader_then_writer = Some (1, ex_reader_record)
  ∧ request_of write "s2" 3 2 ∈ queue ex_reader_record
  ∧ ((∃ l' record', lookupRecord "R" ex_timed_out = Some (l', record')
                    ∧ request_of write "s2" 3 2 ∈ queue record')
     ∨ (∃ o, Settled (Acquire "R" (request_of write "s2" 3 2)) o ∈ outbox ex_timed_out)).
Proof.
  assert (request_of write "s2" 3 2 ∈ queue ex_reader_record) as Hq by left.
  split_and!; [apply ex_reader_then_writer_reachable|apply rtc_once, ex_timed_out_step
              |apply ex_reader_then_writer_lookup|exact Hq|].
  apply (queued_until_settled env0 ex_reader_then_writer ex_timed_out "R" 1 ex_reader_record
           (request_of write "s2" 3 2) ex_reader_then_writer_reachable
           (rtc_once _ _ ex_timed_out_step) ex_reader_then_writer_lookup Hq).
Defined.

(** ** Waiting is bounded by a timer *)

Lemma timerDelay_range after : (1 ≤ timerDelay after ≤ TIMEOUT_MAX)%Z.
Proof.
  unfold timerDelay, TIMEOUT_MAX. destruct after as [x| |]; try lia.
  destruct (Qle_bool 1 x) eqn:H1; simpl; [|lia].
  destruct (Qle_bool x (inject_Z 2147483647)) eqn:H2; [|lia].
  apply Qle_bool_iff in H1, H2. split.
  - change 1%Z with (Qfloor 1). by apply Qfloor_resp_le.
  - rewrite <- (Qfloor_Z 2147483647). by apply Qfloor_resp_le.
Qed.

Lemma queued_timer w r l record req :
  Inv w → lookupRecord r w = Some (l, record) → req ∈ queue record →
  ∃ t, timers w !! timer req = Some t ∧ callback t = RequestTimeout l r req.
Proof.
  intros HI Hl Hq. apply (lookupRecord_elem_of _ _ _ _ HI) in Hl as [Hin Hh].
  destruct (inv_queued _ HI _ _ _ Hh Hq) as (r0 & t & Hin0 & Ht & Hc).
  exists t. split; [done|]. by rewrite (locks_ref_inj w r r0 l HI Hin Hin0).
Qed.

(** X3. While a request waits in a queue its own time-out timer is armed: the
    timer was armed when the request was made, with the delay that
    [setTimeout] makes of [LOCK_TIMEOUT_MS]: always between 1 and
    [TIMEOUT_MAX], and the configured number itself when that is a whole
    number in that range.  Its callback is bound to that request and to the
    record the request waits in, and no other queued request of the table
    shares the handle. *)
Theorem queued_request_has_timer e w r l record req :
  reachable e w → lookupRecord r w = Some (l, record) → req ∈ queue record →
  (∃ t, timers w !! timer req = Some t
        ∧ callback t = RequestTimeout l r req
        ∧ armedAt t = requestedAt req
        ∧ delay t = timerDelay (LOCK_TIMEOUT_MS e)
        ∧ (1 ≤ delay t ≤ TIMEOUT_MAX)%Z
        ∧ (∀ z, LOCK_TIMEOUT_MS e = ms z → (1 ≤ z ≤ TIMEOUT_MAX)%Z → delay t = z))
  ∧ ∀ r' l' record' req',
      lookupRecord r' w = Some (l', record') → req' ∈ queue record' →
      timer req' = timer req → r' = r ∧ req' = req.
Proof.
  intros Hr Hl Hq. pose proof (reachable_Inv _ _ Hr) as HI.
  destruct (queued_timer w r l record req HI Hl Hq) as (t & Ht & Hc).
  split.
  - exists t. destruct (inv_armed _ HI _ _ _ _ _ Ht Hc) as (_ & _ & _ & Ha & Hd).
    rewrite (reachable_processEnv _ _ Hr) in Hd.
    split; [done|]. split; [done|]. split; [done|]. split; [done|]. split.
    + rewrite Hd. apply timerDelay_range.
    + intros z Hz Hin. rewrite Hd, Hz. by apply timerDelay_ms.
  - intros r' l' record' req' Hl' Hq' Heq.
    destruct (queued_timer w r' l' record' req' HI Hl' Hq') as (t' & Ht' & Hc').
    rewrite Heq, Ht in Ht'. injection Ht' as <-. rewrite Hc in Hc'.
    by injection Hc' as <- <- <-.
Qed.

Lemma queued_request_has_timer_witness :
  reachable env0 ex_reader_then_writer
  ∧ lookupRecord "R" ex_reader_then_writer = Some (1, ex_reader_record)
  ∧ request_of write "s2" 3 2 ∈ queue ex_reader_record
  ∧ (∃ t, timers ex_reader_then_writer !! timer (request_of write "s2" 3 2) = Some t
          ∧ callback t = RequestTimeout 1 "R" (request_of write "s2" 3 2)
          ∧ armedAt t = requestedAt (request_of write "s2" 3 2)
          ∧ delay t = timerDelay (LOCK_TIMEOUT_MS env0)
          ∧ (1 ≤ delay t ≤ TIMEOUT_MAX)%Z
          ∧ (∀ z, LOCK_TIMEOUT_MS env0 = ms z → (1 ≤ z ≤ TIMEOUT_MAX)%Z → delay t = z))
  ∧ ∀ r' l' record' req',
      lookupRecord r' ex_reader_then_writer = Some (l', record') → req' ∈ queue record' →
      timer req' = timer (request_of write "s2" 3 2) →
      r' = "R" ∧ req' = request_of write "s2" 3 2.
Proof.
  assert (request_of write "s2" 3 2 ∈ queue ex_reader_record) as Hq by left.
  split_and!; [apply ex_reader_then_writer_reachable|apply ex_reader_then_writer_lookup
              |exact Hq|..];
    apply (queued_request_has_timer env0 ex_reader_then_writer "R" 1 ex_reader_record
             (request_of write "s2" 3 2) ex_reader_then_writer_reachable
             ex_reader_then_writer_lookup Hq).
Defined.

(** ** Waiting requests keep their order *)

Lemma orderStep_refl w : orderStep w w.
Proof.
  split; [done|]. intros r. exists []. split; [by rewrite app_nil_r|].
  by intros req ?%elem_of_nil.
Qed.

Lemma orderStep_trans w1 w2 w3 : orderStep w1 w2 → orderStep w2 w3 → orderStep w1 w3.
Proof.
  intros [Hf1 H1] [Hf2 H2]. split; [lia|]. intros r.
  destruct (H1 r) as (n1 & Hs1 & Ht1). destruct (H2 r) as (n2 & Hs2 & Ht2).
  exists (n1 ++ n2). split.
  - etrans; [exact Hs2|]. rewrite (assoc_L (++)). by apply sublist_app.
  - intros req [H|H]%elem_of_app; [by apply Ht1|]. apply Ht2 in H. lia.
Qed.

(** A segment that works on one resource. *)
Lemma orderStep_on r w w' new :
  fresh w ≤ fresh w' → othersSame r w w' →
  queueOf r w' `sublist_of` queueOf r w ++ new →
  (∀ req, req ∈ new → fresh w ≤ timer req) →
  orderStep w w'.
Proof.
  intros Hf Ho Hs Hn. split; [done|]. intros r'. destruct (decide (r' = r)) as [->|Hne].
  - by exists new.
  - exists []. split; [|by intros req ?%elem_of_nil].
    unfold queueOf. by rewrite (Ho r' Hne), app_nil_r.
Qed.

Lemma orderStep_same w w' :
  locks w' = locks w → heap w' = heap w → fresh w ≤ fresh w' → orderStep w w'.
Proof.
  intros Hl Hh Hf. split; [done|]. intros r. exists [].
  split; [|by intros req ?%elem_of_nil].
  unfold queueOf. by rewrite (lookupRecord_same r w w' Hl Hh), app_nil_r.
Qed.

Lemma orderStep_log i m k w : orderStep w (log i m k w).
Proof. apply orderStep_same; by wsimpl. Qed.

Lemma orderStep_settleAcquire r q o w : orderStep w (settleAcquire r q o w).
Proof. apply orderStep_same; by wsimpl. Qed.

Lemma orderStep_insert r l record record' new w w' :
  Inv w → (r, l) ∈ locks w → heap w !! l = Some record →
  locks w' = locks w → heap w' = <[l := record']> (heap w) → fresh w ≤ fresh w' →
  queue record' `sublist_of` queue record ++ new →
  (∀ req, req ∈ new → fresh w ≤ timer req) →
  orderStep w w'.
Proof.
  intros HI Hin Hh Hl Hh' Hf Hs Hn.
  destruct (lookupRecord_insert r l record' w w' HI Hin Hl Hh') as [Hr Ho].
  apply (orderStep_on r w w' new); try done.
  unfold queueOf. rewrite Hr.
  by rewrite (proj2 (lookupRecord_elem_of r w l record HI) (conj Hin Hh)).
Qed.

Lemma orderStep_cleanup r w : orderStep w (cleanup r w).
Proof.
  apply (orderStep_on r w _ []); [by wsimpl|apply cleanup_post| |by intros req ?%elem_of_nil].
  rewrite app_nil_r. unfold queueOf.
  destruct (lookupRecord r (cleanup r w)) as [[l record]|] eqn:Hl; [|apply sublist_nil_l].
  apply cleanup_post in Hl as [-> _]. done.
Qed.

Lemma orderStep_processQueue i r w : Inv w → orderStep w (processQueue i r w).
Proof.
  intros HI. destruct (lookupRecord r w) as [[l record]|] eqn:Hl.
  - rewrite (processQueue_schedule i r w l record Hl).
    destruct (queue record) as [|next rest] eqn:Eq; [apply orderStep_cleanup|].
    apply (lookupRecord_elem_of _ _ _ _ HI) in Hl as [Hin Hh].
    apply (orderStep_insert r l record (schedule (now i) record).2 [] w); try done;
      wsimpl; try done.
    + rewrite app_nil_r. rewrite (schedule_prefix (now i) record) at 1.
      apply sublist_inserts_l. done.
    + by intros req ?%elem_of_nil.
  - unfold processQueue. rewrite Hl. apply orderStep_refl.
Qed.

Lemma orderStep_getRecord r w : Inv w → orderStep w (getRecord r w).2.
Proof.
  intros HI.
  apply (orderStep_on r w _ []); [| by apply getRecord_post | |by intros req ?%elem_of_nil].
  - destruct (getRecord_cases r w) as [(l & _ & ->)|[_ ->]]; simpl; lia.
  - rewrite app_nil_r. unfold queueOf.
    destruct (Inv_getRecord r w HI) as (HI1 & Hrl & _).
    destruct (getRecord_cases r w) as [(l & _ & Hg)|[Hn Hg]]; rewrite Hg in *; [done|].
    cbn [fst snd] in *.
    rewrite (proj2 (lookupRecord_elem_of r _ (fresh w) emptyRecord HI1)).
    + apply sublist_nil_l.
    + split; [done|]. cbn. by rewrite lookup_insert_eq.
Qed.

Lemma orderStep_enqueue i r s t a w :
  Inv w → orderStep w (enqueue i r s t (LOCK_TIMEOUT_MS (processEnv w)) a w).
Proof.
  intros HI. unfold enqueue.
  pose proof (orderStep_getRecord r w HI) as H1.
  destruct (Inv_getRecord r w HI) as (HI1 & Hrl & He).
  destruct (getRecord r w) as [l w1]. simpl in *. rewrite <- He.
  pose proof (Inv_push i r l t s a w1 HI1 Hrl) as HI3. cbv zeta in HI3. simpl in HI3.
  destruct (inv_alloc _ HI1 _ _ Hrl) as [record Hh].
  eapply orderStep_trans; [exact H1|].
  eapply orderStep_trans; [|apply orderStep_processQueue, Inv_log, HI3].
  eapply orderStep_trans; [|apply orderStep_log].
  eapply (orderStep_insert r l record _ [_] w1); try done; simpl.
  - by rewrite (alter_lookup_insert _ _ _ _ Hh).
  - lia.
  - simpl. done.
  - intros req ->%list_elem_of_singleton. simpl. done.
Qed.

Lemma orderStep_releaseLockResume i r sid w :
  Inv w → orderStep w (releaseLockResume i r sid w).
Proof.
  intros HI. unfold releaseLockResume.
  eapply orderStep_trans; [apply (orderStep_processQueue i r), HI|].
  eapply orderStep_trans; [apply (orderStep_cleanup r)|].
  by apply orderStep_same.
Qed.

Lemma orderStep_releaseLock i r sid w : Inv w → orderStep w (releaseLock i r sid w).
Proof.
  intros HI. destruct (lookupRecord r w) as [[l record]|] eqn:Hl.
  - rewrite (releaseLock_unfold i r sid w l record Hl). cbv zeta.
    pose proof (Inv_release_core r sid l record w HI Hl) as HI1.
    apply (lookupRecord_elem_of _ _ _ _ HI) in Hl as [Hin Hh].
    match goal with
    | |- orderStep _ (if _ then log _ _ _ ?w1 else _) => apply (orderStep_trans w w1)
    end.
    + apply (orderStep_insert r l record
               {| readers := JsMap.delete sid (readers record);
                  writer := if bool_decide (fst <$> writer record = Some sid)
                            then None else writer record;
                  queue := filter (λ req, sessionId req ≠ sid) (queue record) |} [] w);
        wsimpl; try done.
      * rewrite app_nil_r. apply sublist_filter.
      * by intros req ?%elem_of_nil.
    + destruct (bool_decide (fst <$> writer record = Some sid) || JsMap.has sid (readers record)).
      * apply orderStep_same; by wsimpl.
      * by apply orderStep_releaseLockResume.
  - unfold releaseLock. rewrite Hl. by apply orderStep_same.
Qed.

Lemma orderStep_forceUnlockReturn r c o w : orderStep w (forceUnlockReturn r c o w).
Proof. unfold forceUnlockReturn. destruct c; [by apply orderStep_same|]. destruct o; by apply orderStep_same. Qed.

Lemma orderStep_forceUnlock i r c w : Inv w → orderStep w (forceUnlock i r c w).
Proof.
  intros HI. unfold forceUnlock.
  destruct (lookupRecord r w) as [[l record]|] eqn:Hl; [|apply orderStep_forceUnlockReturn].
  apply (lookupRecord_elem_of _ _ _ _ HI) in Hl as [Hin Hh]. cbv zeta.
  eapply orderStep_trans; [|apply orderStep_log].
  apply (orderStep_insert r l record emptyRecord [] w); wsimpl; try done.
  - rewrite (alter_lookup_insert _ _ {| readers := JsMap.clear; writer := None;
                                        queue := queue record |});
      [|by rewrite lookup_insert_eq].
    simpl. by rewrite insert_insert_eq.
  - apply sublist_nil_l.
  - by intros req ?%elem_of_nil.
Qed.

Lemma orderStep_clearAllLoop i ids w : Inv w → orderStep w (clearAllLoop i ids w).
Proof.
  intros HI. destruct ids; simpl; [apply orderStep_same; by wsimpl|by apply orderStep_forceUnlock].
Qed.

Lemma orderStep_onTimeout i h t l r request w :
  Inv w → timers w !! h = Some t → callback t = RequestTimeout l r request →
  orderStep w (onTimeout i l r request (clearTimeout h w)).
Proof.
  intros HI Hth Hc.
  destruct (Inv_timeout_core h t l r request w HI Hth Hc) as (record & Hrl & Hh & Hq & HI1).
  rewrite (onTimeout_unfold _ _ _ _ _ _ _ Hh).
  pose proof HI1 as HI2.
  apply (Inv_settleAcquire r request (Rejected (timeoutError (type request) r))) in HI2.
  apply (Inv_log i (timeoutMessage (type request) r (sessionId request)) NotAwaited) in HI2.
  eapply orderStep_trans; [|apply orderStep_processQueue, Inv_cleanup, HI2].
  eapply orderStep_trans; [|apply orderStep_cleanup].
  eapply orderStep_trans; [|apply orderStep_log].
  eapply orderStep_trans; [|apply orderStep_settleAcquire].
  apply (orderStep_insert r l record
           {| readers := readers record; writer := writer record;
              queue := filter (λ req, req ≠ request) (queue record) |} [] w); try done.
  - rewrite app_nil_r. apply sublist_filter.
  - by intros req ?%elem_of_nil.
Qed.

Lemma orderStep_fireTimer i h t w :
  Inv w → timers w !! h = Some t → orderStep w (fireTimer i h t w).
Proof.
  intros HI Hth. unfold fireTimer. destruct (callback t) as [l r request|r sid] eqn:Hc.
  - by eapply orderStep_onTimeout.
  - eapply orderStep_trans; [apply (orderStep_same w (clearTimeout h w)); done|].
    apply orderStep_releaseLock. by eapply Inv_clear_simulated.
Qed.

Lemma orderStep_logAwaiterResume i k o w : Inv w → orderStep w (logAwaiterResume i k o w).
Proof.
  intros HI. destruct k, o; simpl; try apply orderStep_refl; try (by apply orderStep_same).
  - by apply orderStep_releaseLockResume.
  - eapply orderStep_trans; [apply (orderStep_cleanup resourceId)|].
    apply orderStep_forceUnlockReturn.
  - apply orderStep_forceUnlockReturn.
Qed.

Lemma orderStep_runTask i t w : Inv w → orderStep w (runTask i t w).
Proof.
  intros HI. destruct t as [line dir k|rest|t r s holdMs]; simpl.
  - unfold logResume. destruct dir; simpl; [|by apply orderStep_logAwaiterResume].
    rewrite catch_ignore_Fulfilled.
    eapply orderStep_trans; [|apply orderStep_logAwaiterResume, Inv_pushRecentLog, HI].
    by apply orderStep_same.
  - by apply orderStep_clearAllLoop.
  - unfold simulateResume, setTimeout, settle. apply orderStep_same; simpl; try done. lia.
Qed.

Lemma orderStep_step w w' : Inv w → step w w' → orderStep w w'.
Proof.
  intros HI Hs. destruct Hs.
  - by apply orderStep_enqueue.
  - by apply orderStep_enqueue.
  - by apply orderStep_releaseLock.
  - by apply orderStep_forceUnlock.
  - by apply orderStep_clearAllLoop.
  - by apply orderStep_enqueue.
  - by apply orderStep_enqueue.
  - apply orderStep_same; simpl; try done. lia.
  - by apply orderStep_fireTimer.
  - eapply orderStep_trans; [|apply orderStep_runTask; by apply (Inv_ext w)].
    by apply orderStep_same.
Qed.

Lemma orderStep_steps e w w' : reachable e w → rtc step w w' → orderStep w w'.
Proof.
  intros Hr Hs. induction Hs as [w|w w1 w2 H1 _ IH]; [apply orderStep_refl|].
  eapply orderStep_trans; [apply orderStep_step; [by eapply reachable_Inv|done]|].
  apply IH. by eapply reachable_step.
Qed.

Lemma sublist_before (l k : list LockRequest) a b :
  l `sublist_of` k → NoDup k → before k a b → a ∈ l → b ∈ l → before l a b.
Proof.
  intros Hs Hnd (k1 & k2 & k3 & ->) Ha Hb.
  apply NoDup_app in Hnd as (_ & Hd1 & Hnd). apply NoDup_cons in Hnd as [Ha2 Hnd].
  apply NoDup_app in Hnd as (_ & Hd2 & Hnd). apply NoDup_cons in Hnd as [Hb3 _].
  assert (a ≠ b) as Hab.
  { intros ->. apply Ha2. apply elem_of_app. right. left. }
  apply sublist_app_r in Hs as (l1 & l2 & -> & Hs1 & Hs2).
  assert (a ∉ l1) as Ha1.
  { intros Hin. apply (Hd1 a); [by eapply elem_of_sublist|left]. }
  assert (b ∉ l1) as Hb1.
  { intros Hin. apply (Hd1 b); [by eapply elem_of_sublist|].
    right. apply elem_of_app. right. left. }
  apply sublist_cons_r in Hs2 as [Hs2|(l2' & -> & Hs2)].
  { exfalso. apply Ha2. apply elem_of_app in Ha as [Ha|Ha]; [done|]. by eapply elem_of_sublist. }
  apply sublist_app_r in Hs2 as (m1 & m2 & -> & Hm1 & Hm2).
  assert (b ∉ m1) as Hbm1.
  { intros Hin. apply (Hd2 b); [by eapply elem_of_sublist|left]. }
  apply sublist_cons_r in Hm2 as [Hm2|(m2' & -> & Hm2)].
  { exfalso. apply Hb3. rewrite !elem_of_app, elem_of_cons, elem_of_app in Hb.
    destruct Hb as [?|[?|[?|?]]]; try done. by eapply elem_of_sublist. }
  by exists l1, m1, m2'.
Qed.

(** X4. The order in which requests wait for a resource is never changed: over
    any number of turns of the event loop, what is in the queue is a part
    of what was in it, in the same order, followed by requests made since;
    so of two requests that are still waiting, the one that was in front
    is still in front. *)
Theorem waiting_order_is_kept e w w' r :
  reachable e w → rtc step w w' →
  (∃ new, queueOf r w' `sublist_of` queueOf r w ++ new
          ∧ ∀ req, req ∈ new → req ∉ queueOf r w)
  ∧ ∀ req1 req2,
      before (queueOf r w) req1 req2 →
      req1 ∈ queueOf r w' → req2 ∈ queueOf r w' →
      before (queueOf r w') req1 req2.
Proof.
  intros Hr Hs. pose proof (reachable_Inv _ _ Hr) as HI.
  destruct (orderStep_steps e w w' Hr Hs) as [_ Ho].
  destruct (Ho r) as (new & Hsub & Hnew).
  assert (∀ req, req ∈ queueOf r w → timer req < fresh w) as Hold.
  { intros req Hin. unfold queueOf in Hin.
    destruct (lookupRecord r w) as [[l record]|] eqn:Hl; [|by apply elem_of_nil in Hin].
    destruct (reachable_LedgerInv _ _ Hr) as [_ Ht].
    apply (Ht (r, req)). apply elem_of_app. left. apply elem_of_queuedRequests; eauto. }
  assert (∀ req, req ∈ new → req ∉ queueOf r w) as Hfresh.
  { intros req Hin Hin'. apply Hnew in Hin. apply Hold in Hin'. lia. }
  split; [eauto|]. intros req1 req2 Hb H1 H2.
  assert (NoDup (queueOf r w)) as Hnd.
  { unfold queueOf. destruct (lookupRecord r w) as [[l record]|] eqn:Hl; [|constructor].
    apply lookupRecord_Some in Hl as [_ Hh]. by eapply inv_queue_nodup. }
  assert (req1 ∈ queueOf r w ∧ req2 ∈ queueOf r w) as [Hq1 Hq2].
  { destruct Hb as (q1 & q2 & q3 & ->). split.
    - apply elem_of_app. right. left.
    - apply elem_of_app. right. right. apply elem_of_app. right. left. }
  apply sublist_app_r in Hsub as (l1 & l2 & Heq & Hs1 & Hs2). rewrite Heq in *.
  assert (∀ req, req ∈ queueOf r w → req ∈ l1 ++ l2 → req ∈ l1) as Hin1.
  { intros req Hq [?|Hin]%elem_of_app; [done|]. exfalso.
    apply (Hfresh req); [by eapply elem_of_sublist|done]. }
  destruct (sublist_before l1 (queueOf r w) req1 req2 Hs1 Hnd Hb) as (k1 & k2 & k3 & ->);
    [by apply Hin1|by apply Hin1|].
  exists k1, k2, (k3 ++ l2).
  rewrite <- (assoc_L (++)). simpl. by rewrite <- (assoc_L (++)).
Qed.

Lemma waiting_order_is_kept_witness :
  reachable env0 ex_writer_rrw
  ∧ rtc step ex_writer_rrw ex_release_suspended
  ∧ (∃ new, queueOf "R" ex_release_suspended `sublist_of` queueOf "R" ex_writer_rrw ++ new
            ∧ ∀ req, req ∈ new → req ∉ queueOf "R" ex_writer_rrw)
  ∧ ∀ req1 req2,
      before (queueOf "R" ex_writer_rrw) req1 req2 →
      req1 ∈ queueOf "R" ex_release_suspended → req2 ∈ queueOf "R" ex_release_suspended →
      before (queueOf "R" ex_release_suspended) req1 req2.
Proof.
  assert (rtc step ex_writer_rrw ex_release_suspended) as Hs
    by apply rtc_once, step_releaseLock.
  split_and!; [apply ex_writer_rrw_reachable|exact Hs|..];
    apply (waiting_order_is_kept env0 ex_writer_rrw ex_release_suspended "R"
             ex_writer_rrw_reachable Hs).
Defined.

(** ** Acquiring: granted at once, or queued at the back *)

Lemma pushRequest_queue_nonempty request record : queue (pushRequest request record) ≠ [].
Proof. simpl. by destruct (queue record). Qed.

(** [enqueue] pushes the request and runs one scheduler pass. *)
Lemma enqueue_closed i r s t a w l w1 :
  Inv w → getRecord r w = (l, w1) →
  let request := {| type := t; sessionId := s; timer := fresh w1;
                    requestedAt := now i; awaiter := a |} in
  let w' := enqueue i r s t (LOCK_TIMEOUT_MS (processEnv w)) a w in
  ∃ record, heap w1 !! l = Some record ∧
    let sched := schedule (now i) (pushRequest request record) in
    lookupRecord r w' = Some (l, sched.2)
    ∧ outbox w' = outbox w1 ++ grantedEvents r sched.1
    ∧ (∀ h, timers w' !! h =
            if decide (h ∈ timer <$> sched.1) then None
            else <[fresh w1 := requestTimer (processEnv w) l r request]> (timers w1) !! h).
Proof.
  intros HI Hg request w'.
  destruct (Inv_getRecord r w HI) as (HI1 & Hrl & He). rewrite Hg in HI1, Hrl, He. simpl in *.
  destruct (inv_alloc _ HI1 _ _ Hrl) as [record Hh]. exists record. split; [done|].
  pose proof (Inv_push i r l t s a w1 HI1 Hrl) as HI3. cbv zeta in HI3. rewrite He in HI3.
  apply (Inv_log i (queuedMessage t r s) NotAwaited) in HI3.
  subst w'. unfold enqueue. rewrite Hg. cbn [setTimeout]. fold request.
  match goal with |- context [processQueue i r ?x] => set (w4 := x) in * end.
  assert (lookupRecord r w4 = Some (l, pushRequest request record)) as Hl4.
  { apply (lookupRecord_insert r l _ w1); [done|done|by subst w4; wsimpl|].
    subst w4. wsimpl. by rewrite (alter_lookup_insert _ _ _ _ Hh). }
  rewrite (processQueue_schedule i r w4 l _ Hl4).
  destruct (queue (pushRequest request record)) eqn:Eq;
    [by apply pushRequest_queue_nonempty in Eq|]. clear Eq.
  apply (lookupRecord_elem_of _ _ _ _ HI3) in Hl4 as [Hin4 Hh4].
  split_and!.
  - rewrite <- (proj1 (lookupRecord_insert r l (schedule (now i) (pushRequest request record)).2
                        w4 (set_heap <[l := (schedule (now i) (pushRequest request record)).2]> w4)
                        HI3 Hin4 eq_refl eq_refl)).
    apply lookupRecord_same; by wsimpl.
  - subst w4. by wsimpl.
  - intros h. subst w4. rewrite resolveAll_timers. by wsimpl.
Qed.

Lemma getRecord_lookup r w :
  Inv w →
  match lookupRecord r w with
  | Some (l, record) => getRecord r w = (l, w)
  | None =>
      ∃ w1, getRecord r w = (fresh w, w1)
            ∧ heap w1 !! fresh w = Some emptyRecord
            ∧ fresh w1 = S (fresh w) ∧ outbox w1 = outbox w ∧ timers w1 = timers w
  end.
Proof.
  intros HI. destruct (lookupRecord r w) as [[l record]|] eqn:Hl.
  - apply lookupRecord_Some in Hl as [Hg _]. unfold getRecord. by rewrite Hg.
  - apply (lookupRecord_None _ _ HI) in Hl.
    destruct (getRecord_cases r w) as [(l & Hg & _)|[_ ->]]; [congruence|].
    eexists. split; [done|]. simpl. by rewrite lookup_insert_eq.
Qed.

Lemma timers_arm_clear (tm : gmap nat Timer) (tm' : gmap nat Timer) h x :
  tm !! h = None →
  (∀ h', tm' !! h' = if decide (h' ∈ [h]) then None else <[h := x]> tm !! h') →
  tm' = tm.
Proof.
  intros Hn Hp. apply map_eq. intros h'. rewrite Hp. case_decide as Hd.
  - apply list_elem_of_singleton in Hd. by subst.
  - rewrite lookup_insert_ne; [done|]. intros <-. apply Hd. by apply list_elem_of_singleton.
Qed.

Lemma fresh_timer_None w : Inv w → timers w !! fresh w = None.
Proof.
  intros HI. apply eq_None_not_Some. intros Hs. apply (inv_timers_fresh _ HI) in Hs. lia.
Qed.

(** X5. An acquire on a resource that has no writer and nobody waiting: a
    read is granted in the same turn, whoever else reads; a write is
    granted in the same turn when nobody reads.  The acquire is settled,
    the holder is entered in the record with the time of the call, nothing
    is left in the queue, and the time-out timer armed for the request is
    cleared again. *)
Theorem acquire_uncontended e i r s a w :
  reachable e w → uncontended r w →
  (∃ l request,
     type request = read ∧ sessionId request = s ∧ awaiter request = a
     ∧ lookupRecord r (enqueue i r s read (LOCK_TIMEOUT_MS e) a w) =
         Some (l, {| readers := JsMap.set s (now i) (readersOf r w);
                     writer := None; queue := [] |})
     ∧ outbox (enqueue i r s read (LOCK_TIMEOUT_MS e) a w) =
         outbox w ++ [Settled (Acquire r request) Fulfilled]
     ∧ timers (enqueue i r s read (LOCK_TIMEOUT_MS e) a w) = timers w)
  ∧ (readersOf r w = [] →
     ∃ l request,
       type request = write ∧ sessionId request = s ∧ awaiter request = a
       ∧ lookupRecord r (enqueue i r s write (LOCK_TIMEOUT_MS e) a w) =
           Some (l, {| readers := []; writer := Some (s, now i); queue := [] |})
       ∧ outbox (enqueue i r s write (LOCK_TIMEOUT_MS e) a w) =
           outbox w ++ [Settled (Acquire r request) Fulfilled]
       ∧ timers (enqueue i r s write (LOCK_TIMEOUT_MS e) a w) = timers w).
Proof.
  intros Hr Hu. pose proof (reachable_Inv _ _ Hr) as HI.
  rewrite <- (reachable_processEnv _ _ Hr).
  pose proof (getRecord_lookup r w HI) as Hg. unfold readersOf, uncontended in *.
  assert (∃ l w1 record,
            getRecord r w = (l, w1) ∧ heap w1 !! l = Some record
            ∧ writer record = None ∧ queue record = []
            ∧ readers record = match lookupRecord r w with
                               | Some (_, record) => readers record
                               | None => []
                               end
            ∧ outbox w1 = outbox w ∧ timers w1 = timers w
            ∧ timers w1 !! fresh w1 = None) as (l & w1 & record & Hg1 & Hh & Hw & Hq & Hrd & Ho & Ht & Hf).
  { destruct (lookupRecord r w) as [[l record]|] eqn:Hl.
    - destruct (Hu l record eq_refl) as [Hw Hq]. exists l, w, record.
      apply lookupRecord_Some in Hl as [_ Hh]. split_and!; try done.
      by apply fresh_timer_None.
    - destruct Hg as (w1 & Hg & Hh & Hf & Ho & Ht). exists (fresh w), w1, emptyRecord.
      split_and!; try done. rewrite Hf, Ht. apply eq_None_not_Some.
      intros Hs. apply (inv_timers_fresh _ HI) in Hs. lia. }
  rewrite <- Hrd. clear Hrd Hg.
  split; [|intros Hnil].
  - destruct (enqueue_closed i r s read a w l w1 HI Hg1) as (record' & Hh' & Hl' & Ho' & Ht').
    rewrite Hh in Hh'. injection Hh' as <-. cbv zeta in *.
    unfold schedule, pushRequest in *. simpl in *. rewrite Hq, Hw in *. simpl in *.
    eexists l, _. split_and!; [| | |exact Hl'|by rewrite Ho', Ho|]; try done.
    rewrite <- Ht. by eapply timers_arm_clear.
  - destruct (enqueue_closed i r s write a w l w1 HI Hg1) as (record' & Hh' & Hl' & Ho' & Ht').
    rewrite Hh in Hh'. injection Hh' as <-. cbv zeta in *.
    unfold schedule, pushRequest in *. simpl in *. rewrite Hq, Hw, Hnil in *. simpl in *.
    eexists l, _. split_and!; [| | |exact Hl'|by rewrite Ho', Ho|]; try done.
    rewrite <- Ht. by eapply timers_arm_clear.
Qed.

Lemma acquire_uncontended_witness :
  reachable env0 ex_reader ∧ uncontended "R" ex_reader
  ∧ ∃ l request,
      type request = read ∧ sessionId request = "s2" ∧ awaiter request = ByCaller
      ∧ lookupRecord "R" (enqueue (at_ 2) "R" "s2" read (LOCK_TIMEOUT_MS env0) ByCaller ex_reader)
        = Some (l, {| readers := JsMap.set "s2" (now (at_ 2)) (readersOf "R" ex_reader);
                      writer := None; queue := [] |})
      ∧ outbox (enqueue (at_ 2) "R" "s2" read (LOCK_TIMEOUT_MS env0) ByCaller ex_reader)
        = outbox ex_reader ++ [Settled (Acquire "R" request) Fulfilled]
      ∧ timers (enqueue (at_ 2) "R" "s2" read (LOCK_TIMEOUT_MS env0) ByCaller ex_reader)
        = timers ex_reader.
Proof.
  split_and!; [apply ex_reader_reachable|apply ex_reader_uncontended|].
  apply (acquire_uncontended env0 (at_ 2) "R" "s2" ByCaller ex_reader ex_reader_reachable
           ex_reader_uncontended).
Defined.

(** X6. An acquire that has to wait: the request goes to the back of the
    queue, nothing is granted and nothing settled in that turn, and its
    time-out timer is armed, with the delay that [setTimeout] makes of
    [LOCK_TIMEOUT_MS]. *)
Theorem acquire_contended e i r s t a w l record :
  reachable e w → lookupRecord r w = Some (l, record) → mustWait t record →
  let request := {| type := t; sessionId := s; timer := fresh w;
                    requestedAt := now i; awaiter := a |} in
  let w' := enqueue i r s t (LOCK_TIMEOUT_MS e) a w in
  lookupRecord r w' = Some (l, pushRequest request record)
  ∧ outbox w' = outbox w
  ∧ timers w' = <[fresh w := requestTimer e l r request]> (timers w).
Proof.
  intros Hr Hl Hm request w'. pose proof (reachable_Inv _ _ Hr) as HI.
  subst w'. rewrite <- (reachable_processEnv _ _ Hr).
  pose proof (getRecord_lookup r w HI) as Hg. rewrite Hl in Hg.
  destruct (enqueue_closed i r s t a w l w HI Hg) as (record' & Hh' & Hl' & Ho' & Ht').
  apply lookupRecord_Some in Hl as [_ Hh]. rewrite Hh in Hh'. injection Hh' as <-.
  cbv zeta in *. fold request in Hl', Ho', Ht'.
  assert (schedule (now i) (pushRequest request record) = ([], pushRequest request record))
    as Hs.
  { unfold schedule. cbn [pushRequest readers writer queue].
    destruct (decide (readers record = [])) as [Hd|Hd].
    - destruct Hm as [Hw|[Hrd _]]; [|done].
      destruct (writer record) eqn:Ew; [|congruence]. by destruct (queue record).
    - destruct (writer record) eqn:Ew; [by destruct (queue record)|].
      destruct Hm as [Hw|[_ Hhead]]; [congruence|].
      destruct (queue record) as [|next rest]; cbn [app].
      + subst t. done.
      + by rewrite Hhead. }
  rewrite Hs in Hl', Ho', Ht'. cbn [fst snd] in *.
  split_and!; [done|by rewrite Ho'; apply app_nil_r|].
  apply map_eq. intros h. rewrite Ht', fmap_nil. by rewrite decide_False by apply not_elem_of_nil.
Qed.

Lemma acquire_contended_witness :
  reachable env0 ex_writer
  ∧ lookupRecord "R" ex_writer
    = Some (1, {| readers := []; writer := Some ("s1", 1%Z); queue := [] |})
  ∧ mustWait read {| readers := []; writer := Some ("s1", 1%Z); queue := [] |}
  ∧ lookupRecord "R" (enqueue (at_ 2) "R" "s2" read (LOCK_TIMEOUT_MS env0) ByCaller ex_writer)
    = Some (1, pushRequest (request_of read "s2" 3 2)
                 {| readers := []; writer := Some ("s1", 1%Z); queue := [] |})
  ∧ outbox (enqueue (at_ 2) "R" "s2" read (LOCK_TIMEOUT_MS env0) ByCaller ex_writer)
    = outbox ex_writer
  ∧ timers (enqueue (at_ 2) "R" "s2" read (LOCK_TIMEOUT_MS env0) ByCaller ex_writer)
    = <[3 := requestTimer env0 1 "R" (request_of read "s2" 3 2)]> (timers ex_writer).
Proof.
  assert (lookupRecord "R" ex_writer
          = Some (1, {| readers := []; writer := Some ("s1", 1%Z); queue := [] |})) as Hl
    by (vm_compute; reflexivity).
  assert (mustWait read {| readers := []; writer := Some ("s1", 1%Z); queue := [] |}) as Hm
    by (by left).
  split_and!; [apply ex_writer_reachable|exact Hl|exact Hm|..];
    apply (acquire_contended env0 (at_ 2) "R" "s2" read ByCaller ex_writer 1 _
             ex_writer_reachable Hl Hm).
Defined.

(** ** Releasing: the session is out, and the lock is handed over *)

Lemma JsMap_get_set {V} k k' (v : V) m :
  JsMap.get k' (JsMap.set k v m) = if decide (k = k') then Some v else JsMap.get k' m.
Proof.
  induction m as [|[k0 v0] m IH]; csimpl.
  - done.
  - destruct (decide (k0 = k)) as [->|Hne]; csimpl.
    + by destruct (decide (k = k')).
    + rewrite IH. destruct (decide (k0 = k')) as [->|]; [|done].
      by rewrite decide_False.
Qed.

Lemma admitReaders_get t sid qs rd :
  (∀ req, req ∈ qs → sessionId req ≠ sid) →
  JsMap.get sid (admitReaders t qs rd) = JsMap.get sid rd.
Proof.
  revert rd. induction qs as [|q qs IH]; intros rd Hq; [done|].
  simpl. rewrite IH by (intros req ?; apply Hq; by right).
  rewrite JsMap_get_set, decide_False; [done|]. apply Hq. by left.
Qed.

Lemma withoutSession_free sid record : recordFree sid (withoutSession sid record).
Proof.
  unfold recordFree, withoutSession. simpl. split_and!.
  - rewrite JsMap_get_delete. by rewrite decide_True.
  - case_bool_decide; done.
  - intros req [Hs _]%list_elem_of_filter. done.
Qed.

Lemma schedule_free t sid record :
  recordFree sid record → recordFree sid (schedule t record).2.
Proof.
  intros (Hrd & Hw & Hq). pose proof (schedule_prefix t record) as Hp.
  assert (∀ req, req ∈ (schedule t record).1 → sessionId req ≠ sid) as Hg.
  { intros req Hin. apply Hq. rewrite Hp. apply elem_of_app. by left. }
  assert (∀ req, req ∈ queue (schedule t record).2 → sessionId req ≠ sid) as Hk.
  { intros req Hin. apply Hq. rewrite Hp. apply elem_of_app. by right. }
  split_and!; [| |done]; clear Hk Hp; unfold schedule in *.
  - destruct (queue record) as [|next rest]; [done|].
    destruct (writer record); [done|].
    destruct (type next); cbn [fst snd readers] in *.
    + by rewrite admitReaders_get.
    + by case_decide.
  - destruct (queue record) as [|next rest]; [done|].
    destruct (writer record) eqn:Ew; [cbn [fst snd]; by rewrite Ew|].
    destruct (type next); cbn [fst snd writer] in *; [done|].
    case_decide; cbn [fst snd writer] in *; [|by rewrite Ew].
    intros [= Hs]. apply (Hg next); [by left|done].
Qed.

(** A scheduler pass followed by [cleanup], as [releaseLock] ends. *)
Lemma reschedule_closed i r w l record :
  Inv w → lookupRecord r w = Some (l, record) →
  let w' := cleanup r (processQueue i r w) in
  lookupRecord r w' =
    (if isIdle record then None else Some (l, (schedule (now i) record).2))
  ∧ outbox w' = outbox w ++ grantedEvents r (schedule (now i) record).1
  ∧ othersSame r w w'.
Proof.
  intros HI Hl. cbv zeta.
  assert (othersSame r w (cleanup r (processQueue i r w))) as Ho.
  { eapply othersSame_trans; [by apply processQueue_post|apply cleanup_post]. }
  split_and!; [| |done]; rewrite (processQueue_schedule i r w l record Hl).
  - destruct (queue record) as [|next rest] eqn:Eq.
    + assert ((schedule (now i) record).2 = record) as -> by (unfold schedule; by rewrite Eq).
      assert (lookupRecord r (set_locks (JsMap.delete r) w) = None) as Hd.
      { unfold lookupRecord. simpl. rewrite JsMap_get_delete. by rewrite decide_True. }
      destruct (isIdle record) eqn:Hi.
      * unfold cleanup at 2. rewrite Hl, Hi. unfold cleanup. by rewrite Hd.
      * unfold cleanup at 2. rewrite Hl, Hi. unfold cleanup. by rewrite Hl, Hi.
    + assert (isIdle record = false) as -> by (apply isIdle_false; rewrite Eq; by right; right).
      pose proof Hl as Hl'. apply (lookupRecord_elem_of _ _ _ _ HI) in Hl' as [Hin Hh].
      assert (lookupRecord r (resolveAll i r (schedule (now i) record).1
                (set_heap <[l := (schedule (now i) record).2]> w))
              = Some (l, (schedule (now i) record).2)) as Hl2.
      { rewrite <- (proj1 (lookupRecord_insert r l (schedule (now i) record).2 w
                            (set_heap <[l := (schedule (now i) record).2]> w)
                            HI Hin eq_refl eq_refl)).
        apply lookupRecord_same; by wsimpl. }
      unfold cleanup at 1. rewrite Hl2.
      destruct (schedule_settled (now i) record) as [-> _]; [by rewrite Eq|]. done.
  - destruct (queue record) as [|next rest] eqn:Eq.
    + wsimpl. unfold schedule. rewrite Eq. simpl. by rewrite app_nil_r.
    + by wsimpl.
Qed.

Lemma holdsNothing_free r sid w :
  holdsNothing r sid w ↔ ∀ l record, lookupRecord r w = Some (l, record) → recordFree sid record.
Proof. done. Qed.

Lemma release_core_lookup r sid l record w :
  Inv w → lookupRecord r w = Some (l, record) →
  let w1 := rejectAll r (λ _, cancelError sid)
              (filter (λ req, sessionId req = sid) (queue record))
              (set_heap <[l := withoutSession sid record]> w) in
  Inv w1 ∧ lookupRecord r w1 = Some (l, withoutSession sid record) ∧ othersSame r w w1.
Proof.
  intros HI Hl. cbv zeta. split; [by apply Inv_release_core|].
  apply (lookupRecord_elem_of _ _ _ _ HI) in Hl as [Hin Hh].
  apply (lookupRecord_insert r l _ w); [done|done|by wsimpl|by wsimpl].
Qed.

Lemma releaseLockResume_free i r sid w :
  Inv w → holdsNothing r sid w → holdsNothing r sid (releaseLockResume i r sid w).
Proof.
  intros HI Hf l record. unfold releaseLockResume.
  rewrite (lookupRecord_same r (cleanup r (processQueue i r w)) _) by done.
  destruct (lookupRecord r w) as [[l0 record0]|] eqn:Hl.
  - destruct (reschedule_closed i r w l0 record0 HI Hl) as (-> & _ & _).
    destruct (isIdle record0); [done|]. intros [= <- <-].
    apply schedule_free. exact (Hf l0 record0 Hl).
  - unfold processQueue. rewrite Hl. unfold cleanup. rewrite Hl. congruence.
Qed.

Lemma releaseLock_free i r sid w : Inv w → holdsNothing r sid (releaseLock i r sid w).
Proof.
  intros HI. destruct (lookupRecord r w) as [[l record]|] eqn:Hl.
  - rewrite (releaseLock_unfold i r sid w l record Hl). cbv zeta.
    destruct (release_core_lookup r sid l record w HI Hl) as (HI1 & Hl1 & _).
    fold (withoutSession sid record).
    destruct (bool_decide (fst <$> writer record = Some sid) || JsMap.has sid (readers record)).
    + intros l0 record0. rewrite (lookupRecord_same r _ _ (log_locks _ _ _ _) (log_heap _ _ _ _)).
      rewrite Hl1. intros [= <- <-]. apply withoutSession_free.
    + apply (releaseLockResume_free i r sid _ HI1).
      intros l0 record0. rewrite Hl1. intros [= <- <-]. apply withoutSession_free.
  - unfold releaseLock. rewrite Hl. intros l record.
    rewrite (lookupRecord_same r w _) by done. by rewrite Hl.
Qed.

(** X7. After [releaseLock] the session is out: it is not a reader and not the
    writer of the resource and has no request in its queue, however often
    it had acquired; and the rest of [releaseLock], which reschedules, does
    not bring it back. *)
Theorem release_leaves_session_out e i r sid w :
  reachable e w →
  holdsNothing r sid (releaseLock i r sid w)
  ∧ ∀ i' w1, reachable e w1 → holdsNothing r sid w1 →
      holdsNothing r sid (releaseLockResume i' r sid w1).
Proof.
  intros Hr. split; [apply releaseLock_free; by eapply reachable_Inv|].
  intros i' w1 Hr1. apply releaseLockResume_free. by eapply reachable_Inv.
Qed.

Lemma release_leaves_session_out_witness :
  reachable env0 ex_writer_rrw
  ∧ holdsNothing "R" "s1" (releaseLock (at_ 5) "R" "s1" ex_writer_rrw)
  ∧ ∀ i' w1, reachable env0 w1 → holdsNothing "R" "s1" w1 →
      holdsNothing "R" "s1" (releaseLockResume i' "R" "s1" w1).
Proof.
  split; [apply ex_writer_rrw_reachable|].
  apply (release_leaves_session_out env0 (at_ 5) "R" "s1" ex_writer_rrw),
    ex_writer_rrw_reachable.
Defined.

(** [releaseLock] by a holder, and its continuation when the audit write
    has completed. *)
Lemma release_closed i i' r sid w l record :
  Inv w → lookupRecord r w = Some (l, record) →
  holds sid record = true → dirOutcome i w = Fulfilled →
  let left := withoutSession sid record in
  let task := TLog (now i, releasedMessage r sid) Fulfilled (InReleaseLock r sid) in
  let w1 := releaseLock i r sid w in
  let w2 := runTask i' task (set_tasks (delete (length (tasks w))) w1) in
  lookupRecord r w1 = Some (l, left)
  ∧ tasks w1 = tasks w ++ [task]
  ∧ step w1 w2
  ∧ lookupRecord r w2 =
      (if isIdle left then None else Some (l, (schedule (now i') left).2))
  ∧ outbox w2 =
      outbox w1 ++ grantedEvents r (schedule (now i') left).1
      ++ [Settled (Release r sid) Fulfilled]
  ∧ othersSame r w w2.
Proof.
  intros HI Hl Hh Hd left task w1 w2.
  destruct (release_core_lookup r sid l record w HI Hl) as (HI1 & Hl1 & Ho1).
  cbv zeta in *. fold left in HI1, Hl1, Ho1.
  assert (w1 = log i (releasedMessage r sid) (InReleaseLock r sid)
                 (rejectAll r (λ _, cancelError sid)
                    (filter (λ req, sessionId req = sid) (queue record))
                    (set_heap <[l := left]> w))) as Hw1.
  { subst w1. rewrite (releaseLock_unfold i r sid w l record Hl). cbv zeta.
    unfold holds in Hh. by rewrite Hh. }
  assert (tasks w1 = tasks w ++ [task]) as Ht.
  { rewrite Hw1, log_tasks. wsimpl. unfold dirOutcome in *. wsimpl. by rewrite Hd. }
  assert (lookupRecord r w1 = Some (l, left)) as Hlw1.
  { rewrite Hw1. rewrite (lookupRecord_same r _ _ (log_locks _ _ _ _) (log_heap _ _ _ _)). done. }
  set (w0 := set_tasks (delete (length (tasks w))) w1) in *.
  assert (Inv w1) as HIw1 by (rewrite Hw1; by apply Inv_log).
  assert (Inv (pushRecentLog (now i, releasedMessage r sid) w0)) as HI2.
  { apply Inv_pushRecentLog. by apply (Inv_ext w1). }
  assert (lookupRecord r (pushRecentLog (now i, releasedMessage r sid) w0) = Some (l, left))
    as Hl2 by (by rewrite (lookupRecord_same r w1 _)).
  assert (w2 = settle (Release r sid) Fulfilled
                 (cleanup r (processQueue i' r
                    (pushRecentLog (now i, releasedMessage r sid) w0)))) as Hw2.
  { subst w2 task. cbn [runTask logResume]. by rewrite catch_ignore_Fulfilled. }
  destruct (reschedule_closed i' r _ l left HI2 Hl2) as (Hl3 & Ho3 & Hs3).
  split_and!; [done|done| | | |].
  - subst w2. apply step_task. rewrite Ht. by apply list_lookup_middle.
  - rewrite Hw2, (lookupRecord_same r (cleanup r (processQueue i' r
                    (pushRecentLog (now i, releasedMessage r sid) w0))) _) by done.
    exact Hl3.
  - rewrite Hw2. cbn [settle emit outbox]. rewrite Ho3. by rewrite <- (assoc_L (++)).
  - intros r' Hne. rewrite Hw2, (lookupRecord_same r' (cleanup r (processQueue i' r
                    (pushRecentLog (now i, releasedMessage r sid) w0))) _) by done.
    rewrite (Hs3 r' Hne), (lookupRecord_same r' w1 _) by done.
    rewrite Hw1, (lookupRecord_same r' _ _ (log_locks _ _ _ _) (log_heap _ _ _ _)).
    by apply Ho1.
Qed.

(** X8. A holder releases and the audit write completes: the record without
    the session gets one scheduler pass, so the requests at the head of the
    queue that the departure lets in are granted, in queue order; the entry
    goes when nothing is left; other resources are not touched. *)
Theorem release_hands_over e i i' r sid w l record :
  reachable e w → lookupRecord r w = Some (l, record) →
  holds sid record = true → dirOutcome i w = Fulfilled →
  let left := withoutSession sid record in
  let task := TLog (now i, releasedMessage r sid) Fulfilled (InReleaseLock r sid) in
  let w1 := releaseLock i r sid w in
  let w2 := runTask i' task (set_tasks (delete (length (tasks w))) w1) in
  lookupRecord r w1 = Some (l, left)
  ∧ tasks w1 = tasks w ++ [task]
  ∧ step w1 w2
  ∧ lookupRecord r w2 =
      (if isIdle left then None else Some (l, (schedule (now i') left).2))
  ∧ outbox w2 =
      outbox w1 ++ grantedEvents r (schedule (now i') left).1
      ++ [Settled (Release r sid) Fulfilled]
  ∧ othersSame r w w2.
Proof. intros Hr. apply release_closed. by eapply reachable_Inv. Qed.

Lemma release_hands_over_witness :
  reachable env0 ex_writer_rrw
  ∧ lookupRecord "R" ex_writer_rrw = Some (1, ex_writer_record)
  ∧ holds "s1" ex_writer_record = true
  ∧ dirOutcome (at_ 5) ex_writer_rrw = Fulfilled
  ∧ let left := withoutSession "s1" ex_writer_record in
    let task := TLog (now (at_ 5), releasedMessage "R" "s1") Fulfilled
                  (InReleaseLock "R" "s1") in
    let w1 := releaseLock (at_ 5) "R" "s1" ex_writer_rrw in
    let w2 := runTask (at_ 6) task (set_tasks (delete (length (tasks ex_writer_rrw))) w1) in
    lookupRecord "R" w1 = Some (1, left)
    ∧ tasks w1 = tasks ex_writer_rrw ++ [task]
    ∧ step w1 w2
    ∧ lookupRecord "R" w2 =
        (if isIdle left then None else Some (1, (schedule (now (at_ 6)) left).2))
    ∧ outbox w2 =
        outbox w1 ++ grantedEvents "R" (schedule (now (at_ 6)) left).1
        ++ [Settled (Release "R" "s1") Fulfilled]
    ∧ othersSame "R" ex_writer_rrw w2.
Proof.
  assert (holds "s1" ex_writer_record = true) as Hh by (vm_compute; reflexivity).
  assert (dirOutcome (at_ 5) ex_writer_rrw = Fulfilled) as Hd by (vm_compute; reflexivity).
  split_and!; [apply ex_writer_rrw_reachable|apply ex_writer_rrw_lookup|exact Hh|exact Hd|].
  apply (release_hands_over env0 (at_ 5) (at_ 6) "R" "s1" ex_writer_rrw 1 ex_writer_record
           ex_writer_rrw_reachable ex_writer_rrw_lookup Hh Hd).
Defined.

Example writer_release_admits_both_readers :
  lookupRecord "R"
    (runTask (at_ 6)
       (TLog (5%Z, releasedMessage "R" "s1") Fulfilled (InReleaseLock "R" "s1"))
       (set_tasks (delete 5) (releaseLock (at_ 5) "R" "s1" ex_writer_rrw)))
  = Some (1, {| readers := [("s2", 6%Z); ("s3", 6%Z)]; writer := None;
                queue := [request_of write "s4" 5 4] |}).
Proof. vm_compute. reflexivity. Qed.

(** ** Simulated locks expire *)

Lemma processQueue_timers_None i r w h :
  timers w !! h = None → timers (processQueue i r w) !! h = None.
Proof.
  intros Hn. destruct (lookupRecord r w) as [[l record]|] eqn:Hl.
  - rewrite (processQueue_schedule i r w l record Hl).
    destruct (queue record); wsimpl; [done|]. by case_decide.
  - unfold processQueue. by rewrite Hl.
Qed.

Lemma releaseLock_timers_None i r sid w h :
  timers w !! h = None → timers (releaseLock i r sid w) !! h = None.
Proof.
  intros Hn. unfold releaseLock. destruct (lookupRecord r w) as [[l record]|]; [|done].
  cbv zeta.
  assert (timers (rejectAll r (λ _, cancelError sid)
                    (filter (λ req, sessionId req = sid) (queue record))
                    (set_heap <[l := {| readers := JsMap.delete sid (readers record);
                                        writer := if bool_decide (fst <$> writer record = Some sid)
                                                  then None else writer record;
                                        queue := filter (λ req, sessionId req ≠ sid)
                                                   (queue record) |}]> w)) !! h = None) as H1.
  { wsimpl. by case_decide. }
  destruct (_ || _); [by wsimpl|].
  unfold releaseLockResume, settle. cbn [timers emit]. rewrite cleanup_timers.
  by apply processQueue_timers_None.
Qed.

Lemma simulateSession_inj t uuid t' uuid' :
  simulateSession t uuid = simulateSession t' uuid' → t = t' ∧ uuid = uuid'.
Proof. destruct t, t'; cbv [simulateSession LockType_to_string]; simpl; intros [= ?]; done. Qed.

(** X9. The session ids that the simulate calls generate tell the calls
    apart: two of them coincide only for the same mode and the same UUID. *)
Theorem simulated_sessions_are_distinct t uuid t' uuid' :
  simulateSession t uuid = simulateSession t' uuid' ↔ t = t' ∧ uuid = uuid'.
Proof. split; [apply simulateSession_inj|]. by intros [-> ->]. Qed.

(** X10. When the release timer of a simulated session fires, [releaseLock]
    runs for that session: the timer is gone, the session is no longer a
    reader or the writer of the resource and has nothing queued there; and
    if it held the lock, then once the audit write has completed the
    scheduler has handed the resource to the requests next in line, with no
    release call from outside. *)
Theorem simulated_lock_expires e i i' h t r sid w :
  reachable e w → timers w !! h = Some t → callback t = SimulatedRelease r sid →
  let w1 := fireTimer i h t w in
  timers w1 !! h = None
  ∧ holdsNothing r sid w1
  ∧ ∀ l record,
      lookupRecord r w = Some (l, record) → holds sid record = true →
      dirOutcome i w = Fulfilled →
      let left := withoutSession sid record in
      let task := TLog (now i, releasedMessage r sid) Fulfilled (InReleaseLock r sid) in
      let w2 := runTask i' task (set_tasks (delete (length (tasks w))) w1) in
      step w1 w2
      ∧ lookupRecord r w2 =
          (if isIdle left then None else Some (l, (schedule (now i') left).2))
      ∧ outbox w2 =
          outbox w1 ++ grantedEvents r (schedule (now i') left).1
          ++ [Settled (Release r sid) Fulfilled].
Proof.
  intros Hr Hth Hc w1. pose proof (reachable_Inv _ _ Hr) as HI.
  pose proof (Inv_clear_simulated h t r sid w HI Hth Hc) as HI0.
  assert (w1 = releaseLock i r sid (clearTimeout h w)) as Hw1.
  { subst w1. unfold fireTimer. by rewrite Hc. }
  split_and!.
  - rewrite Hw1. apply releaseLock_timers_None. cbn. apply lookup_delete_eq.
  - rewrite Hw1. by apply releaseLock_free.
  - intros l record Hl Hh Hd left task w2.
    destruct (release_closed i i' r sid (clearTimeout h w) l record HI0)
      as (_ & _ & Hs & Hl2 & Ho2 & _); try done.
    fold left task in Hs, Hl2, Ho2. rewrite <- Hw1 in Hs, Hl2, Ho2. done.
Qed.

Lemma simulated_lock_expires_witness :
  reachable env0 ex_simulated
  ∧ timers ex_simulated !! 3 = Some ex_release_timer
  ∧ callback ex_release_timer = SimulatedRelease "R" "sim-write-u1"
  ∧ let w1 := fireTimer (at_ 15002) 3 ex_release_timer ex_simulated in
    timers w1 !! 3 = None
    ∧ holdsNothing "R" "sim-write-u1" w1
    ∧ ∀ l record,
        lookupRecord "R" ex_simulated = Some (l, record) →
        holds "sim-write-u1" record = true →
        dirOutcome (at_ 15002) ex_simulated = Fulfilled →
        let left := withoutSession "sim-write-u1" record in
        let task := TLog (now (at_ 15002), releasedMessage "R" "sim-write-u1") Fulfilled
                      (InReleaseLock "R" "sim-write-u1") in
        let w2 := runTask (at_ 15003) task
                    (set_tasks (delete (length (tasks ex_simulated))) w1) in
        step w1 w2
        ∧ lookupRecord "R" w2 =
            (if isIdle left then None else Some (l, (schedule (now (at_ 15003)) left).2))
        ∧ outbox w2 =
            outbox w1 ++ grantedEvents "R" (schedule (now (at_ 15003)) left).1
            ++ [Settled (Release "R" "sim-write-u1") Fulfilled].
Proof.
  assert (timers ex_simulated !! 3 = Some ex_release_timer) as Ht by (vm_compute; reflexivity).
  split_and!; [apply ex_simulated_reachable|exact Ht|reflexivity|].
  apply (simulated_lock_expires env0 (at_ 15002) (at_ 15003) 3 ex_release_timer "R"
           "sim-write-u1" ex_simulated ex_simulated_reachable Ht eq_refl).
Defined.

Example simulated_write_expires :
  lookupRecord "R"
    (runTask (at_ 15003)
       (TLog (15002%Z, releasedMessage "R" "sim-write-u1") Fulfilled
          (InReleaseLock "R" "sim-write-u1"))
       (set_tasks (delete 2) (fireTimer (at_ 15002) 3 ex_release_timer ex_simulated)))
  = None.
Proof. vm_compute. reflexivity. Qed.

(** ** Resources are independent *)

(** X11. Whatever is done to one resource, by a call, a timer or a resumed
    continuation, the record of every other resource stays as it is. *)
Theorem resources_are_independent e w r r' :
  reachable e w → r' ≠ r →
  (∀ i s t a,
     lookupRecord r' (enqueue i r s t (LOCK_TIMEOUT_MS e) a w) = lookupRecord r' w)
  ∧ (∀ i s, lookupRecord r' (releaseLock i r s w) = lookupRecord r' w)
  ∧ (∀ i s, lookupRecord r' (releaseLockResume i r s w) = lookupRecord r' w)
  ∧ (∀ i c, lookupRecord r' (forceUnlock i r c w) = lookupRecord r' w)
  ∧ (∀ c, lookupRecord r' (forceUnlockResume r c w) = lookupRecord r' w)
  ∧ (∀ i h t l request,
       timers w !! h = Some t → callback t = RequestTimeout l r request →
       lookupRecord r' (fireTimer i h t w) = lookupRecord r' w)
  ∧ (∀ i h t s,
       timers w !! h = Some t → callback t = SimulatedRelease r s →
       lookupRecord r' (fireTimer i h t w) = lookupRecord r' w).
Proof.
  intros Hr Hne. pose proof (reachable_Inv _ _ Hr) as HI.
  rewrite <- (reachable_processEnv _ _ Hr). split_and!.
  - intros i s t a. by apply (enqueue_post i r s t a w HI).
  - intros i s. by apply (releaseLock_post i r s w HI).
  - intros i s. by apply (releaseLockResume_post i r s w HI).
  - intros i c. by apply (forceUnlock_post i r c w HI).
  - intros c. unfold forceUnlockResume.
    rewrite (lookupRecord_same r' (cleanup r w) _);
      [by apply cleanup_post| |]; unfold forceUnlockReturn; by repeat case_match.
  - intros i h t l request Hth Hc. unfold fireTimer. rewrite Hc.
    by apply (onTimeout_post i h t l r request w HI Hth Hc).
  - intros i h t s Hth Hc. unfold fireTimer. rewrite Hc.
    pose proof (Inv_clear_simulated h t r s w HI Hth Hc) as HI0.
    rewrite (proj1 (releaseLock_post i r s _ HI0) r' Hne). by apply lookupRecord_same.
Qed.

Lemma resources_are_independent_witness :
  reachable env0 ex_writer_rrw ∧ "S" ≠ "R"
  ∧ (∀ i s t a,
       lookupRecord "S" (enqueue i "R" s t (LOCK_TIMEOUT_MS env0) a ex_writer_rrw)
       = lookupRecord "S" ex_writer_rrw)
  ∧ (∀ i s, lookupRecord "S" (releaseLock i "R" s ex_writer_rrw)
            = lookupRecord "S" ex_writer_rrw)
  ∧ (∀ i s, lookupRecord "S" (releaseLockResume i "R" s ex_writer_rrw)
            = lookupRecord "S" ex_writer_rrw)
  ∧ (∀ i c, lookupRecord "S" (forceUnlock i "R" c ex_writer_rrw)
            = lookupRecord "S" ex_writer_rrw)
  ∧ (∀ c, lookupRecord "S" (forceUnlockResume "R" c ex_writer_rrw)
          = lookupRecord "S" ex_writer_rrw)
  ∧ (∀ i h t l request,
       timers ex_writer_rrw !! h = Some t → callback t = RequestTimeout l "R" request →
       lookupRecord "S" (fireTimer i h t ex_writer_rrw) = lookupRecord "S" ex_writer_rrw)
  ∧ (∀ i h t s,
       timers ex_writer_rrw !! h = Some t → callback t = SimulatedRelease "R" s →
       lookupRecord "S" (fireTimer i h t ex_writer_rrw) = lookupRecord "S" ex_writer_rrw).
Proof.
  assert ("S" ≠ "R") as Hne by done.
  split; [apply ex_writer_rrw_reachable|]. split; [exact Hne|].
  apply (resources_are_independent env0 ex_writer_rrw "R" "S" ex_writer_rrw_reachable Hne).
Defined.

(** ** [clearAll] run to its end *)

Lemma delete_snoc {A} (ts : list A) t : delete (length ts) (ts ++ [t]) = ts.
Proof. induction ts as [|x ts IH]; [done|]. simpl. by rewrite IH. Qed.

Lemma runLast_snoc i w ts t :
  tasks w = ts ++ [t] →
  runLast i w = runTask i t (set_tasks (delete (length ts)) w)
  ∧ step w (runLast i w)
  ∧ tasks (set_tasks (delete (length ts)) w) = ts.
Proof.
  intros Ht. unfold runLast. rewrite Ht, last_snoc, length_app. simpl.
  replace (length ts + 1 - 1) with (length ts) by lia.
  split_and!; [done| |by rewrite Ht, delete_snoc].
  apply step_task. rewrite Ht. by apply list_lookup_middle.
Qed.

Lemma forceUnlock_closed i r c w l record :
  Inv w → lookupRecord r w = Some (l, record) →
  let w1 := forceUnlock i r c w in
  Inv w1
  ∧ locks w1 = locks w
  ∧ heap w1 = <[l := emptyRecord]> (heap w)
  ∧ outbox w1 = outbox w ++ rejectEvents r flushError (queue record)
  ∧ (∃ line, tasks w1 = tasks w ++ [TLog line (dirOutcome i w) (InForceUnlock r c)])
  ∧ ensureLogDirPromise w1 = Some (dirOutcome i w).
Proof.
  intros HI Hl. cbv zeta. split; [by apply Inv_forceUnlock|].
  unfold forceUnlock. rewrite Hl. cbv zeta. wsimpl.
  split_and!; try done.
  - rewrite (alter_lookup_insert _ _ {| readers := JsMap.clear; writer := None;
                                        queue := queue record |});
      [|by rewrite lookup_insert_eq].
    simpl. by rewrite insert_insert_eq.
  - eexists. unfold dirOutcome. by wsimpl.
  - unfold dirOutcome. by wsimpl.
Qed.

Lemma JsMap_delete_head {V} r (l : V) m :
  r ∉ m.*1 → JsMap.delete r ((r, l) :: m) = m.
Proof.
  intros Hn. unfold JsMap.delete. rewrite filter_cons. simpl.
  rewrite decide_False by (intros H; by apply H).
  induction m as [|[k v] m IH]; [done|]. rewrite fmap_cons in Hn.
  apply not_elem_of_cons in Hn as [Hne Hn]. rewrite filter_cons. simpl.
  rewrite decide_True by done. by rewrite IH.
Qed.

(** One turn of the loop of [clearAll]: the resource is force-unlocked,
    the audit write completes and the entry is removed. *)
Lemma clearAll_visit i i1 r rest w l record :
  Inv w → lookupRecord r w = Some (l, record) → dirOutcome i w = Fulfilled →
  let w1 := forceUnlock i r (FromClearAll rest) w in
  let w2 := runLast i1 w1 in
  let w3 := set_tasks (delete (length (tasks w))) w2 in
  step w1 w2
  ∧ tasks w2 = tasks w ++ [TClearAllNext rest]
  ∧ Inv w3
  ∧ locks w3 = JsMap.delete r (locks w)
  ∧ tasks w3 = tasks w
  ∧ outbox w3 = outbox w ++ rejectEvents r flushError (queue record)
  ∧ ensureLogDirPromise w3 = Some Fulfilled
  ∧ othersSame r w w3.
Proof.
  intros HI Hl Hd w1 w2 w3.
  destruct (forceUnlock_closed i r (FromClearAll rest) w l record HI Hl)
    as (HI1 & Hl1 & Hh1 & Ho1 & (line & Ht1) & Hp1).
  fold w1 in HI1, Hl1, Hh1, Ho1, Ht1, Hp1. rewrite Hd in Ht1, Hp1.
  destruct (runLast_snoc i1 w1 _ _ Ht1) as (Hw2 & Hs2 & Ht0). fold w2 in Hw2, Hs2.
  assert (Inv (set_tasks (delete (length (tasks w))) w1)) as HI0 by (by apply (Inv_ext w1)).
  assert (locks (set_tasks (delete (length (tasks w))) w1) = locks w1
          ∧ heap (set_tasks (delete (length (tasks w))) w1) = heap w1
          ∧ outbox (set_tasks (delete (length (tasks w))) w1) = outbox w1
          ∧ ensureLogDirPromise (set_tasks (delete (length (tasks w))) w1)
            = ensureLogDirPromise w1) as (Hl0' & Hh0' & Ho0' & Hp0') by done.
  revert Hw2 Ht0 HI0 Hl0' Hh0' Ho0' Hp0'.
  generalize (set_tasks (delete (length (tasks w))) w1). intros w0 Hw2 Ht0 HI0 Hl0' Hh0' Ho0' Hp0'.
  assert (lookupRecord r (pushRecentLog line w0) = Some (l, emptyRecord)) as Hl0.
  { apply (lookupRecord_elem_of _ _ _ _ HI) in Hl as [Hin Hh].
    rewrite <- (proj1 (lookupRecord_insert r l emptyRecord w w1 HI Hin Hl1 Hh1)).
    by apply lookupRecord_same. }
  assert (w2 = set_tasks (λ ts, ts ++ [TClearAllNext rest])
                 (set_locks (JsMap.delete r) (pushRecentLog line w0))) as Hw2'.
  { rewrite Hw2. cbn [runTask logResume]. rewrite catch_ignore_Fulfilled.
    cbn [logAwaiterResume forceUnlockResume forceUnlockReturn]. f_equal.
    unfold cleanup. by rewrite Hl0. }
  assert (Inv (set_locks (JsMap.delete r) (pushRecentLog line w0))) as HI3.
  { pose proof (Inv_cleanup r _ (Inv_pushRecentLog line w0 HI0)) as H.
    unfold cleanup in H. by rewrite Hl0 in H. }
  clearbody w2. subst w2. subst w3. rewrite Hw2' in *.
  split_and!; [done| | | | | | |].
  - cbn. by rewrite Ht0.
  - by apply (Inv_ext (set_locks (JsMap.delete r) (pushRecentLog line w0))).
  - cbn. by rewrite Hl0', Hl1.
  - cbn. by rewrite Ht0, delete_snoc.
  - cbn. by rewrite Ho0'.
  - cbn. by rewrite Hp0'.
  - intros r' Hne. unfold lookupRecord.
    cbn [locks heap set_tasks set_locks pushRecentLog set_arrays].
    rewrite JsMap_get_delete, decide_False by done. rewrite Hl0', Hh0', Hl1, Hh1.
    destruct (JsMap.get r' (locks w)) as [l'|] eqn:E; [|done].
    rewrite lookup_insert_ne; [done|]. intros <-.
    apply JsMap_get_Some_elem_of in E.
    apply (lookupRecord_elem_of _ _ _ _ HI) in Hl as [Hin _].
    apply Hne. exact (locks_ref_inj w r' r _ HI E Hin).
Qed.

Lemma clearAll_end i0 i1 w :
  Inv w → dirOutcome i0 w = Fulfilled →
  let w1 := clearAllLoop i0 [] w in
  let w2 := runLast i1 w1 in
  step w1 w2 ∧ Inv w2 ∧ locks w2 = locks w ∧ tasks w2 = tasks w
  ∧ outbox w2 = outbox w ++ [Settled ClearAll Fulfilled]
  ∧ last (logBuffer w2) = Some (now i0, "CLEAR_ALL invoked").
Proof.
  intros HI Hd w1 w2.
  assert (tasks w1 = tasks w ++ [TLog (now i0, "CLEAR_ALL invoked") Fulfilled InClearAll]) as Ht1.
  { subst w1. cbn [clearAllLoop]. by rewrite log_tasks, Hd. }
  destruct (runLast_snoc i1 w1 _ _ Ht1) as (Hw2 & Hs2 & Ht0). fold w2 in Hw2, Hs2.
  cbn [runTask logResume] in Hw2. rewrite catch_ignore_Fulfilled in Hw2.
  cbn [logAwaiterResume] in Hw2.
  assert (Inv w1) as HI1 by (by apply Inv_log).
  split_and!; [done|..]; rewrite Hw2.
  - apply Inv_settle, Inv_pushRecentLog. by apply (Inv_ext w1).
  - subst w1. cbn. by wsimpl.
  - cbn. done.
  - subst w1. cbn. by wsimpl.
  - change (logBuffer (settle ClearAll Fulfilled ?x)) with (logBuffer x).
    apply last_pushRecentLog.
Qed.

Lemma clearAllLoop_run ids :
  ∀ inputs i0 w,
    Inv w → JsMap.keys (locks w) = ids → dirOutcome i0 w = Fulfilled →
    length inputs = 2 * length ids + 1 →
    let w' := runLasts inputs (clearAllLoop i0 ids w) in
    rtc step (clearAllLoop i0 ids w) w'
    ∧ Inv w'
    ∧ locks w' = []
    ∧ tasks w' = tasks w
    ∧ (∃ evs, outbox w' = outbox w ++ evs ++ [Settled ClearAll Fulfilled]
         ∧ ∀ r l record req,
             lookupRecord r w = Some (l, record) → req ∈ queue record →
             Settled (Acquire r req) (Rejected (flushError req)) ∈ evs)
    ∧ (∃ t, last (logBuffer w') = Some (t, "CLEAR_ALL invoked")).
Proof.
  induction ids as [|r rest IH]; intros inputs i0 w HI Hk Hd Hlen.
  - destruct inputs as [|i1 [|]]; simpl in Hlen; try lia. cbn [runLasts foldl].
    destruct (clearAll_end i0 i1 w HI Hd) as (Hs & HI2 & Hl & Ht & Ho & Hb).
    unfold JsMap.keys in Hk. apply fmap_nil_inv in Hk.
    split_and!; [by apply rtc_once|done|by rewrite Hl|done| |eauto].
    exists []. split; [done|]. intros r l record req Hl'.
    unfold lookupRecord in Hl'. by rewrite Hk in Hl'.
  - destruct inputs as [|i1 [|i2 inputs]]; simpl in Hlen; try lia.
    unfold JsMap.keys in Hk. destruct (locks w) as [|[r0 l] m] eqn:Hlocks; [done|].
    rewrite fmap_cons in Hk. injection Hk as -> Hk.
    pose proof (inv_keys _ HI) as Hnd. rewrite Hlocks, fmap_cons in Hnd.
    apply NoDup_cons in Hnd as [Hnotin _].
    assert ((r, l) ∈ locks w) as Hin by (rewrite Hlocks; left).
    destruct (inv_alloc _ HI _ _ Hin) as [record Hh].
    assert (lookupRecord r w = Some (l, record)) as Hl by (by apply lookupRecord_elem_of).
    destruct (clearAll_visit i0 i1 r rest w l record HI Hl Hd)
      as (Hs1 & Ht2 & HI3 & Hl3 & Ht3 & Ho3 & Hp3 & Hsame).
    cbn [clearAllLoop runLasts foldl].
    set (w1 := forceUnlock i0 r (FromClearAll rest) w) in *.
    set (w2 := runLast i1 w1) in *.
    destruct (runLast_snoc i2 w2 _ _ Ht2) as (Hw3 & Hs2 & _).
    cbn [runTask] in Hw3. rewrite Hw3 in Hs2. rewrite Hw3.
    set (w3 := set_tasks (delete (length (tasks w))) w2) in *.
    destruct (IH inputs i2 w3) as (Hrtc & HI' & Hl' & Ht' & (evs & Ho' & Hev) & Hb); [done| | |lia|].
    { rewrite Hl3, Hlocks, JsMap_delete_head by done. exact Hk. }
    { unfold dirOutcome. by rewrite Hp3. }
    fold (runLasts inputs (clearAllLoop i2 rest w3)) in *.
    split_and!; [|done|done|congruence| |done].
    + eapply rtc_l; [exact Hs1|]. eapply rtc_l; [exact Hs2|]. exact Hrtc.
    + exists (rejectEvents r flushError (queue record) ++ evs). split.
      * rewrite Ho', Ho3. by rewrite <- !(assoc_L (++)).
      * intros r' l' record' req Hl'' Hq. apply elem_of_app.
        destruct (decide (r' = r)) as [->|Hne].
        -- left. rewrite Hl in Hl''. injection Hl'' as <- <-. by apply rejectEvents_elem.
        -- right. eapply Hev; [|done]. by rewrite (Hsame r' Hne).
Qed.

(** X12. [clearAll] run to its end, the log directory being there and no other
    call coming in between: every resource that was in the table is
    force-unlocked in turn, so that the table ends up empty, every request
    that was waiting has been rejected with the force-unlock error, no
    request timer stays armed, the call ends without error after the
    [CLEAR_ALL] audit line, and the work that was suspended before is still
    suspended. *)
Theorem clearAll_empties_the_table e i0 inputs w :
  reachable e w → dirOutcome i0 w = Fulfilled →
  length inputs = 2 * length (locks w) + 1 →
  let w' := runLasts inputs (clearAll i0 w) in
  rtc step w w'
  ∧ locks w' = []
  ∧ (∀ r l record req,
       lookupRecord r w = Some (l, record) → req ∈ queue record →
       Settled (Acquire r req) (Rejected (flushError req)) ∈ outbox w')
  ∧ (∀ h t, timers w' !! h = Some t → ∃ r sid, callback t = SimulatedRelease r sid)
  ∧ last (outbox w') = Some (Settled ClearAll Fulfilled)
  ∧ (∃ t, last (logBuffer w') = Some (t, "CLEAR_ALL invoked"))
  ∧ tasks w' = tasks w.
Proof.
  intros Hr Hd Hlen w'. pose proof (reachable_Inv _ _ Hr) as HI.
  destruct (clearAllLoop_run (JsMap.keys (locks w)) inputs i0 w HI eq_refl Hd)
    as (Hrtc & HI' & Hl' & Ht' & (evs & Ho' & Hev) & Hb).
  { unfold JsMap.keys. by rewrite length_fmap. }
  fold (clearAll i0 w) in *. fold w' in Hrtc, HI', Hl', Ht', Ho', Hb.
  split_and!; [|done| | | |done|done].
  - eapply rtc_l; [apply step_clearAll|exact Hrtc].
  - intros r l record req Hl Hq. rewrite Ho'. apply elem_of_app. right.
    apply elem_of_app. left. by eapply Hev.
  - intros h t Hth. destruct (callback t) as [l r req|r sid] eqn:Hc; [|eauto].
    destruct (inv_armed _ HI' _ _ _ _ _ Hth Hc) as (_ & Hin & _).
    rewrite Hl' in Hin. by apply elem_of_nil in Hin.
  - rewrite Ho', (assoc_L (++)). apply last_snoc.
Qed.

Lemma clearAll_empties_the_table_witness :
  reachable env0 ex_writer_rrw
  ∧ dirOutcome (at_ 5) ex_writer_rrw = Fulfilled
  ∧ length [at_ 6; at_ 7; at_ 8] = 2 * length (locks ex_writer_rrw) + 1
  ∧ let w' := runLasts [at_ 6; at_ 7; at_ 8] (clearAll (at_ 5) ex_writer_rrw) in
    rtc step ex_writer_rrw w'
    ∧ locks w' = []
    ∧ (∀ r l record req,
         lookupRecord r ex_writer_rrw = Some (l, record) → req ∈ queue record →
         Settled (Acquire r req) (Rejected (flushError req)) ∈ outbox w')
    ∧ (∀ h t, timers w' !! h = Some t → ∃ r sid, callback t = SimulatedRelease r sid)
    ∧ last (outbox w') = Some (Settled ClearAll Fulfilled)
    ∧ (∃ t, last (logBuffer w') = Some (t, "CLEAR_ALL invoked"))
    ∧ tasks w' = tasks ex_writer_rrw.
Proof.
  assert (dirOutcome (at_ 5) ex_writer_rrw = Fulfilled) as Hd by (vm_compute; reflexivity).
  assert (length [at_ 6; at_ 7; at_ 8] = 2 * length (locks ex_writer_rrw) + 1) as Hlen
    by (vm_compute; reflexivity).
  split_and!; [apply ex_writer_rrw_reachable|exact Hd|exact Hlen|].
  apply (clearAll_empties_the_table env0 (at_ 5) [at_ 6; at_ 7; at_ 8] ex_writer_rrw
           ex_writer_rrw_reachable Hd Hlen).
Defined.

(** ** The audit buffer *)

Lemma logBuffer_pushRecentLog line w :
  logBuffer (pushRecentLog line w) = ringPush line (logBuffer w).
Proof. unfold logBuffer, pushRecentLog, ringPush. simpl. by rewrite lookup_insert_eq. Qed.

Lemma ringPush_length line buf :
  length buf ≤ MAX_LOG_ENTRIES → length (ringPush line buf) ≤ MAX_LOG_ENTRIES.
Proof.
  unfold ringPush. intros Hb. case_decide as Hd; [|lia].
  destruct buf as [|x buf]; simpl in *; [lia|]. rewrite length_app. simpl. lia.
Qed.

Lemma sameBuffer_refl w : sameBuffer w w.
Proof. done. Qed.

Lemma sameBuffer_trans w1 w2 w3 : sameBuffer w1 w2 → sameBuffer w2 w3 → sameBuffer w1 w3.
Proof. intros [H1 H2] [H3 H4]. split; congruence. Qed.

Lemma sameBuffer_same w w' :
  recentLogs w' = recentLogs w → arrays w' = arrays w → sameBuffer w w'.
Proof. intros Hr Ha. split; [done|]. unfold logBuffer. by rewrite Hr, Ha. Qed.

Lemma sameBuffer_getRecord r w : sameBuffer w (getRecord r w).2.
Proof. destruct (getRecord_cases r w) as [(l & _ & ->)|[_ ->]]; by apply sameBuffer_same. Qed.

Lemma sameBuffer_enqueue i r s t timeout a w : sameBuffer w (enqueue i r s t timeout a w).
Proof.
  unfold enqueue. pose proof (sameBuffer_getRecord r w) as H1.
  destruct (getRecord r w) as [l w1]. simpl in *.
  eapply sameBuffer_trans; [exact H1|]. apply sameBuffer_same; by wsimpl.
Qed.

Lemma sameBuffer_releaseLockResume i r sid w : sameBuffer w (releaseLockResume i r sid w).
Proof. unfold releaseLockResume, settle. apply sameBuffer_same; by wsimpl. Qed.

Lemma sameBuffer_releaseLock i r sid w : sameBuffer w (releaseLock i r sid w).
Proof.
  unfold releaseLock. destruct (lookupRecord r w) as [[l record]|]; [|done]. cbv zeta.
  destruct (_ || _).
  - apply sameBuffer_same; by wsimpl.
  - eapply sameBuffer_trans; [|apply sameBuffer_releaseLockResume].
    apply sameBuffer_same; by wsimpl.
Qed.

Lemma sameBuffer_forceUnlockReturn r c o w : sameBuffer w (forceUnlockReturn r c o w).
Proof. unfold forceUnlockReturn. destruct c; [done|]. by destruct o. Qed.

Lemma sameBuffer_forceUnlock i r c w : sameBuffer w (forceUnlock i r c w).
Proof.
  unfold forceUnlock. destruct (lookupRecord r w) as [[l record]|];
    [|apply sameBuffer_forceUnlockReturn].
  apply sameBuffer_same; by wsimpl.
Qed.

Lemma sameBuffer_clearAllLoop i ids w : sameBuffer w (clearAllLoop i ids w).
Proof.
  destruct ids; simpl; [apply sameBuffer_same; by wsimpl|apply sameBuffer_forceUnlock].
Qed.

Lemma sameBuffer_fireTimer i h t w : sameBuffer w (fireTimer i h t w).
Proof.
  unfold fireTimer. destruct (callback t).
  - unfold onTimeout. apply sameBuffer_same; by wsimpl.
  - eapply sameBuffer_trans; [|apply sameBuffer_releaseLock]. done.
Qed.

Lemma sameBuffer_logAwaiterResume i k o w : sameBuffer w (logAwaiterResume i k o w).
Proof.
  destruct k, o; simpl; try done.
  - apply sameBuffer_releaseLockResume.
  - unfold forceUnlockResume.
    eapply sameBuffer_trans; [|apply sameBuffer_forceUnlockReturn].
    apply sameBuffer_same; by wsimpl.
  - apply sameBuffer_forceUnlockReturn.
Qed.

Lemma sameBuffer_getRecentLogs w : Inv w → sameBuffer w (getRecentLogs w).2.
Proof.
  intros HI. split; [done|]. unfold logBuffer. simpl.
  pose proof (inv_recentLogs _ HI).
  rewrite lookup_alter_ne, lookup_insert_ne by lia. done.
Qed.

(** How one turn of the event loop changes the buffer: not at all, or, when
    the turn resumes a [log] call whose directory promise was fulfilled, by
    the line that call built. *)
Lemma logBuffer_step w w' :
  Inv w → step w w' →
  recentLogs w' = recentLogs w
  ∧ (logBuffer w' = logBuffer w
     ∨ ∃ line k, TLog line Fulfilled k ∈ tasks w
                 ∧ logBuffer w' = ringPush line (logBuffer w)).
Proof.
  intros HI Hs.
  assert (∀ w0, sameBuffer w w0 →
            recentLogs w0 = recentLogs w
            ∧ (logBuffer w0 = logBuffer w
               ∨ ∃ line k, TLog line Fulfilled k ∈ tasks w
                           ∧ logBuffer w0 = ringPush line (logBuffer w))) as Hsame.
  { intros w0 [H1 H2]. split; [done|by left]. }
  destruct Hs.
  - apply Hsame, sameBuffer_enqueue.
  - apply Hsame, sameBuffer_enqueue.
  - apply Hsame, sameBuffer_releaseLock.
  - apply Hsame, sameBuffer_forceUnlock.
  - apply Hsame, sameBuffer_clearAllLoop.
  - apply Hsame, sameBuffer_enqueue.
  - apply Hsame, sameBuffer_enqueue.
  - by apply Hsame, sameBuffer_getRecentLogs.
  - apply Hsame, sameBuffer_fireTimer.
  - destruct t as [line dir k|rest|t r s holdMs]; cbn [runTask].
    + unfold logResume. destruct dir as [|err].
      * rewrite catch_ignore_Fulfilled.
        destruct (sameBuffer_logAwaiterResume i k Fulfilled
                    (pushRecentLog line (set_tasks (delete n) w))) as [H1 H2].
        split; [by rewrite H1|]. right. exists line, k. split.
        { by eapply list_elem_of_lookup_2. }
        rewrite H2, logBuffer_pushRecentLog. done.
      * apply Hsame. eapply sameBuffer_trans; [|apply sameBuffer_logAwaiterResume]. done.
    + apply Hsame. eapply sameBuffer_trans; [|apply sameBuffer_clearAllLoop]. done.
    + apply Hsame. unfold simulateResume, setTimeout, settle. by apply sameBuffer_same.
Qed.

Lemma logBuffer_length e w : reachable e w → length (logBuffer w) ≤ MAX_LOG_ENTRIES.
Proof.
  induction 1 as [|w w' Hr IH Hs].
  - unfold logBuffer, newLockManager. cbn [arrays recentLogs].
    rewrite lookup_singleton_eq. simpl. lia.
  - destruct (logBuffer_step w w' (reachable_Inv _ _ Hr) Hs) as [_ [->|(line & k & _ & ->)]];
      [done|by apply ringPush_length].
Qed.

(** Once [fs.mkdir] has failed nothing is recorded any more: every [log]
    call awaits the rejected promise and throws before it pushes its line. *)
Lemma nothing_recorded_without_directory e err w w' :
  reachable e w → ensureLogDirPromise w = Some (Rejected err) → rtc step w w' →
  logBuffer w' = logBuffer w.
Proof.
  intros Hr Hp Hs. induction Hs as [w|w w1 w' Hs1 _ IH]; [done|].
  rewrite IH; [|by eapply reachable_step|by eapply dirPromise_step].
  destruct (logBuffer_step w w1) as [_ [?|(line & k & Hin & _)]];
    [by eapply reachable_Inv|done|done|].
  apply (reachable_LogInv _ _ Hr) in Hin. congruence.
Qed.

Lemma ex_nodir_timeout_reachable : reachable env0 ex_nodir_timeout.
Proof.
  eapply reachable_step; [apply ex_nodir_queued_reachable|].
  by apply (step_timer (failing_ 5002) 3 ex_nodir_timer).
Qed.

Lemma ex_nodir_force_reachable : reachable env0 ex_nodir_force.
Proof.
  eapply reachable_step; [apply ex_nodir_queued_reachable | apply step_forceUnlock].
Qed.

(** C4, evaluated where the code departs from it: in a process that cannot
    create its log directory the writer [s1] holds [R] and the read request
    of [s2] waits until its timer fires.  The request is taken out of the
    queue and its acquire rejected with the time-out error, but no audit
    event is recorded: the [log] call of the callback awaits the rejected
    promise of [ensureLogDir], and however the process goes on from there
    the in-memory buffer never gets a line; when the call resumes it throws
    the error of [fs.mkdir], which nothing catches.  Where the directory
    can be created the same run leaves the [TIMEOUT] line in the buffer. *)
Theorem C4_timeout_not_recorded :
  reachable env0 ex_nodir_queued
  ∧ timers ex_nodir_queued !! 3 = Some ex_nodir_timer
  ∧ step ex_nodir_queued ex_nodir_timeout
  ∧ lookupRecord "R" ex_nodir_timeout =
      Some (1, {| readers := []; writer := Some ("s1", 1%Z); queue := [] |})
  ∧ last (outbox ex_nodir_timeout) =
      Some (Settled (Acquire "R" (request_of read "s2" 3 2))
              (Rejected "Lock acquisition timeout for read lock on R"))
  ∧ last (tasks ex_nodir_timeout) =
      Some (TLog (5002%Z, "TIMEOUT type=read resource=R session=s2")
              (Rejected mkdirError) NotAwaited)
  ∧ (∀ w', rtc step ex_nodir_timeout w' → logBuffer w' = [])
  ∧ last (outbox ex_nodir_timed_out) = Some (Settled Unawaited (Rejected mkdirError))
  ∧ logBuffer ex_dir_timed_out = [(5002%Z, "TIMEOUT type=read resource=R session=s2")].
Proof.
  split; [apply ex_nodir_queued_reachable|].
  split; [vm_compute; reflexivity|].
  split; [by apply (step_timer (failing_ 5002) 3 ex_nodir_timer)|].
  split_and!; try (vm_compute; reflexivity).
  intros w' Hs.
  by rewrite (nothing_recorded_without_directory env0 mkdirError ex_nodir_timeout w'
                ex_nodir_timeout_reachable eq_refl Hs).
Qed.

(** C5, evaluated where the code departs from it: in a process that cannot
    create its log directory the writer [s1] holds [R], the reader [s2] is
    queued, and [R] is force-unlocked.  The writer slot is cleared and the
    request of [s2] rejected with the force-unlock error, but the awaited
    [log] call throws the error of [fs.mkdir]: the call is rejected with
    it, the event is not logged, now or later, and [cleanup] is not run, so
    that the table keeps the entry of [R], with an empty record.  Where the
    directory can be created the same run ends without error, the table is
    empty and the buffer has the [FORCE_UNLOCK] line. *)
Theorem C5_forceUnlock_entry_stays :
  reachable env0 ex_nodir_forced
  ∧ Settled (Acquire "R" (request_of read "s2" 3 2))
      (Rejected "Force unlock flushed session s2") ∈ outbox ex_nodir_forced
  ∧ last (outbox ex_nodir_forced) = Some (Settled (ForceUnlock "R") (Rejected mkdirError))
  ∧ tasks ex_nodir_forced = tasks ex_nodir_queued
  ∧ locks ex_nodir_forced = [("R", 1)]
  ∧ lookupRecord "R" ex_nodir_forced = Some (1, emptyRecord)
  ∧ (∀ w', rtc step ex_nodir_force w' → logBuffer w' = [])
  ∧ last (outbox ex_dir_forced) = Some (Settled (ForceUnlock "R") Fulfilled)
  ∧ locks ex_dir_forced = []
  ∧ logBuffer ex_dir_forced = [(3%Z, "FORCE_UNLOCK resource=R sessions=s1")].
Proof.
  split; [apply ex_nodir_forced_reachable|].
  split. { vm_compute. apply elem_of_cons. right. apply elem_of_cons. by left. }
  split_and!; try (vm_compute; reflexivity).
  intros w' Hs.
  by rewrite (nothing_recorded_without_directory env0 mkdirError ex_nodir_force w'
                ex_nodir_force_reachable eq_refl Hs).
Qed.

(** X13. The in-memory log never holds more than [MAX_LOG_ENTRIES] lines, and a
    turn of the event loop changes it only by completing one [log] call:
    the line that call built goes to the end, and the oldest line goes when
    the buffer was full. *)
Theorem log_buffer_bounded e w :
  reachable e w →
  length (logBuffer w) ≤ MAX_LOG_ENTRIES
  ∧ ∀ w', step w w' →
      logBuffer w' = logBuffer w
      ∨ ∃ line k, TLog line Fulfilled k ∈ tasks w
                  ∧ logBuffer w' = ringPush line (logBuffer w).
Proof.
  intros Hr. split; [by eapply logBuffer_length|].
  intros w' Hs. by apply (logBuffer_step w w' (reachable_Inv _ _ Hr)).
Qed.

Lemma log_buffer_bounded_witness :
  reachable env0 ex_writer_rrw
  ∧ length (logBuffer ex_writer_rrw) ≤ MAX_LOG_ENTRIES
  ∧ ∀ w', step ex_writer_rrw w' →
      logBuffer w' = logBuffer ex_writer_rrw
      ∨ ∃ line k, TLog line Fulfilled k ∈ tasks ex_writer_rrw
                  ∧ logBuffer w' = ringPush line (logBuffer ex_writer_rrw).
Proof.
  split; [apply ex_writer_rrw_reachable|].
  apply (log_buffer_bounded env0 ex_writer_rrw ex_writer_rrw_reachable).
Defined.

Lemma ringPush_many (lines : list LogLine) w :
  length (logBuffer w) ≤ MAX_LOG_ENTRIES →
  logBuffer (foldl (λ w0 line, pushRecentLog line w0) w lines)
  = drop (length (logBuffer w ++ lines) - MAX_LOG_ENTRIES) (logBuffer w ++ lines).
Proof.
  revert w. induction lines as [|line lines IH]; intros w Hb.
  - rewrite app_nil_r. simpl. by replace (_ - _) with 0 by lia.
  - cbn [foldl]. rewrite IH by (rewrite logBuffer_pushRecentLog; by apply ringPush_length).
    rewrite logBuffer_pushRecentLog. unfold ringPush. case_decide as Hd.
    + rewrite length_app in Hd. simpl in Hd.
      destruct (logBuffer w) as [|x buf]; simpl in *; [unfold MAX_LOG_ENTRIES in *; lia|].
      rewrite <- !(assoc_L (++)). simpl.
      assert (MAX_LOG_ENTRIES ≤ length (buf ++ line :: lines)) as Hlen.
      { rewrite length_app. simpl. lia. }
      revert Hlen. generalize (length (buf ++ line :: lines)). intros n Hlen.
      unfold MAX_LOG_ENTRIES in *. by replace (n - 199) with (S (n - 200)) by lia.
    + by rewrite <- !(assoc_L (++)).
Qed.

(** X14. The buffer is a ring of the latest [MAX_LOG_ENTRIES] lines: after any
    run of completed [log] calls it holds the last 200 of what it held and
    what was pushed, oldest first; and [getRecentLogs] returns those lines
    newest first, in an array of its own. *)
Theorem recent_logs_latest_first e w lines :
  reachable e w →
  let w' := foldl (λ w0 line, pushRecentLog line w0) w lines in
  logBuffer w'
  = drop (length (logBuffer w ++ lines) - MAX_LOG_ENTRIES) (logBuffer w ++ lines)
  ∧ arrays (getRecentLogs w').2 !! (getRecentLogs w').1
    = Some (take MAX_LOG_ENTRIES (reverse (logBuffer w ++ lines))).
Proof.
  intros Hr w'. pose proof (logBuffer_length e w Hr) as Hb.
  pose proof (ringPush_many lines w Hb) as Hm. fold w' in Hm. split; [done|].
  unfold getRecentLogs. cbn [fst snd arrays set_arrays set_fresh].
  rewrite lookup_alter_eq, lookup_insert_eq. cbn. f_equal.
  fold (logBuffer w'). rewrite Hm, reverse_drop. unfold MAX_LOG_ENTRIES in *.
  destruct (decide (length (logBuffer w ++ lines) ≤ 200)) as [Hle|Hgt].
  - rewrite !take_ge; [done|rewrite length_reverse; lia..].
  - f_equal. lia.
Qed.

Lemma recent_logs_latest_first_witness :
  reachable env0 ex_writer
  ∧ let lines := [(1%Z, "QUEUED type=write resource=R session=s1");
                  (1%Z, "ACQUIRED type=write resource=R session=s1")] in
    let w' := foldl (λ w0 line, pushRecentLog line w0) ex_writer lines in
    logBuffer w'
    = drop (length (logBuffer ex_writer ++ lines) - MAX_LOG_ENTRIES)
        (logBuffer ex_writer ++ lines)
    ∧ arrays (getRecentLogs w').2 !! (getRecentLogs w').1
      = Some (take MAX_LOG_ENTRIES (reverse (logBuffer ex_writer ++ lines))).
Proof.
  split; [apply ex_writer_reachable|].
  apply (recent_logs_latest_first env0 ex_writer
           [(1%Z, "QUEUED type=write resource=R session=s1");
            (1%Z, "ACQUIRED type=write resource=R session=s1")] ex_writer_reachable).
Defined.

(** X15. [fs.mkdir] is called once per process: the promise that the first
    [log] call creates is the one every later call awaits, whatever the
    file system would answer by then, so a directory that could not be
    created is never tried again. *)
Theorem log_directory_promise_is_kept e w w' p :
  reachable e w → rtc step w w' → ensureLogDirPromise w = Some p →
  ensureLogDirPromise w' = Some p
  ∧ (∀ i, dirOutcome i w' = p)
  ∧ (∀ line dir k, TLog line dir k ∈ tasks w' → dir = p)
  ∧ (∀ i m k, tasks (log i m k w') = tasks w' ++ [TLog (now i, m) p k]).
Proof.
  intros Hr Hs Hp.
  assert (reachable e w' ∧ ensureLogDirPromise w' = Some p) as [Hr' Hp'].
  { induction Hs as [w|w w1 w2 H1 _ IH]; [done|].
    apply IH; [by eapply reachable_step|by eapply dirPromise_step]. }
  split_and!; [done| | |].
  - intros i. unfold dirOutcome. by rewrite Hp'.
  - intros line dir k Hin. pose proof (reachable_LogInv _ _ Hr' _ _ _ Hin). congruence.
  - intros i m k. rewrite log_tasks. unfold dirOutcome. by rewrite Hp'.
Qed.

Lemma log_directory_promise_is_kept_witness :
  reachable env0 ex_reader
  ∧ rtc step ex_reader ex_reader_writer
  ∧ ensureLogDirPromise ex_reader = Some Fulfilled
  ∧ ensureLogDirPromise ex_reader_writer = Some Fulfilled
  ∧ (∀ i, dirOutcome i ex_reader_writer = Fulfilled)
  ∧ (∀ line dir k, TLog line dir k ∈ tasks ex_reader_writer → dir = Fulfilled)
  ∧ (∀ i m k, tasks (log i m k ex_reader_writer)
              = tasks ex_reader_writer ++ [TLog (now i, m) Fulfilled k]).
Proof.
  assert (rtc step ex_reader ex_reader_writer) as Hs by apply rtc_once, step_acquireWriteLock.
  assert (ensureLogDirPromise ex_reader = Some Fulfilled) as Hp by (vm_compute; reflexivity).
  split_and!; [apply ex_reader_reachable|exact Hs|exact Hp|..];
    apply (log_directory_promise_is_kept env0 ex_reader ex_reader_writer Fulfilled
             ex_reader_reachable Hs Hp).
Defined.

(** The scheduler reads the clock and may start [fs.mkdir]; it does not
    look at how a pending [fs.appendFile] ends. *)
Section same_clock.
Context (i i' : Input) (Hnow : now i = now i') (Hmkdir : mkdir i = mkdir i').

Lemma log_same_clock m k w : log i m k w = log i' m k w.
Proof using Hnow Hmkdir. unfold log, ensureLogDir. by rewrite Hnow, Hmkdir. Qed.

Lemma resolve_same_clock r q w : resolve i r q w = resolve i' r q w.
Proof using Hnow Hmkdir. unfold resolve. by rewrite log_same_clock. Qed.

Lemma grantReaders_same_clock r l fuel w :
  grantReaders i r l fuel w = grantReaders i' r l fuel w.
Proof using Hnow Hmkdir.
  revert w. induction fuel as [|fuel IH]; intros w; [done|]. cbn [grantReaders].
  destruct (heap w !! l) as [record|]; [|done].
  destruct (queue record) as [|readerReq rest]; [done|].
  destruct (writer record); [done|]. destruct (type readerReq); [|done].
  by rewrite IH, resolve_same_clock, Hnow.
Qed.

Lemma processQueue_same_clock r w : processQueue i r w = processQueue i' r w.
Proof using Hnow Hmkdir.
  unfold processQueue. destruct (lookupRecord r w) as [[l record]|]; [|done].
  destruct (queue record) as [|next rest]; [done|].
  destruct (writer record); [done|]. destruct (type next).
  - apply grantReaders_same_clock.
  - case_decide; [|done]. by rewrite resolve_same_clock, Hnow.
Qed.

Lemma logAwaiterResume_same_clock k o w :
  logAwaiterResume i k o w = logAwaiterResume i' k o w.
Proof using Hnow Hmkdir.
  destruct k, o; cbn [logAwaiterResume]; try done.
  unfold releaseLockResume. by rewrite processQueue_same_clock.
Qed.
End same_clock.

(** X16. A failure of [fs.appendFile] changes nothing: the [log] call that
    resumes with a created directory pushes its line to the buffer and
    whatever awaits it goes on, exactly as after a successful write. *)
Theorem appendFile_failure_changes_nothing t m a line k w :
  runTask {| now := t; mkdir := m; appendFile := a |} (TLog line Fulfilled k) w
  = runTask {| now := t; mkdir := m; appendFile := Fulfilled |} (TLog line Fulfilled k) w
  ∧ logBuffer (runTask {| now := t; mkdir := m; appendFile := a |} (TLog line Fulfilled k) w)
    = ringPush line (logBuffer w).
Proof.
  cbn [runTask logResume appendFile]. rewrite catch_ignore_Fulfilled. cbn [catch_ignore].
  split.
  - by apply logAwaiterResume_same_clock.
  - destruct (sameBuffer_logAwaiterResume {| now := t; mkdir := m; appendFile := a |} k
                Fulfilled (pushRecentLog line w)) as [_ ->].
    apply logBuffer_pushRecentLog.
Qed.

(** [codeUnitCompare] orders the strings. *)
Lemma string_compare_trans (a b c : string) :
  String.compare a b ≠ Gt → String.compare b c ≠ Gt → String.compare a c ≠ Gt.
Proof.
  revert b c. induction a as [|x a IH]; intros [|y b] [|z c]; simpl; try done.
  unfold Ascii.compare.
  destruct (N.compare_spec (Ascii.N_of_ascii x) (Ascii.N_of_ascii y)) as [Hxy|Hxy|Hxy];
    [|intros _|done];
    destruct (N.compare_spec (Ascii.N_of_ascii y) (Ascii.N_of_ascii z)) as [Hyz|Hyz|Hyz];
    try done.
  - rewrite Hxy, Hyz, N.compare_refl. apply IH.
  - intros _ _. rewrite Hxy. by rewrite (proj2 (N.compare_lt_iff _ _) Hyz).
  - intros _. rewrite <- Hyz. by rewrite (proj2 (N.compare_lt_iff _ _) Hxy).
  - intros _. by rewrite (proj2 (N.compare_lt_iff _ _) (N.lt_trans _ _ _ Hxy Hyz)).
Qed.

Lemma codeUnitCompare_consistent : consistentComparator codeUnitCompare.
Proof.
  split.
  - intros a b. unfold codeUnitCompare. rewrite (String.compare_antisym b a).
    destruct (String.compare a b); simpl; lia.
  - intros a b c. unfold codeUnitCompare.
    pose proof (string_compare_trans a b c) as H.
    destruct (String.compare a b), (String.compare b c), (String.compare a c);
      intros ? ?; try lia; exfalso; by apply H.
Qed.

(** ** Snapshots are complete, duplicate-free and ordered *)

Section sort_sorted.
Context {A : Type} (cmp : A → A → Z).
Hypothesis cmp_total : ∀ a b, (cmp a b ≤ 0)%Z ∨ (cmp b a ≤ 0)%Z.
Hypothesis cmp_trans : ∀ a b c, (cmp a b ≤ 0)%Z → (cmp b c ≤ 0)%Z → (cmp a c ≤ 0)%Z.

Lemma insertSorted_sorted x l :
  StronglySorted (λ a b, (cmp a b ≤ 0)%Z) l →
  StronglySorted (λ a b, (cmp a b ≤ 0)%Z) (insertSorted cmp x l).
Proof using cmp_total cmp_trans.
  induction l as [|y l IH]; intros Hs; simpl.
  - repeat constructor.
  - apply StronglySorted_inv in Hs as [Hs Hy]. case_decide as Hxy.
    + constructor; [by constructor|]. constructor; [done|].
      eapply Forall_impl; [exact Hy|]. intros z Hyz. by eapply cmp_trans.
    + constructor; [by apply IH|]. apply Forall_forall. intros z Hz.
      apply elem_of_insertSorted in Hz as [->|Hz].
      * destruct (cmp_total x y); [done|done].
      * by eapply Forall_forall in Hy.
Qed.

Lemma sort_sorted l : StronglySorted (λ a b, (cmp a b ≤ 0)%Z) (sort cmp l).
Proof using cmp_total cmp_trans.
  unfold sort. induction l as [|x l IH]; simpl; [constructor|].
  by apply insertSorted_sorted.
Qed.
End sort_sorted.

Lemma StronglySorted_impl {A} (R R' : A → A → Prop) l :
  (∀ a b, R a b → R' a b) → StronglySorted R l → StronglySorted R' l.
Proof.
  intros HR. induction 1 as [|x l Hs IH Hx]; constructor; [done|].
  eapply Forall_impl; [exact Hx|]. auto.
Qed.

(** What a consistent comparator gives: any two values compare one way or
    the other; values that compare equal do so both ways round. *)
Lemma consistent_total {A} (cmp : A → A → Z) a b :
  consistentComparator cmp → (cmp a b ≤ 0)%Z ∨ (cmp b a ≤ 0)%Z.
Proof.
  intros [Hsgn _]. specialize (Hsgn a b).
  pose proof (Z.sgn_spec (cmp a b)). pose proof (Z.sgn_spec (cmp b a)). lia.
Qed.

Lemma consistent_sign {A} (cmp : A → A → Z) a b :
  consistentComparator cmp →
  ((cmp a b < 0)%Z ↔ (0 < cmp b a)%Z) ∧ (cmp a b = 0%Z ↔ cmp b a = 0%Z).
Proof.
  intros [Hsgn _]. specialize (Hsgn a b).
  pose proof (Z.sgn_spec (cmp a b)). pose proof (Z.sgn_spec (cmp b a)). lia.
Qed.

(** X17. [getActiveLocks] returns its entries ordered by the start of the
    hold, in the order that [localeCompare] gives to the ISO strings of the
    time stamps, and among entries whose strings compare equal by resource
    id, provided [localeCompare] is a consistent comparator. *)
Theorem active_locks_are_ordered localeCompare w :
  consistentComparator localeCompare →
  StronglySorted (heldBefore localeCompare) (getActiveLocks localeCompare w).1.
Proof.
  intros Hc. pose proof Hc as [Hsgn Htrans]. unfold getActiveLocks. cbn [fst].
  eapply StronglySorted_impl; [|apply sort_sorted].
  - intros a b. cbv beta. unfold orElse, heldBefore. case_decide; lia.
  - intros a b. unfold orElse.
    pose proof (consistent_total localeCompare (ActiveLockSnapshot.heldSince a)
                  (ActiveLockSnapshot.heldSince b) Hc).
    pose proof (consistent_total localeCompare (ActiveLockSnapshot.resourceId a)
                  (ActiveLockSnapshot.resourceId b) Hc).
    pose proof (consistent_sign localeCompare (ActiveLockSnapshot.heldSince a)
                  (ActiveLockSnapshot.heldSince b) Hc).
    repeat case_decide; lia.
  - intros a b c. unfold orElse.
    set (ha := ActiveLockSnapshot.heldSince a). set (hb := ActiveLockSnapshot.heldSince b).
    set (hc := ActiveLockSnapshot.heldSince c).
    pose proof (Htrans ha hb hc). pose proof (Htrans hc ha hb). pose proof (Htrans hb hc ha).
    pose proof (consistent_sign localeCompare ha hb Hc).
    pose proof (consistent_sign localeCompare hb hc Hc).
    pose proof (consistent_sign localeCompare ha hc Hc).
    pose proof (Htrans (ActiveLockSnapshot.resourceId a) (ActiveLockSnapshot.resourceId b)
                  (ActiveLockSnapshot.resourceId c)).
    repeat case_decide; lia.
Qed.

Lemma active_locks_are_ordered_witness :
  consistentComparator codeUnitCompare
  ∧ StronglySorted (heldBefore codeUnitCompare)
      (getActiveLocks codeUnitCompare ex_reader_then_writer).1.
Proof.
  split; [apply codeUnitCompare_consistent|].
  apply (active_locks_are_ordered codeUnitCompare ex_reader_then_writer
           codeUnitCompare_consistent).
Defined.

(** The order is that of the strings, not of the instants: a hold that
    starts in the year 10000 is rendered with a sign, and a comparison by
    code units lists it before a hold that started a millisecond earlier. *)
Example active_locks_in_string_order :
  let w := acquireReadLock (at_ 253402300800000) "B" "s2"
             (acquireReadLock (at_ 253402300799999) "A" "s1" (newLockManager env0)) in
  (getActiveLocks codeUnitCompare w).1
  = [ {| ActiveLockSnapshot.resourceId := "B"; ActiveLockSnapshot.type := read;
         ActiveLockSnapshot.sessionId := "s2";
         ActiveLockSnapshot.heldSince := "+010000-01-01T00:00:00.000Z" |};
      {| ActiveLockSnapshot.resourceId := "A"; ActiveLockSnapshot.type := read;
         ActiveLockSnapshot.sessionId := "s1";
         ActiveLockSnapshot.heldSince := "9999-12-31T23:59:59.999Z" |} ].
Proof. vm_compute. reflexivity. Qed.

Lemma getLockQueue_queuedRequests cmp w :
  (getLockQueue cmp w).1 ≡ₚ queueSnapshot <$> queuedRequests w.
Proof.
  unfold getLockQueue. cbn [fst]. rewrite sort_Permutation.
  unfold queuedRequests. generalize (locks w). intros m.
  induction m as [|entry m IH]; [done|].
  rewrite !bind_cons, fmap_app, IH. apply Permutation_app_tail.
  unfold recordQueue, recordRequests. destruct (heap w !! entry.2) as [record|]; [|done].
  rewrite <- list_fmap_compose. done.
Qed.

(** X18. [getLockQueue] returns one entry for every request that waits in a
    queue of the table, with the time the request was made as an ISO
    string, and ordered by that time, in the order that [localeCompare]
    gives to the strings, provided [localeCompare] is a consistent
    comparator. *)
Theorem lock_queue_snapshot localeCompare w :
  consistentComparator localeCompare →
  (getLockQueue localeCompare w).1 ≡ₚ queueSnapshot <$> queuedRequests w
  ∧ StronglySorted (waitingBefore localeCompare) (getLockQueue localeCompare w).1.
Proof.
  intros Hc. split; [apply getLockQueue_queuedRequests|].
  unfold getLockQueue. cbn [fst]. apply sort_sorted.
  - intros a b. by apply consistent_total.
  - intros a b c. apply Hc.
Qed.

Lemma lock_queue_snapshot_witness :
  consistentComparator codeUnitCompare
  ∧ (getLockQueue codeUnitCompare ex_reader_then_writer).1
    ≡ₚ queueSnapshot <$> queuedRequests ex_reader_then_writer
  ∧ StronglySorted (waitingBefore codeUnitCompare)
      (getLockQueue codeUnitCompare ex_reader_then_writer).1.
Proof.
  split; [apply codeUnitCompare_consistent|].
  apply (lock_queue_snapshot codeUnitCompare ex_reader_then_writer
           codeUnitCompare_consistent).
Defined.

Example lock_queue_of_reader_then_writer :
  (getLockQueue codeUnitCompare ex_reader_then_writer).1
  = [ {| QueueSnapshot.resourceId := "R"; QueueSnapshot.type := write;
         QueueSnapshot.sessionId := "s2";
         QueueSnapshot.waitingSince := "1970-01-01T00:00:00.002Z" |};
      {| QueueSnapshot.resourceId := "R"; QueueSnapshot.type := read;
         QueueSnapshot.sessionId := "s3";
         QueueSnapshot.waitingSince := "1970-01-01T00:00:00.003Z" |} ].
Proof. vm_compute. reflexivity. Qed.

Lemma elem_of_recordLocks s r l w :
  s ∈ recordLocks (r, l) w ↔
  ∃ record, heap w !! l = Some record ∧ ActiveLockSnapshot.resourceId s = r
            ∧ snapshotOf s record.
Proof.
  unfold recordLocks, snapshotOf. cbn [fst snd].
  destruct (heap w !! l) as [record|]; [|split; [by intros ?%elem_of_nil|by intros (? & ? & _)]].
  rewrite elem_of_app. split.
  - intros [H|H].
    + destruct (writer record) as [[sid held]|] eqn:Ew; [|by apply elem_of_nil in H].
      apply list_elem_of_singleton in H. subst s. exists record.
      split_and!; [done|done|]. by exists held.
    + apply list_elem_of_fmap in H as ([sid held] & -> & Hin). exists record.
      split_and!; [done|done|]. by exists held.
  - intros (rec0 & [= <-] & Hr & since & Hh & Hs). destruct s as [r0 t sid held].
    simpl in *. subst r0 held. destruct t.
    + right. apply list_elem_of_fmap. by exists (sid, since).
    + left. rewrite Hs. by apply list_elem_of_singleton.
Qed.

Lemma recordLocks_NoDup entry w :
  (∀ record, heap w !! entry.2 = Some record → NoDup (readers record).*1) →
  NoDup (recordLocks entry w).
Proof.
  intros Hnd. unfold recordLocks. destruct (heap w !! entry.2) as [record|]; [|constructor].
  specialize (Hnd record eq_refl). apply NoDup_app. split_and!.
  - destruct (writer record) as [[sid held]|]; [apply NoDup_singleton|constructor].
  - intros s Hs Hs'. apply list_elem_of_fmap in Hs' as (x & -> & _).
    destruct (writer record) as [[sid held]|]; [|by apply elem_of_nil in Hs].
    by apply list_elem_of_singleton in Hs.
  - apply NoDup_fmap_2_strong; [|by eapply NoDup_fmap_1].
    intros [s1 h1] [s2 h2] H1 H2 [= -> _].
    apply (JsMap_elem_of_get _ _ _ Hnd) in H1, H2. congruence.
Qed.

Lemma getActiveLocks_NoDup cmp w : Inv w → NoDup (getActiveLocks cmp w).1.
Proof.
  intros HI. unfold getActiveLocks. cbn [fst]. rewrite sort_Permutation.
  pose proof (inv_keys _ HI) as Hk.
  assert (∀ entry, entry ∈ locks w → NoDup (recordLocks entry w)) as Hr.
  { intros entry _. apply recordLocks_NoDup. intros record Hh. by eapply inv_readers. }
  revert Hk Hr. generalize (locks w). intros m.
  induction m as [|entry m IH]; intros Hk Hr; [constructor|].
  rewrite fmap_cons in Hk. apply NoDup_cons in Hk as [Hnotin Hk].
  rewrite bind_cons. apply NoDup_app. split_and!.
  - apply Hr. by left.
  - intros s Hs Hs'. apply list_elem_of_bind in Hs' as (entry' & Hs' & Hin').
    apply recordLocks_resourceId in Hs, Hs'. apply Hnotin.
    apply list_elem_of_fmap. exists entry'. split; [congruence|done].
  - apply IH; [done|]. intros e ?. apply Hr. by right.
Qed.

Lemma getActiveLocks_exact cmp w s :
  Inv w →
  s ∈ (getActiveLocks cmp w).1 ↔
  ∃ l record, lookupRecord (ActiveLockSnapshot.resourceId s) w = Some (l, record)
              ∧ snapshotOf s record.
Proof.
  intros HI. rewrite elem_of_getActiveLocks. split.
  - intros ([r l] & Hin & Hs). apply elem_of_recordLocks in Hs as (record & Hh & <- & Hs).
    exists l, record. split; [|done]. by apply lookupRecord_elem_of.
  - intros (l & record & Hl & Hs). apply (lookupRecord_elem_of _ _ _ _ HI) in Hl as [Hin Hh].
    exists (ActiveLockSnapshot.resourceId s, l). split; [done|].
    apply elem_of_recordLocks. eauto.
Qed.

(** X19. An active-lock snapshot lists every holder once and nothing else: an
    entry is in it exactly when the record of its resource has that session
    as writer, or as a reader, since the time that the entry gives as an
    ISO string. *)
Theorem active_locks_snapshot_is_exact e localeCompare w :
  reachable e w →
  NoDup (getActiveLocks localeCompare w).1
  ∧ ∀ s, s ∈ (getActiveLocks localeCompare w).1 ↔
         ∃ l record,
           lookupRecord (ActiveLockSnapshot.resourceId s) w = Some (l, record)
           ∧ snapshotOf s record.
Proof.
  intros Hr. pose proof (reachable_Inv _ _ Hr) as HI. split.
  - by apply getActiveLocks_NoDup.
  - intros s. by apply getActiveLocks_exact.
Qed.

Lemma active_locks_snapshot_is_exact_witness :
  reachable env0 ex_reader_then_writer
  ∧ NoDup (getActiveLocks codeUnitCompare ex_reader_then_writer).1
  ∧ ∀ s, s ∈ (getActiveLocks codeUnitCompare ex_reader_then_writer).1 ↔
         ∃ l record,
           lookupRecord (ActiveLockSnapshot.resourceId s) ex_reader_then_writer
           = Some (l, record)
           ∧ snapshotOf s record.
Proof.
  split; [apply ex_reader_then_writer_reachable|].
  apply (active_locks_snapshot_is_exact env0 codeUnitCompare ex_reader_then_writer
           ex_reader_then_writer_reachable).
Defined.

(** ** The lock routes *)

Lemma distinct_le ids : distinct ids ≤ length ids.
Proof.
  unfold distinct.
  assert ((list_to_set ids : gset string) = list_to_set (remove_dups ids)) as ->.
  { apply set_eq. intros x. by rewrite !elem_of_list_to_set, elem_of_remove_dups. }
  rewrite size_list_to_set by apply NoDup_remove_dups.
  apply submseteq_length, NoDup_submseteq; [apply NoDup_remove_dups|].
  intros x. by rewrite elem_of_remove_dups.
Qed.

Lemma distinct_ge (some ids : list string) :
  NoDup some → (∀ x, x ∈ some → x ∈ ids) → length some ≤ distinct ids.
Proof.
  intros Hnd Hsub. unfold distinct. rewrite <- (size_list_to_set (C := gset string) some Hnd).
  apply subseteq_size. intros x. rewrite !elem_of_list_to_set. apply Hsub.
Qed.

Lemma length_by_type {A} (type : A → LockType) (l : list A) :
  length l = length (filter (λ x, type x = read) l) + length (filter (λ x, type x = write) l).
Proof.
  induction l as [|x l IH]; [done|]. rewrite !filter_cons.
  destruct (type x); simpl; rewrite IH; repeat case_decide; simpl; try done; lia.
Qed.

(** X20. The answer of [/status] in a world the event loop can reach: the
    summary adds up, every lock being a read or a write; there are at
    most as many writers as resources and as many resources as locks; a
    resource listed with a writer is listed once; the log lines are those
    of the buffer, newest first, never more than 200; and the manager is as
    before. *)
Theorem status_summary_adds_up e localeCompare i w :
  reachable e w →
  let body := (statusRoute localeCompare i w).1 in
  let s := StatusBody.summary body in
  Summary.total s = Summary.readers s + Summary.writers s
  ∧ Summary.writers s ≤ Summary.resources s
  ∧ Summary.resources s ≤ Summary.total s
  ∧ (∀ a b, a ∈ StatusBody.locks body → b ∈ StatusBody.locks body →
       ActiveLockSnapshot.type a = write →
       ActiveLockSnapshot.resourceId b = ActiveLockSnapshot.resourceId a → b = a)
  ∧ StatusBody.logs body = reverse (logBuffer w)
  ∧ length (StatusBody.logs body) ≤ MAX_LOG_ENTRIES
  ∧ sameManager w (statusRoute localeCompare i w).2.
Proof.
  intros Hr. pose proof (reachable_Inv _ _ Hr) as HI.
  unfold statusRoute. cbn [getActiveLocks fst snd StatusBody.summary StatusBody.locks
                           StatusBody.logs Summary.total Summary.readers Summary.writers
                           Summary.resources getRecentLogs arrays set_arrays set_fresh].
  set (locks0 := sort _ _).
  assert (locks0 = (getActiveLocks localeCompare w).1) as Hlocks by done.
  assert (∀ a b, a ∈ locks0 → b ∈ locks0 → ActiveLockSnapshot.type a = write →
            ActiveLockSnapshot.resourceId b = ActiveLockSnapshot.resourceId a → b = a) as Hw.
  { intros a b Ha Hb Hta Hres. rewrite Hlocks in Ha, Hb.
    apply (getActiveLocks_exact _ _ _ HI) in Ha as (l & record & Hl & Ha).
    apply (getActiveLocks_exact _ _ _ HI) in Hb as (l' & record' & Hl' & Hb).
    rewrite Hres, Hl in Hl'. injection Hl' as <- <-.
    destruct Ha as (since & Hsa & Ha), Hb as (since' & Hsb & Hb). rewrite Hta in Ha.
    apply lookupRecord_Some in Hl as [_ Hh].
    destruct (inv_mutex _ HI _ _ Hh) as [Hnone|Hnil]; [congruence|].
    destruct a as [ra ta sa ha], b as [rb tb sb hb]. simpl in *. subst.
    destruct tb; [rewrite Hnil in Hb; by apply elem_of_nil in Hb|]. congruence. }
  split_and!.
  - apply length_by_type.
  - rewrite <- length_fmap with (f := ActiveLockSnapshot.resourceId). apply distinct_ge.
    + apply NoDup_fmap_2_strong.
      * intros a b [Hta Ha]%list_elem_of_filter [Htb Hb]%list_elem_of_filter Hres.
        symmetry. by apply Hw.
      * apply NoDup_filter. rewrite Hlocks. by apply getActiveLocks_NoDup.
    + intros r (a & -> & [_ Ha]%list_elem_of_filter)%list_elem_of_fmap.
      apply list_elem_of_fmap. eauto.
  - rewrite <- (length_fmap ActiveLockSnapshot.resourceId locks0). apply distinct_le.
  - exact Hw.
  - rewrite lookup_alter_eq, lookup_insert_eq. done.
  - rewrite lookup_alter_eq, lookup_insert_eq. cbn. rewrite length_reverse.
    by eapply logBuffer_length.
  - apply (sameManager_getRecentLogs w w); [by apply inv_recentLogs|done|apply sameManager_refl].
Qed.

Lemma status_summary_adds_up_witness :
  reachable env0 ex_reader_then_writer
  ∧ let body := (statusRoute codeUnitCompare (at_ 4) ex_reader_then_writer).1 in
    let s := StatusBody.summary body in
    Summary.total s = Summary.readers s + Summary.writers s
    ∧ Summary.writers s ≤ Summary.resources s
    ∧ Summary.resources s ≤ Summary.total s
    ∧ (∀ a b, a ∈ StatusBody.locks body → b ∈ StatusBody.locks body →
         ActiveLockSnapshot.type a = write →
         ActiveLockSnapshot.resourceId b = ActiveLockSnapshot.resourceId a → b = a)
    ∧ StatusBody.logs body = reverse (logBuffer ex_reader_then_writer)
    ∧ length (StatusBody.logs body) ≤ MAX_LOG_ENTRIES
    ∧ sameManager ex_reader_then_writer
        (statusRoute codeUnitCompare (at_ 4) ex_reader_then_writer).2.
Proof.
  split; [apply ex_reader_then_writer_reachable|].
  apply (status_summary_adds_up env0 codeUnitCompare (at_ 4) ex_reader_then_writer
           ex_reader_then_writer_reachable).
Defined.

Example status_of_reader_then_writer :
  StatusBody.summary (statusRoute codeUnitCompare (at_ 4) ex_reader_then_writer).1
  = {| Summary.total := 1; Summary.readers := 1; Summary.writers := 0;
       Summary.resources := 1; Summary.lastUpdated := "1970-01-01T00:00:00.004Z" |}.
Proof. vm_compute. reflexivity. Qed.

(** X21. The answer of [/queue]: the queue snapshot, with one entry for every
    waiting request; the summary adds up, every request being a read or a
    write; there are no more resources than entries; the time of the
    answer is given as an ISO string; and the manager is untouched. *)
Theorem queue_summary_adds_up localeCompare i w :
  let body := (queueRoute localeCompare i w).1 in
  let s := QueueBody.summary body in
  QueueBody.queue body = (getLockQueue localeCompare w).1
  ∧ Summary.total s = length (queuedRequests w)
  ∧ Summary.total s = Summary.readers s + Summary.writers s
  ∧ Summary.resources s ≤ Summary.total s
  ∧ Summary.lastUpdated s = toISOString (now i)
  ∧ (queueRoute localeCompare i w).2 = w.
Proof.
  unfold queueRoute. cbn [getLockQueue fst snd QueueBody.summary QueueBody.queue
                          Summary.total Summary.readers Summary.writers Summary.resources
                          Summary.lastUpdated].
  set (queue0 := sort _ _).
  assert (queue0 ≡ₚ queueSnapshot <$> queuedRequests w) as Hp
    by apply (getLockQueue_queuedRequests localeCompare).
  split_and!; [done| | | |done|done].
  - by rewrite Hp, length_fmap.
  - apply length_by_type.
  - rewrite <- (length_fmap QueueSnapshot.resourceId queue0). apply distinct_le.
Qed.

(** X22. [/force-unlock] answers 400 and leaves the manager alone unless the
    body names the resource by a string that is not empty; then it
    force-unlocks that resource, and from that turn on the resource is in
    no lock and no queue entry that [/status] and [/queue] return. *)
Theorem forceUnlockRoute_outcome e localeCompare i i' field w :
  reachable e w →
  match forceUnlockRoute i field w with
  | (BadRequest message, w') =>
      message = "resourceId is required" ∧ w' = w
      ∧ (field = NotAString ∨ field = AString "")
  | (Pending, w') =>
      ∃ s, field = AString s ∧ s ≠ "" ∧ step w w'
           ∧ w' = forceUnlock i s FromOutside w
           ∧ (∀ a, a ∈ StatusBody.locks (statusRoute localeCompare i' w').1 →
                   ActiveLockSnapshot.resourceId a ≠ s)
           ∧ (∀ q, q ∈ QueueBody.queue (queueRoute localeCompare i' w').1 →
                   QueueSnapshot.resourceId q ≠ s)
  end.
Proof.
  intros Hr. pose proof (reachable_Inv _ _ Hr) as HI.
  destruct field as [|s]; cbn [forceUnlockRoute]; [by split_and!; [| |left]|].
  case_decide as Hs; [subst; by split_and!; [| |right]|].
  exists s. split_and!; [done|done|apply step_forceUnlock|done|..].
  - assert (absentFromSnapshots localeCompare s (forceUnlock i s FromOutside w)) as [Ha _].
    { apply absentFromSnapshots_idle; [by apply Inv_forceUnlock|].
      intros l record Hl. by apply (forceUnlock_post i s FromOutside w HI) in Hl as [-> _]. }
    exact Ha.
  - assert (absentFromSnapshots localeCompare s (forceUnlock i s FromOutside w)) as [_ Hq].
    { apply absentFromSnapshots_idle; [by apply Inv_forceUnlock|].
      intros l record Hl. by apply (forceUnlock_post i s FromOutside w HI) in Hl as [-> _]. }
    exact Hq.
Qed.

Lemma forceUnlockRoute_outcome_witness :
  reachable env0 ex_writer_rrw
  ∧ ∃ s, AString "R" = AString s ∧ s ≠ "" ∧ step ex_writer_rrw
           (forceUnlock (at_ 5) "R" FromOutside ex_writer_rrw)
         ∧ forceUnlock (at_ 5) "R" FromOutside ex_writer_rrw
           = forceUnlock (at_ 5) s FromOutside ex_writer_rrw
         ∧ (∀ a, a ∈ StatusBody.locks
                       (statusRoute codeUnitCompare (at_ 6)
                          (forceUnlock (at_ 5) "R" FromOutside ex_writer_rrw)).1 →
                 ActiveLockSnapshot.resourceId a ≠ s)
         ∧ (∀ q, q ∈ QueueBody.queue
                       (queueRoute codeUnitCompare (at_ 6)
                          (forceUnlock (at_ 5) "R" FromOutside ex_writer_rrw)).1 →
                 QueueSnapshot.resourceId q ≠ s).
Proof.
  split; [apply ex_writer_rrw_reachable|].
  apply (forceUnlockRoute_outcome env0 codeUnitCompare (at_ 5) (at_ 6) (AString "R")
           ex_writer_rrw ex_writer_rrw_reachable).
Defined.
